(** * scalable-zip-fs: path normalisation, merged index, read path and
      the zip-optimizer tool, embedded from the C++ sources.

    Conventions of the embedding.
    - A C string ([const char*], NUL terminated) is the Rocq [string] of
      its bytes before the terminator, so [strlen] is [String.length] and
      [path[0] == '\0'] is [path = ""].
    - [size_t] indices into a path are [nat]: they are bounded by the
      length of the path (see [PathSplit_loop_bounds]), so no wrap-around
      can happen; 64-bit quantities of the read path are [Z] with the
      conversions written out.
    - [std::unordered_map<std::string, T>] is [gmap string T].
    - libzip, getopt, the filesystem and FUSE are external: they appear as
      explicit data (an archive is the list of its [zip_stat] results and
      payloads) or as fields of an environment record. *)

From Stdlib Require Import ZArith Ascii String List Lia Bool.
From stdpp Require Import gmap strings list fin_maps.

Set Warnings "-register-all".

Open Scope string_scope.

(** ** PathSplit (src/src/utils.cpp, lines 10-55) *)

Module PathSplit.

(** The members of [class PathSplit]. *)
Record t := mk {
  segments : list (nat * nat);
  is_dir : bool
}.

(** The locals of the constructor that live across loop iterations
    ([seg_end] and [seg_found] are reassigned before every use). *)
Record locals := mkLocals {
  seg_start : nat;
  segments_ : list (nat * nat);
  last_was_dots : bool
}.

(** [pathptr[i]], for [i] inside the buffer. *)
Definition at_ (pathptr : string) (i : nat) (c : ascii) : bool :=
  match String.get i pathptr with
  | Some c' => if ascii_dec c' c then true else false
  | None => false
  end.

(** [segments_.pop_back()]. *)
Definition pop_back (l : list (nat * nat)) : list (nat * nat) := removelast l.

(** One iteration of [while (i <= pathlen)], lines 26-49. *)
Definition body (pathptr : string) (pathlen : nat) (i : nat) (st : locals)
  : locals :=
  if (i =? pathlen)%nat || at_ pathptr i "/"%char then
    let seg_end := i in
    let seg_len := seg_end - seg_start st in
    let st' :=
      if (seg_len =? 0)%nat then
        mkLocals (seg_start st) (segments_ st) false
      else if (seg_len =? 1)%nat && at_ pathptr (seg_start st) "."%char then
        mkLocals (seg_start st) (segments_ st) true
      else if (seg_len =? 2)%nat && at_ pathptr (seg_start st) "."%char
              && at_ pathptr (seg_start st + 1) "."%char then
        mkLocals (seg_start st)
                 (match segments_ st with
                  | [] => segments_ st
                  | _ => pop_back (segments_ st)
                  end)
                 true
      else
        mkLocals (seg_start st) (segments_ st ++ [(seg_start st, seg_end)]) false
    in
    mkLocals (i + 1) (segments_ st') (last_was_dots st')
  else st.

(** The loop, run for [n] iterations from index [i]. *)
Fixpoint loop (pathptr : string) (pathlen : nat) (n : nat) (i : nat)
         (st : locals) : locals :=
  match n with
  | O => st
  | S n' => loop pathptr pathlen n' (S i) (body pathptr pathlen i st)
  end.

(** [PathSplit::PathSplit(const char* pathptr, const size_t pathlen)]:
    [i] runs over [0 .. pathlen], that is [pathlen + 1] iterations. *)
Definition make (pathptr : string) (pathlen : nat) : t :=
  let is_dir0 :=
    if (0 <? pathlen)%nat then at_ pathptr (pathlen - 1) "/"%char else false in
  let st := loop pathptr pathlen (S pathlen) 0 (mkLocals 0 [] false) in
  mk (segments_ st) (is_dir0 || last_was_dots st).

(** [PathSplit::PathSplit(const std::string& path)]. *)
Definition of_string (path : string) : t := make path (String.length path).

(** [std::string(name + start, finish - start)]: the bytes of a segment. *)
Definition seg_name (name : string) (seg : nat * nat) : string :=
  substring (fst seg) (snd seg - fst seg) name.

(** The component names of a normalised path. *)
Definition names (path : string) : list string :=
  map (seg_name path) (segments (of_string path)).

End PathSplit.

(** ** The merged index (include/utils.hpp, [zipent.hpp] part;
       src/src/utils.cpp, lines 590-825) *)

(** [struct zip_stat], the fields the tools read. [valid] is the bit set
    of the fields libzip filled in. *)
Record zip_stat := mkStat {
  st_valid : Z;
  st_name : string;
  st_size : Z;
  st_comp_size : Z;
  st_mtime : Z;
  st_comp_method : Z
}.

(** The flags of [valid] and the method of stored entries, with the
    values of libzip's [zip.h]; the theorems do not depend on the values. *)
Definition ZIP_STAT_NAME : Z := 1.
Definition ZIP_STAT_SIZE : Z := 4.
Definition ZIP_STAT_COMP_SIZE : Z := 8.
Definition ZIP_STAT_MTIME : Z := 16.
Definition ZIP_STAT_COMP_METHOD : Z := 64.
Definition ZIP_CM_STORE : Z := 0.

(** [st.valid & FLAG] used as a condition. *)
Definition has_flag (valid flag : Z) : bool := negb (Z.land valid flag =? 0)%Z.

(** One entry of an opened archive: what [zip_stat_index] answers
    ([None] when it fails) and the decompressed payload the entry holds. *)
Record zip_entry := mkEntry {
  e_stat : option zip_stat;
  e_data : list ascii
}.

(** An opened archive ([zip_t*]) is the list of its entries;
    [zip_get_num_entries] is its length. *)
Definition zip_t := list zip_entry.

(** [class FileEntry] (the [parent_] back pointer and the [name_] pointer
    to the map key are not represented: the key is the name). *)
Record FileEntry := mkFile {
  zip_path_idx_ : nat;
  size_ : Z;
  compressed_size_ : Z;
  offset_ : Z;
  need_decompression_ : bool
}.

(** [class DirectoryEntry]. *)
Inductive DirectoryEntry := mkDir {
  dirs_ : gmap string DirectoryEntry;
  files_ : gmap string FileEntry
}.

(** A default-constructed [DirectoryEntry]. *)
Definition empty_dir : DirectoryEntry := mkDir ∅ ∅.

(** [DirectoryEntry::find_dir] and [DirectoryEntry::find_file]. *)
Definition find_dir (d : DirectoryEntry) (name : string) : option DirectoryEntry :=
  dirs_ d !! name.

Definition find_file (d : DirectoryEntry) (name : string) : option FileEntry :=
  files_ d !! name.

(** [class ZipEntryManagerImpl]. *)
Record ZipEntryManagerImpl := mkManager {
  zip_path_lst_ : list string;
  root_ : DirectoryEntry
}.

(** The constructor: [root_.name_ = &zip_path_lst_.emplace_back("")]. *)
Definition new_manager : ZipEntryManagerImpl := mkManager [""] empty_dir.

(** [get_zip_path(idx)]; out of range is undefined in C++, [None] here. *)
Definition get_zip_path (m : ZipEntryManagerImpl) (idx : nat) : option string :=
  zip_path_lst_ m !! idx.

(** The counters [index_zipfile] prints at the end. *)
Record index_stats := mkStats {
  indexed_files : nat;
  skipped_dirs : nat;
  skipped_duplicates : nat;
  compressed_files : nat
}.

(** What happened to one entry of the archive. *)
Inductive entry_outcome :=
| StatFailed | MissingMetadata | SkippedDir | NoSegments
| SkippedDuplicate | Indexed (compressed : bool).

(** Lines 695-721: the [FileEntry] built for entry [i]. *)
Definition make_file_entry (zip_idx : nat) (i : Z) (st : zip_stat) : FileEntry :=
  let comp_method :=
    if has_flag (st_valid st) ZIP_STAT_COMP_METHOD then st_comp_method st else 0%Z in
  mkFile zip_idx (st_size st) (st_comp_size st)
         (if has_flag (st_valid st) ZIP_STAT_COMP_SIZE then i else 0%Z)
         (negb (comp_method =? ZIP_CM_STORE)%Z).

(** Lines 663-727, from [current_dir] on: all segments but the last are
    directories, found or created; the last one is the file name, inserted
    unless the name is already in [files_]. The result is the updated
    directory and whether the file went in. *)
Fixpoint index_segments (name : string) (segs : list (nat * nat))
         (fe : FileEntry) (current_dir : DirectoryEntry)
  : DirectoryEntry * bool :=
  match segs with
  | [] => (current_dir, false)
  | [last] =>
      let file_name := PathSplit.seg_name name last in
      match files_ current_dir !! file_name with
      | Some _ => (current_dir, false)
      | None => (mkDir (dirs_ current_dir) (<[file_name := fe]> (files_ current_dir)), true)
      end
  | seg :: rest =>
      let dir_name := PathSplit.seg_name name seg in
      let child :=
        match dirs_ current_dir !! dir_name with
        | Some d => d
        | None => empty_dir
        end in
      let '(child', inserted) := index_segments name rest fe child in
      (mkDir (<[dir_name := child']> (dirs_ current_dir)) (files_ current_dir), inserted)
  end.

(** The body of the [for] loop of [index_zipfile] for entry [i]. *)
Definition index_entry (zip_idx : nat) (i : Z) (e : zip_entry)
           (root : DirectoryEntry) : DirectoryEntry * entry_outcome :=
  match e_stat e with
  | None => (root, StatFailed)
  | Some st =>
      if negb (has_flag (st_valid st) ZIP_STAT_NAME)
         || negb (has_flag (st_valid st) ZIP_STAT_SIZE) then (root, MissingMetadata)
      else
        let name := st_name st in
        let name_len := String.length name in
        if (0 <? name_len)%nat && PathSplit.at_ name (name_len - 1) "/"%char
        then (root, SkippedDir)
        else
          let path_split := PathSplit.make name name_len in
          if PathSplit.is_dir path_split then (root, SkippedDir)
          else
            match PathSplit.segments path_split with
            | [] => (root, NoSegments)
            | segs =>
                let fe := make_file_entry zip_idx i st in
                let '(root', inserted) := index_segments name segs fe root in
                (root',
                 if inserted then Indexed (need_decompression_ fe)
                 else SkippedDuplicate)
            end
  end.

Definition count_outcome (o : entry_outcome) (s : index_stats) : index_stats :=
  match o with
  | StatFailed | MissingMetadata | NoSegments => s
  | SkippedDir =>
      mkStats (indexed_files s) (S (skipped_dirs s)) (skipped_duplicates s)
              (compressed_files s)
  | SkippedDuplicate =>
      mkStats (indexed_files s) (skipped_dirs s) (S (skipped_duplicates s))
              (compressed_files s)
  | Indexed c =>
      mkStats (S (indexed_files s)) (skipped_dirs s) (skipped_duplicates s)
              (if c then S (compressed_files s) else compressed_files s)
  end.

(** [for (i = 0; i < num_entries; i++)], from entry [i] on. *)
Fixpoint index_entries (zip_idx : nat) (i : Z) (za : list zip_entry)
         (root : DirectoryEntry) (s : index_stats) : DirectoryEntry * index_stats :=
  match za with
  | [] => (root, s)
  | e :: za' =>
      let '(root', o) := index_entry zip_idx i e root in
      index_entries zip_idx (i + 1)%Z za' root' (count_outcome o s)
  end.

(** [ZipEntryManagerImpl::index_zipfile]. [abs_path] is the absolute path
    of the archive and [opened] what [zip_open] returns for it; a failed
    open throws [std::runtime_error] and leaves the manager unchanged. *)
Definition index_zipfile (m : ZipEntryManagerImpl) (abs_path : string)
           (opened : option zip_t) : option (ZipEntryManagerImpl * index_stats) :=
  match opened with
  | None => None
  | Some za =>
      let zip_idx := length (zip_path_lst_ m) in
      let '(root', s) := index_entries zip_idx 0 za (root_ m) (mkStats 0 0 0 0) in
      Some (mkManager (zip_path_lst_ m ++ [abs_path]) root', s)
  end.

(** [ZipEntryManagerImpl::lookup_dir], the loop over the segments. *)
Fixpoint lookup_dir_loop (path : string) (segs : list (nat * nat))
         (current_dir : DirectoryEntry) : option DirectoryEntry :=
  match segs with
  | [] => Some current_dir
  | seg :: rest =>
      match find_dir current_dir (PathSplit.seg_name path seg) with
      | None => None
      | Some d => lookup_dir_loop path rest d
      end
  end.

Definition lookup_dir (m : ZipEntryManagerImpl) (path : string)
  : option DirectoryEntry :=
  if (String.length path =? 0)%nat
     || (PathSplit.at_ path 0 "/"%char && (String.length path =? 1)%nat)
  then Some (root_ m)
  else
    let path_split := PathSplit.make path (String.length path) in
    lookup_dir_loop path (PathSplit.segments path_split) (root_ m).

(** [ZipEntryManagerImpl::lookup_file], from [current_dir = &root_] on:
    the loop up to [last], then [find_file] on the last segment. *)
Fixpoint lookup_file_loop (path : string) (segs : list (nat * nat))
         (current_dir : DirectoryEntry) : option FileEntry :=
  match segs with
  | [] => None
  | [last] => find_file current_dir (PathSplit.seg_name path last)
  | seg :: rest =>
      match find_dir current_dir (PathSplit.seg_name path seg) with
      | None => None
      | Some d => lookup_file_loop path rest d
      end
  end.

Definition lookup_file (m : ZipEntryManagerImpl) (path : string)
  : option FileEntry :=
  if (String.length path =? 0)%nat then None
  else
    let path_split := PathSplit.make path (String.length path) in
    if PathSplit.is_dir path_split then None
    else
      match PathSplit.segments path_split with
      | [] => None
      | segs => lookup_file_loop path segs (root_ m)
      end.

(** ** libzip at its boundary *)

(** What the tools use of libzip's read side. A handle of type
    [zip_file_t] is what [zip_fopen_index] returns; [zip_fread zf n]
    answers the return value (negative on error), the bytes put into the
    buffer and the handle after the call. *)
Class Codec := {
  zip_file_t : Type;
  zip_fopen_index : zip_t -> Z -> option zip_file_t;
  zip_fread : zip_file_t -> Z -> Z * list ascii * zip_file_t
}.

(** A codec that works: every entry opens, and a handle delivers the
    entry's payload front to back, as many bytes as asked for or as are
    left. [rest zf] is what [zf] has not delivered yet. *)
Class CodecWorks (C : Codec) := {
  rest : zip_file_t -> list ascii;
  fopen_works : forall (za : zip_t) (i : nat) (e : zip_entry),
    za !! i = Some e ->
    exists zf, zip_fopen_index za (Z.of_nat i) = Some zf /\ rest zf = e_data e;
  fread_works : forall (zf : zip_file_t) (n : Z),
    (0 <= n)%Z ->
    exists zf', zip_fread zf n
                = (Z.of_nat (length (take (Z.to_nat n) (rest zf))),
                   take (Z.to_nat n) (rest zf), zf')
                /\ rest zf' = drop (Z.to_nat n) (rest zf)
}.

(** The reference codec: a handle is the list of bytes still to come. *)
Definition ref_fopen_index (za : zip_t) (i : Z) : option (list ascii) :=
  if (i <? 0)%Z then None
  else match za !! Z.to_nat i with
       | Some e => Some (e_data e)
       | None => None
       end.

Definition ref_fread (zf : list ascii) (n : Z) : Z * list ascii * list ascii :=
  if (n <? 0)%Z then ((-1)%Z, [], zf)
  else (Z.of_nat (length (take (Z.to_nat n) zf)), take (Z.to_nat n) zf,
        drop (Z.to_nat n) zf).

Definition ref_codec : Codec :=
  {| zip_file_t := list ascii;
     zip_fopen_index := ref_fopen_index;
     zip_fread := ref_fread |}.

(** ** Machine integers of the read path *)

Definition two64 : Z := (2 ^ 64)%Z.

(** Conversion to [size_t] / [zip_uint64_t]. *)
Definition to_size_t (z : Z) : Z := (z mod two64)%Z.

(** Conversion to [off_t] / [zip_int64_t]. *)
Definition to_off_t (z : Z) : Z :=
  let u := (z mod two64)%Z in if (u <? 2 ^ 63)%Z then u else (u - two64)%Z.

(** Conversion to [int]. *)
Definition to_int (z : Z) : Z :=
  let u := (z mod 2 ^ 32)%Z in if (u <? 2 ^ 31)%Z then u else (u - 2 ^ 32)%Z.

Definition INT_MAX : Z := (2 ^ 31 - 1)%Z.

Definition ENOENT : Z := 2.
Definition EIO : Z := 5.
Definition EACCES : Z := 13.

(** ** The FUSE operations (src/src/utils.cpp, lines 415-559) *)

(** The fields of [struct stat] that [zipfs_getattr] sets. *)
Record stat_buf := mkStatBuf {
  st_mode : Z;
  st_nlink : Z;
  stbuf_size : Z
}.

Definition S_IFDIR : Z := 16384.   (* 0040000 *)
Definition S_IFREG : Z := 32768.   (* 0100000 *)

(** [zipfs_getattr]: the return value and [*stbuf]. *)
Definition zipfs_getattr (m : ZipEntryManagerImpl) (path : string) : Z * stat_buf :=
  let stbuf := mkStatBuf 0 0 0 in
  match lookup_dir m path with
  | Some dir => (0%Z, mkStatBuf (Z.lor S_IFDIR 365) 2 4096)   (* 0555 *)
  | None =>
      match lookup_file m path with
      | Some file =>
          (* 0444; [st_size] is an [off_t] *)
          (0%Z, mkStatBuf (Z.lor S_IFREG 292) 1 (to_off_t (size_ file)))
      | None => ((- ENOENT)%Z, stbuf)
      end
  end.

(** [zipfs_open]; [accmode] is [fi->flags & O_ACCMODE], [O_RDONLY] is 0. *)
Definition zipfs_open (m : ZipEntryManagerImpl) (path : string) (accmode : Z) : Z :=
  match lookup_file m path with
  | None => (- ENOENT)%Z
  | Some _ => if (accmode =? 0)%Z then 0%Z else (- EACCES)%Z
  end.

Section Read.
Context {C : Codec}.

(** How the discard loop of [zipfs_read] ends. *)
Inductive discard_result :=
| Discarded (zf : zip_file_t)
| DiscardFailed
| DiscardOutOfFuel.

(** [while (remaining > 0)], lines 533-545; every iteration that goes
    round again has lowered [remaining], so [Z.to_nat remaining]
    iterations are enough (see [discard_loop_total]). *)
Fixpoint discard_loop (fuel : nat) (zf : zip_file_t) (remaining : Z)
  : discard_result :=
  if (remaining >? 0)%Z then
    match fuel with
    | O => DiscardOutOfFuel
    | S fuel' =>
        let to_read := if (remaining >? 4096)%Z then 4096%Z else remaining in
        let '(result, _, zf') := zip_fread zf to_read in
        if (result <? 0)%Z then DiscardFailed
        else
          let remaining' := (remaining - result)%Z in
          if (result =? 0)%Z then Discarded zf'
          else discard_loop fuel' zf' remaining'
    end
  else Discarded zf.

(** The result of [zipfs_read]: the return value and the bytes put into
    [buf]. [ReadUndefined] stands for the out-of-range
    [zip_path_lst_[idx]] of [get_zip_path]. *)
Inductive read_result :=
| ReadReturn (ret : Z) (buf : list ascii)
| ReadUndefined
| ReadOutOfFuel.

(** [zipfs_read]. [zip_open] is what opening the archive at a path
    answers; [size] is a [size_t] and [offset] an [off_t]. *)
Definition zipfs_read (m : ZipEntryManagerImpl)
           (zip_open : string -> option zip_t)
           (path : string) (size : Z) (offset : Z) : read_result :=
  match lookup_file m path with
  | None => ReadReturn (- ENOENT)%Z []
  | Some file =>
      if (offset >=? to_off_t (size_ file))%Z then ReadReturn 0 []
      else
        let size :=
          if (to_size_t (to_size_t offset + size)%Z >? size_ file)%Z
          then to_size_t (size_ file - to_size_t offset)%Z
          else size in
        match get_zip_path m (zip_path_idx_ file) with
        | None => ReadUndefined
        | Some zip_path =>
            match zip_open zip_path with
            | None => ReadReturn (- EIO)%Z []
            | Some za =>
                match zip_fopen_index za (offset_ file) with
                | None => ReadReturn (- EIO)%Z []
                | Some zf =>
                    match (if (offset >? 0)%Z
                           then discard_loop (Z.to_nat offset) zf offset
                           else Discarded zf) with
                    | DiscardFailed => ReadReturn (- EIO)%Z []
                    | DiscardOutOfFuel => ReadOutOfFuel
                    | Discarded zf1 =>
                        let '(bytes_read, buf, _) := zip_fread zf1 size in
                        if (bytes_read <? 0)%Z then ReadReturn (- EIO)%Z buf
                        else ReadReturn (to_int bytes_read) buf
                    end
                end
            end
        end
  end.
End Read.

(** ** The rewrite tool (src/src/utils.cpp, lines 68-375, and its
       buffering variant, src/unnamed/part_001) *)

Module Optimizer.

Local Open Scope list_scope.

(** What is inserted into [std::cout] / [std::cerr], in order. [Pct d b]
    is the [double] [((double)d / b) * 100.0]. *)
Inductive out_item :=
| Str (s : string)
| Num (n : Z)
| Pct (d b : Z).

(** libzip's error codes that the stream source sets. *)
Inductive zip_error_t :=
| ZIP_ER_OK | ZIP_ER_OPEN | ZIP_ER_INVAL | ZIP_ER_READ | ZIP_ER_OPNOTSUPP.

(** [enum zip_source_cmd]. *)
Inductive zip_source_cmd_t :=
| ZIP_SOURCE_OPEN | ZIP_SOURCE_READ | ZIP_SOURCE_CLOSE | ZIP_SOURCE_STAT
| ZIP_SOURCE_ERROR | ZIP_SOURCE_FREE | ZIP_SOURCE_SUPPORTS
| ZIP_SOURCE_OTHER.

(** [sizeof(zip_stat_t)] on LP64. *)
Definition sizeof_zip_stat_t : Z := 64.

Section Stream.
Context {C : Codec}.

(** [struct ZipStreamSource]; [file] is [None] for [nullptr]. *)
Record ZipStreamSource := mkSource {
  input_zip : zip_t;
  index : Z;
  size : Z;
  mtime : Z;
  stat_valid : Z;
  file : option zip_file_t;
  error : zip_error_t
}.

Definition set_file (s : ZipStreamSource) (f : option zip_file_t) :=
  mkSource (input_zip s) (index s) (size s) (mtime s) (stat_valid s) f (error s).

Definition set_error (s : ZipStreamSource) (e : zip_error_t) :=
  mkSource (input_zip s) (index s) (size s) (mtime s) (stat_valid s) (file s) e.

(** What a call of the callback leaves in [data]. *)
Inductive cb_data :=
| NoData
| Bytes (l : list ascii)
| StatData (size mtime valid : Z)
| ErrorData (e : zip_error_t)
| SupportsData (cmds : list zip_source_cmd_t).

(** The return value, [data], and the source afterwards ([None] once
    [ZIP_SOURCE_FREE] has deleted it). For [ZIP_SOURCE_ERROR] and
    [ZIP_SOURCE_SUPPORTS] the return value is libzip's encoding of
    [data]; it is given as 0 here. *)
Definition zip_stream_source_cb (source : ZipStreamSource) (len : Z)
           (cmd : zip_source_cmd_t) : Z * cb_data * option ZipStreamSource :=
  match cmd with
  | ZIP_SOURCE_OPEN =>
      match zip_fopen_index (input_zip source) (index source) with
      | None => ((-1)%Z, NoData, Some (set_error (set_file source None) ZIP_ER_OPEN))
      | Some f => (0%Z, NoData, Some (set_file source (Some f)))
      end
  | ZIP_SOURCE_READ =>
      match file source with
      | None => ((-1)%Z, NoData, Some (set_error source ZIP_ER_INVAL))
      | Some f =>
          let '(read_bytes, data, f') := zip_fread f len in
          let source' := set_file source (Some f') in
          (read_bytes, Bytes data,
           Some (if (read_bytes <? 0)%Z then set_error source' ZIP_ER_READ
                 else source'))
      end
  | ZIP_SOURCE_CLOSE => (0%Z, NoData, Some (set_file source None))
  | ZIP_SOURCE_STAT =>
      if (len <? sizeof_zip_stat_t)%Z
      then ((-1)%Z, NoData, Some (set_error source ZIP_ER_INVAL))
      else (sizeof_zip_stat_t,
            StatData (size source) (mtime source) (stat_valid source),
            Some source)
  | ZIP_SOURCE_ERROR => (0%Z, ErrorData (error source), Some source)
  | ZIP_SOURCE_FREE => (0%Z, NoData, None)
  | ZIP_SOURCE_SUPPORTS =>
      (0%Z,
       SupportsData [ZIP_SOURCE_OPEN; ZIP_SOURCE_READ; ZIP_SOURCE_CLOSE;
                     ZIP_SOURCE_STAT; ZIP_SOURCE_ERROR; ZIP_SOURCE_FREE;
                     ZIP_SOURCE_SUPPORTS],
       Some source)
  | ZIP_SOURCE_OTHER =>
      ((-1)%Z, NoData, Some (set_error source ZIP_ER_OPNOTSUPP))
  end.

(** How pulling one source ends. *)
Inductive pull_result :=
| Pulled (content : list ascii)
| PullFailed
| PullOutOfFuel.

(** Modelled from the spec: the destination writer's read loop, which
    is libzip's and not in the sources: "pulls the next chunk of
    decompressed bytes into the caller-supplied buffer, returning the
    number of bytes produced; 0 signals end-of-data", with a buffer of
    [chunk] bytes. *)
Fixpoint pull_loop (fuel : nat) (chunk : Z) (source : ZipStreamSource)
         (acc : list ascii) : pull_result * option ZipStreamSource :=
  match fuel with
  | O => (PullOutOfFuel, Some source)
  | S fuel' =>
      match zip_stream_source_cb source chunk ZIP_SOURCE_READ with
      | (n, Bytes data, Some source') =>
          if (n <? 0)%Z then (PullFailed, Some source')
          else if (n =? 0)%Z then (Pulled acc, Some source')
          else pull_loop fuel' chunk source' (acc ++ data)
      | (_, _, source') => (PullFailed, source')
      end
  end.

(** Modelled from the spec: the destination writer's use of one
    source, which is libzip's and not in the sources: [Idle -> Open ->
    Reading* -> Closed], then the terminal release, "called exactly
    once by the destination writer regardless of success or failure". *)
Definition writer_pull (fuel : nat) (chunk : Z) (source : ZipStreamSource)
  : pull_result :=
  match zip_stream_source_cb source 0 ZIP_SOURCE_OPEN with
  | (r, _, Some opened) =>
      if (r <? 0)%Z then
        let _ := zip_stream_source_cb opened 0 ZIP_SOURCE_FREE in PullFailed
      else
        match pull_loop fuel chunk opened [] with
        | (res, Some after) =>
            match zip_stream_source_cb after 0 ZIP_SOURCE_CLOSE with
            | (_, _, Some closed) =>
                let _ := zip_stream_source_cb closed 0 ZIP_SOURCE_FREE in res
            | _ => res
            end
        | (res, None) => res
        end
  | _ => PullFailed
  end.
End Stream.

(** The successive results of [getopt_long] with ["b:h"]: ['b'] with its
    [optarg], ['h'], or anything else (['?'] for an unknown option or a
    missing argument). *)
Inductive getopt_ret :=
| opt_b (optarg : string)
| opt_h
| opt_other.

(** The outside world of one run of the tool. *)
Record env := mkEnv {
  (** [std::stoull]; [None] when it throws. The value is an
      [unsigned long long]. *)
  stoull : string -> option Z;
  (** [std::filesystem::exists]. *)
  fs_exists : string -> bool;
  (** [zip_open(path, ZIP_RDONLY)]. *)
  zip_open_rdonly : string -> option zip_t;
  (** [zip_open(path, ZIP_CREATE | ZIP_TRUNCATE)] succeeds. *)
  zip_open_create : string -> bool;
  (** [zip_error_strerror] of the failed open. *)
  open_strerror : string;
  (** [zip_register_progress_callback_with_state] returns 0. *)
  register_progress_ok : bool;
  (** [zip_source_function], [zip_file_add] and
      [zip_set_file_compression] succeed for entry [i]. *)
  source_function_ok : Z -> bool;
  file_add_ok : Z -> bool;
  set_compression_ok : Z -> bool;
  (** The values of [static_cast<int>(progress * 100.0)], after the
      clamp, in the calls of the progress callback during [zip_close]. *)
  progress_percents : list Z;
  (** Writing the output file itself succeeds. *)
  write_ok : bool;
  (** The second [zip_source_buffer] of the buffering variant succeeds
      for entry [i]. *)
  source_owned_ok : Z -> bool;
  (** The buffer size of the writer's read loop. *)
  chunk : Z;
  (** [std::filesystem::file_size], after the run; [None] when it
      throws [filesystem_error]. The value is a [uintmax_t]. *)
  file_size : string -> option Z
}.

Definition newline : string := String "010"%char "".
Definition cr : string := String "013"%char "".

(** The check mark of the buffering variant (src/unnamed/part_001, line
    200): the three UTF-8 bytes of U+2713. *)
Definition check_mark : string :=
  String "226"%char (String "156"%char (String "147"%char "")).

(** The check mark as the streaming tool has it (src/src/utils.cpp, line
    340): the seven bytes of the same mark encoded twice. *)
Definition check_mark_streaming : string :=
  String "195"%char (String "162"%char (String "197"%char (String "147"%char
    (String "226"%char (String "128"%char (String "156"%char "")))))).

(** [print_usage], on [std::cerr]. *)
Definition print_usage (prog_name : string) : list out_item :=
  [Str "Usage: "; Str prog_name; Str (" --block-size SIZE input.zip output.zip" ++ newline);
   Str newline;
   Str ("Optimize ZIP files for high-performance access by:" ++ newline);
   Str ("  - Decompressing all files (store mode)" ++ newline);
   Str ("  - Aligning file data to block boundaries" ++ newline);
   Str newline;
   Str ("Options:" ++ newline);
   Str ("  --block-size SIZE    Block size for alignment (e.g., 512, 4096)" ++ newline);
   Str ("  -h, --help           Show this help message" ++ newline);
   Str newline;
   Str ("Example:" ++ newline);
   Str "  "; Str prog_name; Str (" --block-size 4096 input.zip output.zip" ++ newline);
   Str newline].

(** The end of the option loop: an early [return], or the loop is left
    with [block_size]. *)
Inductive parse_result :=
| ParseExit (code : Z) (cerr : list out_item)
| ParseDone (block_size : Z).

(** [while ((opt = getopt_long(...)) != -1) switch (opt)], lines
    186-207. *)
Fixpoint parse_options (E : env) (prog_name : string)
         (opts : list getopt_ret) (block_size : Z) : parse_result :=
  match opts with
  | [] => ParseDone block_size
  | opt_b optarg :: rest =>
      match stoull E optarg with
      | Some v =>
          if (v =? 0)%Z || negb (Z.land v (to_size_t (v - 1)) =? 0)%Z
          then ParseExit 1
                 [Str ("Error: block-size must be a power of 2 (e.g., 512, 4096)"
                       ++ newline)]
          else parse_options E prog_name rest v
      | None =>
          ParseExit 1 [Str "Error: Invalid block size: "; Str optarg; Str newline]
      end
  | opt_h :: _ => ParseExit 0 (print_usage prog_name)
  | opt_other :: _ => ParseExit 1 (print_usage prog_name)
  end.

(** [write_progress_cb], from [percent] on. *)
Definition write_progress_cb (percent : Z) (st : Z * list out_item)
  : Z * list out_item :=
  let '(last_percent, cout) := st in
  if negb (percent =? last_percent)%Z
  then (percent, cout ++ [Str "Writing output: "; Num percent; Str ("%" ++ cr)])
  else st.

Section Main.
Context {C : Codec}.

(** An entry added to the output archive and not yet written. *)
Record pending := mkPending {
  p_name : string;
  p_source : ZipStreamSource;
  p_method : option Z
}.

(** [zip_file_add(output_zip, name, source, ZIP_FL_OVERWRITE)]: an
    entry of that name is replaced in place, otherwise the entry is
    appended; answers the archive and the entry's index. *)
Fixpoint zip_file_add (out : list pending) (name : string)
         (source : ZipStreamSource) : list pending * nat :=
  match out with
  | [] => ([mkPending name source None], 0)
  | p :: out' =>
      if String.eqb (p_name p) name
      then (mkPending name source None :: out', 0)
      else let '(out'', idx) := zip_file_add out' name source in
           (p :: out'', S idx)
  end.

(** [zip_set_file_compression(output_zip, idx, method, 0)]. *)
Definition zip_set_file_compression (out : list pending) (idx : nat)
           (method : Z) : list pending :=
  match out !! idx with
  | Some p => <[idx := mkPending (p_name p) (p_source p) (Some method)]> out
  | None => out
  end.

(** Lines 306-318: the [ZipStreamSource] made for entry [i]. *)
Definition new_stream_source (input_zip : zip_t) (i : Z) (st : zip_stat)
  : ZipStreamSource :=
  mkSource input_zip i
           (if has_flag (st_valid st) ZIP_STAT_SIZE then st_size st else 0%Z)
           (if has_flag (st_valid st) ZIP_STAT_MTIME then st_mtime st else 0%Z)
           (Z.lor
              (if has_flag (st_valid st) ZIP_STAT_SIZE then ZIP_STAT_SIZE else 0%Z)
              (if has_flag (st_valid st) ZIP_STAT_MTIME then ZIP_STAT_MTIME else 0%Z))
           None ZIP_ER_OK.

(** The variables the entry loop updates. *)
Record loop_state := mkLoop {
  output_zip : list pending;
  files_processed : Z;
  files_decompressed : Z;
  cout : list out_item;
  cerr : list out_item
}.

(** The body of [for (i = 0; i < num_entries; i++)], lines 267-342. *)
Definition process_entry (E : env) (input_zip : zip_t) (i : Z)
           (e : zip_entry) (s : loop_state) : loop_state :=
  match e_stat e with
  | None =>
      mkLoop (output_zip s) (files_processed s) (files_decompressed s) (cout s)
             (cerr s ++ [Str "Warning: Failed to stat entry "; Num i; Str newline])
  | Some st =>
      let name := st_name st in
      let name_len := String.length name in
      if (0 <? name_len)%nat && PathSplit.at_ name (name_len - 1) "/"%char
      then s
      else
        let cout1 :=
          cout s ++ [Str "Processing: "; Str name; Str " ("; Num (st_size st);
                     Str " bytes)"] in
        let is_compressed :=
          has_flag (st_valid st) ZIP_STAT_COMP_METHOD
          && negb (st_comp_method st =? ZIP_CM_STORE)%Z in
        let cout2 :=
          if is_compressed then cout1 ++ [Str " [compressed -> stored]"] else cout1 in
        let files_decompressed' :=
          if is_compressed then (files_decompressed s + 1)%Z
          else files_decompressed s in
        let stream_source := new_stream_source input_zip i st in
        if negb (source_function_ok E i) then
          mkLoop (output_zip s) (files_processed s) files_decompressed' cout2
                 (cerr s ++ [Str (newline ++ "Error: Failed to create source for: ");
                             Str name; Str newline])
        else if negb (file_add_ok E i) then
          mkLoop (output_zip s) (files_processed s) files_decompressed' cout2
                 (cerr s ++ [Str (newline ++ "Error: Failed to add file to output ZIP: ");
                             Str name; Str newline])
        else
          let '(out1, idx) := zip_file_add (output_zip s) name stream_source in
          let '(out2, cerr') :=
            if set_compression_ok E i
            then (zip_set_file_compression out1 idx ZIP_CM_STORE, cerr s)
            else (out1,
                  cerr s ++ [Str (newline ++ "Warning: Failed to set compression method for: ");
                             Str name; Str newline]) in
          mkLoop out2 (files_processed s + 1)%Z files_decompressed'
                 (cout2 ++ [Str (" " ++ check_mark_streaming ++ newline)]) cerr'
  end.

(** The entry loop, from entry [i] on. *)
Fixpoint process_entries (E : env) (input_zip : zip_t) (i : Z)
         (entries : list zip_entry) (s : loop_state) : loop_state :=
  match entries with
  | [] => s
  | e :: entries' =>
      process_entries E input_zip (i + 1)%Z entries'
                      (process_entry E input_zip i e s)
  end.

(** An entry of the written output archive. *)
Record out_entry := mkOut {
  o_name : string;
  o_content : list ascii;
  o_method : option Z
}.

(** How writing the pending entries ends. *)
Inductive write_result :=
| Written (entries : list out_entry)
| WriteOutOfFuel.

(** Modelled from the spec: what the destination writer (libzip's
    [zip_close], not in the sources) does with the pending entries:
    each source is pulled until exhaustion, and a source in the
    [Error] state "aborts only that entry - copying continues with the
    remaining entries". *)
Fixpoint write_pending (fuel : nat) (chunk : Z) (out : list pending)
  : write_result :=
  match out with
  | [] => Written []
  | p :: out' =>
      match writer_pull fuel chunk (p_source p) with
      | PullOutOfFuel => WriteOutOfFuel
      | PullFailed => write_pending fuel chunk out'
      | Pulled content =>
          match write_pending fuel chunk out' with
          | Written l => Written (mkOut (p_name p) content (p_method p) :: l)
          | WriteOutOfFuel => WriteOutOfFuel
          end
      end
  end.

(** How a run of the tool ends: it returns, with the exit code, what
    went to [std::cout] and [std::cerr], and the output archive when one
    was written; or an exception leaves [main] and the process is
    terminated, with what went to the streams before. *)
Inductive run :=
| Exit (code : Z) (cout cerr : list out_item)
       (written : option (list out_entry))
| Uncaught (cout cerr : list out_item)
| RunOutOfFuel.

(** Lines 357-361: the first lines of the summary. *)
Definition summary_counters (files_processed files_decompressed block_size : Z)
  : list out_item :=
  [Str newline;
   Str ("Optimization complete!" ++ newline);
   Str "Files processed: "; Num files_processed; Str newline;
   Str "Files decompressed: "; Num files_decompressed; Str newline;
   Str "Block size: "; Num block_size; Str (" bytes" ++ newline)].

(** Lines 366-372: the sizes, and the increase when there is one. *)
Definition summary_sizes (input_size output_size : Z) : list out_item :=
  [Str "Input size: "; Num input_size; Str (" bytes" ++ newline);
   Str "Output size: "; Num output_size; Str (" bytes" ++ newline)]
  ++ (if (output_size >? input_size)%Z
      then [Str "Size increase: ";
            Pct (to_size_t (output_size - input_size)) input_size;
            Str ("% (due to decompression and alignment)" ++ newline)]
      else []).

(** The size of the output file after a [zip_close] that succeeded.
    libzip writes no file for an archive without entries (it removes the
    file), so [std::filesystem::file_size] throws there. *)
Definition output_file_size (E : env) (output_path : string)
           (entries : list out_entry) : option Z :=
  match entries with
  | [] => None
  | _ :: _ => file_size E output_path
  end.

(** Lines 357-374, the same in both variants: the summary after a
    finalized output. The two calls of [std::filesystem::file_size] are
    not inside a [try]: when one throws, the lines before it are on
    [std::cout] and the exception leaves [main]. *)
Definition finish (E : env) (input_path output_path : string)
           (files_processed files_decompressed block_size : Z)
           (cout cerr : list out_item) (entries : list out_entry) : run :=
  let cout1 :=
    cout ++ summary_counters files_processed files_decompressed block_size in
  match file_size E input_path with
  | None => Uncaught cout1 cerr
  | Some input_size =>
      match output_file_size E output_path entries with
      | None => Uncaught cout1 cerr
      | Some output_size =>
          Exit 0 (cout1 ++ summary_sizes input_size output_size) cerr
               (Some entries)
      end
  end.

(** Lines 209-255, shared by both variants of [main]: the checks
    between option parsing and the entry loop. [inr] carries the
    block size, both paths, the opened input and the first lines of
    [std::cout]. *)
Definition prepare (E : env) (prog_name : string) (opts : list getopt_ret)
           (positional : list string)
  : run + (Z * string * string * zip_t * list out_item) :=
  match parse_options E prog_name opts 0 with
  | ParseExit code err => inl (Exit code [] err None)
  | ParseDone block_size =>
      match positional with
      | [input_path; output_path] =>
          if (block_size =? 0)%Z then
            inl (Exit 1 []
                      (Str ("Error: --block-size is required" ++ newline)
                       :: print_usage prog_name) None)
          else if negb (fs_exists E input_path) then
            inl (Exit 1 []
                      [Str "Error: Input file does not exist: "; Str input_path;
                       Str newline] None)
          else
            match zip_open_rdonly E input_path with
            | None =>
                inl (Exit 1 []
                          [Str "Error: Failed to open input ZIP: ";
                           Str (open_strerror E); Str newline] None)
            | Some input_zip =>
                if negb (zip_open_create E output_path) then
                  inl (Exit 1 []
                            [Str "Error: Failed to create output ZIP: ";
                             Str (open_strerror E); Str newline] None)
                else
                  inr (block_size, input_path, output_path, input_zip,
                       [Str "Optimizing ZIP file: "; Str input_path; Str newline;
                        Str "Block size: "; Num block_size; Str (" bytes" ++ newline);
                        Str "Output: "; Str output_path; Str (newline ++ newline)])
            end
      | _ =>
          inl (Exit 1 []
                    (Str ("Error: Missing input and/or output ZIP file paths" ++ newline)
                     :: print_usage prog_name) None)
      end
  end.

(** [main] of the streaming tool. [opts] are the results of
    [getopt_long] and [positional] is [argv[optind .. argc)] once it
    has returned -1; [fuel] bounds the reads per source of the
    writer. *)
Definition main (E : env) (fuel : nat) (prog_name : string)
           (opts : list getopt_ret) (positional : list string) : run :=
  match prepare E prog_name opts positional with
  | inl r => r
  | inr (block_size, input_path, output_path, input_zip, cout0) =>
      let cerr0 :=
        if register_progress_ok E then []
        else [Str ("Warning: Failed to register progress callback" ++ newline)] in
      let s := process_entries E input_zip 0 input_zip
                               (mkLoop [] 0 0 cout0 cerr0) in
      match write_pending fuel (chunk E) (output_zip s) with
      | WriteOutOfFuel => RunOutOfFuel
      | Written entries =>
          let '(last_percent, cout1) :=
            if register_progress_ok E
            then fold_left (fun st p => write_progress_cb p st)
                           (progress_percents E) ((-1)%Z, cout s)
            else ((-1)%Z, cout s) in
          if negb (write_ok E) then
            Exit 1 cout1
                 (cerr s ++ [Str ("Error: Failed to finalize output ZIP" ++ newline)])
                 None
          else
            let cout2 :=
              cout1 ++ (if (last_percent <? 100)%Z
                        then [Str ("Writing output: 100%" ++ newline)]
                        else [Str newline]) in
            finish E input_path output_path (files_processed s)
                   (files_decompressed s) block_size cout2 (cerr s) entries
      end
  end.

(** *** The buffering variant of the tool *)

(** The variables its entry loop updates; the output archive holds
    the buffers themselves. *)
Record loop_state_buffered := mkLoopB {
  output_zip_b : list out_entry;
  files_processed_b : Z;
  files_decompressed_b : Z;
  cout_b : list out_item;
  cerr_b : list out_item
}.

(** [zip_file_add] with [ZIP_FL_OVERWRITE] on buffers. *)
Fixpoint zip_file_add_buffer (out : list out_entry) (name : string)
         (data : list ascii) : list out_entry * nat :=
  match out with
  | [] => ([mkOut name data None], 0)
  | p :: out' =>
      if String.eqb (o_name p) name
      then (mkOut name data None :: out', 0)
      else let '(out'', idx) := zip_file_add_buffer out' name data in
           (p :: out'', S idx)
  end.

Definition zip_set_file_compression_buffer (out : list out_entry) (idx : nat)
           (method : Z) : list out_entry :=
  match out !! idx with
  | Some p => <[idx := mkOut (o_name p) (o_content p) (Some method)]> out
  | None => out
  end.

(** The body of the entry loop of the buffering variant. *)
Definition process_entry_buffered (E : env) (input_zip : zip_t) (i : Z)
           (e : zip_entry) (s : loop_state_buffered) : loop_state_buffered :=
  match e_stat e with
  | None =>
      mkLoopB (output_zip_b s) (files_processed_b s) (files_decompressed_b s)
              (cout_b s)
              (cerr_b s ++ [Str "Warning: Failed to stat entry "; Num i; Str newline])
  | Some st =>
      let name := st_name st in
      let name_len := String.length name in
      if (0 <? name_len)%nat && PathSplit.at_ name (name_len - 1) "/"%char
      then s
      else
        let cout1 :=
          cout_b s ++ [Str "Processing: "; Str name; Str " ("; Num (st_size st);
                       Str " bytes)"] in
        let is_compressed :=
          has_flag (st_valid st) ZIP_STAT_COMP_METHOD
          && negb (st_comp_method st =? ZIP_CM_STORE)%Z in
        let cout2 :=
          if is_compressed then cout1 ++ [Str " [compressed -> stored]"] else cout1 in
        let files_decompressed' :=
          if is_compressed then (files_decompressed_b s + 1)%Z
          else files_decompressed_b s in
        let skip (msg : string) :=
          mkLoopB (output_zip_b s) (files_processed_b s) files_decompressed' cout2
                  (cerr_b s ++ [Str (newline ++ msg); Str name; Str newline]) in
        match zip_fopen_index input_zip i with
        | None => skip "Error: Failed to open file in ZIP: "
        | Some zf =>
            let '(bytes_read, data, _) := zip_fread zf (st_size st) in
            if negb (bytes_read =? to_off_t (st_size st))%Z
            then skip "Error: Failed to read complete file: "
            else if negb (source_function_ok E i)
            then skip "Error: Failed to create source for: "
            else if negb (source_owned_ok E i)
            then skip "Error: Failed to create owned source for: "
            else if negb (file_add_ok E i)
            then skip "Error: Failed to add file to output ZIP: "
            else
              let '(out1, idx) := zip_file_add_buffer (output_zip_b s) name data in
              let '(out2, cerr') :=
                if set_compression_ok E i
                then (zip_set_file_compression_buffer out1 idx ZIP_CM_STORE, cerr_b s)
                else (out1,
                      cerr_b s
                      ++ [Str (newline ++ "Warning: Failed to set compression method for: ");
                          Str name; Str newline]) in
              mkLoopB out2 (files_processed_b s + 1)%Z files_decompressed'
                      (cout2 ++ [Str (" " ++ check_mark ++ newline)]) cerr'
        end
  end.

Fixpoint process_entries_buffered (E : env) (input_zip : zip_t) (i : Z)
         (entries : list zip_entry) (s : loop_state_buffered)
  : loop_state_buffered :=
  match entries with
  | [] => s
  | e :: entries' =>
      process_entries_buffered E input_zip (i + 1)%Z entries'
                               (process_entry_buffered E input_zip i e s)
  end.

(** [main] of the buffering variant. *)
Definition main_buffered (E : env) (prog_name : string)
           (opts : list getopt_ret) (positional : list string) : run :=
  match prepare E prog_name opts positional with
  | inl r => r
  | inr (block_size, input_path, output_path, input_zip, cout0) =>
      let s := process_entries_buffered E input_zip 0 input_zip
                                        (mkLoopB [] 0 0 cout0 []) in
      if negb (write_ok E) then
        Exit 1 (cout_b s)
             (cerr_b s ++ [Str ("Error: Failed to finalize output ZIP" ++ newline)])
             None
      else
        finish E input_path output_path (files_processed_b s)
               (files_decompressed_b s) block_size (cout_b s) (cerr_b s)
               (output_zip_b s)
  end.
End Main.

End Optimizer.


(** ** More of the FUSE operations (src/src/utils.cpp, lines 443-471 and
       561-565) *)

(** [zipfs_readdir]: the return value and the names handed to [filler],
    in order: [.], [..], the sub-directories, the files. The order inside
    the two groups is the iteration order of [std::unordered_map], which
    C++ leaves open; [map_to_list] stands for it. What [filler] returns is
    not looked at by the code. *)
Definition zipfs_readdir (m : ZipEntryManagerImpl) (path : string)
  : Z * list string :=
  match lookup_dir m path with
  | None => ((- ENOENT)%Z, [])
  | Some dir =>
      (0%Z,
       (["."; ".."] ++ map fst (map_to_list (dirs_ dir))
                    ++ map fst (map_to_list (files_ dir)))%list)
  end.

(** [zipfs_release]. *)
Definition zipfs_release (path : string) : Z := 0%Z.

(** ** The mount tool (src/src/main.cpp) *)

Module Mount.

(** The outside world of one run of the mount tool. *)
Record env := mkEnv {
  (** [std::filesystem::exists], [is_directory], [is_regular_file] and
      [absolute]. *)
  fs_exists : string -> bool;
  is_directory : string -> bool;
  is_regular_file : string -> bool;
  absolute : string -> string;
  (** [zip_open(path, ZIP_RDONLY)] inside [index_zipfile]. *)
  zip_open : string -> option zip_t;
  (** What [fuse_main] returns for the arguments and the index it is
      given. *)
  fuse_main : list string -> ZipEntryManagerImpl -> Z
}.

(** How a run ends: the diagnostic that was printed, or the hand-over to
    FUSE with its arguments and the index. *)
Inductive outcome :=
| Usage
| UnexpectedArgument (arg : string)
| NeedArchiveAndMountPoint
| MountPointMissing (mount_point : string)
| MountPointNotDirectory (mount_point : string)
| ArchiveMissing (zip_file : string)
| ArchiveNotRegular (zip_file : string)
| IndexingFailed (zip_file : string)
| Mounted (fuse_args : list string) (m : ZipEntryManagerImpl).

(** [for (int i = 1; i < argc; i++)], lines 46-61: an argument that
    begins with [-] goes to FUSE and ends the list of files; any other
    argument is a file as long as no option was seen. [inl arg] is the
    early [return 1] on [arg]. *)
Fixpoint scan (args : list string) (parsing_files : bool)
         (zip_files fuse_args : list string)
  : string + (list string * list string) :=
  match args with
  | [] => inr (zip_files, fuse_args)
  | arg :: rest =>
      if PathSplit.at_ arg 0 "-"%char
      then scan rest false zip_files (fuse_args ++ [arg])%list
      else if parsing_files
           then scan rest parsing_files (zip_files ++ [arg])%list fuse_args
           else inl arg
  end.

(** [for (const auto& zip_file : zip_files)], lines 88-105. *)
Fixpoint index_all (E : env) (zip_files : list string) (m : ZipEntryManagerImpl)
  : outcome + ZipEntryManagerImpl :=
  match zip_files with
  | [] => inr m
  | zip_file :: rest =>
      if negb (fs_exists E zip_file) then inl (ArchiveMissing zip_file)
      else if negb (is_regular_file E zip_file) then inl (ArchiveNotRegular zip_file)
      else
        match index_zipfile m (absolute E zip_file) (zip_open E (absolute E zip_file)) with
        | None => inl (IndexingFailed zip_file)
        | Some (m', _) => index_all E rest m'
        end
  end.

(** [main]: the exit code and how the run ended. [argv] is the whole
    argument vector, program name first; the index starts as the fresh
    singleton. *)
Definition main (E : env) (argv : list string) : Z * outcome :=
  if (length argv <? 3)%nat then (1%Z, Usage)
  else
    match argv with
    | [] => (1%Z, Usage)
    | prog_name :: args =>
        match scan args true [] [prog_name] with
        | inl arg => (1%Z, UnexpectedArgument arg)
        | inr (zip_files, fuse_args) =>
            if (length zip_files <? 2)%nat then (1%Z, NeedArchiveAndMountPoint)
            else
              let mount_point := List.last zip_files "" in
              let zip_files := removelast zip_files in
              if negb (fs_exists E mount_point)
              then (1%Z, MountPointMissing mount_point)
              else if negb (is_directory E mount_point)
              then (1%Z, MountPointNotDirectory mount_point)
              else
                match index_all E zip_files new_manager with
                | inl o => (1%Z, o)
                | inr m =>
                    let fuse_args :=
                      (fuse_args ++ [mount_point; "-o"; "ro,default_permissions"])%list in
                    (fuse_main E fuse_args m, Mounted fuse_args m)
                end
        end
    end.

End Mount.

(** ** Predicates used in the statements *)

Open Scope list_scope.

(** A retained segment is well formed for [path]: non-empty, inside the
    path, and its bytes are neither [.] nor [..]. *)
Definition good_segment (path : string) (seg : nat * nat) : Prop :=
  fst seg < snd seg /\ snd seg <= String.length path
  /\ PathSplit.seg_name path seg <> ""
  /\ PathSplit.seg_name path seg <> "."
  /\ PathSplit.seg_name path seg <> "..".

(** The invariant of the loop of [PathSplit] at index [i]. *)
Definition loop_inv (pathptr : string) (i : nat) (st : PathSplit.locals) : Prop :=
  PathSplit.seg_start st <= i
  /\ Forall (good_segment pathptr) (PathSplit.segments_ st).

(** A second invariant of the loop: a segment starts at the beginning of
    the path or right after a separator. *)
Definition start_inv (pathptr : string) (st : PathSplit.locals) : Prop :=
  PathSplit.seg_start st = 0
  \/ PathSplit.at_ pathptr (PathSplit.seg_start st - 1) "/"%char = true.

(** Following directory names from a directory. *)
Fixpoint walk_dirs (names : list string) (d : DirectoryEntry)
  : option DirectoryEntry :=
  match names with
  | [] => Some d
  | n :: rest =>
      match find_dir d n with
      | Some c => walk_dirs rest c
      | None => None
      end
  end.

(** The file [fname] in the directory reached through [dirs]. *)
Fixpoint file_at (dirs : list string) (fname : string) (d : DirectoryEntry)
  : option FileEntry :=
  match dirs with
  | [] => find_file d fname
  | n :: rest =>
      match find_dir d n with
      | Some c => file_at rest fname c
      | None => None
      end
  end.

(** Insertion of a file record below [d]: the directories [dirs] are found
    or created, the file goes in unless the name is taken. *)
Fixpoint insert_at (dirs : list string) (fname : string) (fe : FileEntry)
         (d : DirectoryEntry) : DirectoryEntry * bool :=
  match dirs with
  | [] =>
      match files_ d !! fname with
      | Some _ => (d, false)
      | None => (mkDir (dirs_ d) (<[fname := fe]> (files_ d)), true)
      end
  | n :: rest =>
      let child := match dirs_ d !! n with Some c => c | None => empty_dir end in
      let '(child', inserted) := insert_at rest fname fe child in
      (mkDir (<[n := child']> (dirs_ d)) (files_ d), inserted)
  end.

(** A non-empty list as its front and its last element. *)
Fixpoint split_last (l : list string) : option (list string * string) :=
  match l with
  | [] => None
  | x :: r =>
      match split_last r with
      | None => Some ([], x)
      | Some (front, y) => Some (x :: front, y)
      end
  end.

(** The directory names and the file name a path stands for, when it is
    file shaped: not empty, not marked as a directory by the normaliser. *)
Definition file_path (path : string) : option (list string * string) :=
  if (String.length path =? 0)%nat then None
  else if PathSplit.is_dir (PathSplit.of_string path) then None
  else split_last (PathSplit.names path).

(** The entry is one that [index_zipfile] indexes as a file: its
    [zip_stat] and the place it goes to. *)
Definition entry_path (e : zip_entry) : option (zip_stat * list string * string) :=
  match e_stat e with
  | None => None
  | Some st =>
      if has_flag (st_valid st) ZIP_STAT_NAME && has_flag (st_valid st) ZIP_STAT_SIZE
      then match file_path (st_name st) with
           | Some (ds, f) => Some (st, ds, f)
           | None => None
           end
      else None
  end.

(** The attributes [zipfs_getattr] reports for a directory. *)
Definition dir_attr : stat_buf := mkStatBuf (Z.lor S_IFDIR 365) 2 4096.

(** ** Sample data *)

(** A stored entry with all of its metadata valid. *)
Definition stored_entry (name : string) (data : list ascii) : zip_entry :=
  mkEntry (Some (mkStat 127 name (Z.of_nat (length data)) (Z.of_nat (length data))
                        0 ZIP_CM_STORE))
          data.

(** A deflated entry (compression method 8) with all of its metadata
    valid. *)
Definition deflated_entry (name : string) (data : list ascii) (comp_size : Z)
  : zip_entry :=
  mkEntry (Some (mkStat 127 name (Z.of_nat (length data)) comp_size 0 8)) data.

(** The archives of the precedence test: [x/y.txt] holding ["1"] and
    ["2"]. *)
Definition archive_A : zip_t := [stored_entry "x/y.txt" ["1"%char]].
Definition archive_B : zip_t := [stored_entry "x/y.txt" ["2"%char]].

(** The manager after indexing one archive that opens. *)
Definition indexed (m : ZipEntryManagerImpl) (abs_path : string) (za : zip_t)
  : ZipEntryManagerImpl :=
  match index_zipfile m abs_path (Some za) with
  | Some (m', _) => m'
  | None => m
  end.

(** An archive with one stored file [f] of ten bytes, and the index and
    the disk that hold it. *)
Definition ten_bytes : list ascii := list_ascii_of_string "0123456789".
Definition archive_F : zip_t := [stored_entry "f" ten_bytes].
Definition manager_F : ZipEntryManagerImpl := indexed new_manager "/F.zip" archive_F.
Definition disk_F (path : string) : option zip_t :=
  if String.eqb path "/F.zip" then Some archive_F else None.

(** An archive whose entry [f] declares ten bytes and holds twelve, and
    the index and the disk that hold it. *)
Definition archive_L : zip_t :=
  [mkEntry (Some (mkStat 127 "f" 10 10 0 ZIP_CM_STORE))
           (list_ascii_of_string "0123456789AB")].
Definition manager_L : ZipEntryManagerImpl := indexed new_manager "/L.zip" archive_L.
Definition disk_L (path : string) : option zip_t :=
  if String.eqb path "/L.zip" then Some archive_L else None.

(** ** Predicates on runs of the rewrite tool *)

(** [v] is a power of two. *)
Definition is_pow2 (v : Z) : Prop := exists k : Z, (0 <= k)%Z /\ v = (2 ^ k)%Z.

(** [std::stoull] answers an [unsigned long long]. *)
Definition stoull_in_range (E : Optimizer.env) : Prop :=
  forall (s : string) (v : Z), Optimizer.stoull E s = Some v -> (0 <= v < two64)%Z.

(** An option the option loop goes past: [--block-size] with a value that
    parses to a power of two. *)
Definition good_block_size (E : Optimizer.env) (o : Optimizer.getopt_ret) : Prop :=
  exists (optarg : string) (v : Z),
    o = Optimizer.opt_b optarg /\ Optimizer.stoull E optarg = Some v /\ is_pow2 v.

(** The exit code of a run. *)
Definition exit_code (r : Optimizer.run) : option Z :=
  match r with
  | Optimizer.Exit code _ _ _ => Some code
  | Optimizer.Uncaught _ _ => None
  | Optimizer.RunOutOfFuel => None
  end.

(** [std::cout] holds the label [s] followed by the number [n]. *)
Definition prints (s : string) (n : Z) (cout : list Optimizer.out_item) : Prop :=
  exists pre post, cout = pre ++ Optimizer.Str s :: Optimizer.Num n :: post.

(** [std::cout] holds a percentage. *)
Definition prints_percentage (cout : list Optimizer.out_item) : Prop :=
  exists d b, In (Optimizer.Pct d b) cout.

Definition is_pct (it : Optimizer.out_item) : bool :=
  match it with
  | Optimizer.Pct _ _ => true
  | _ => false
  end.

(** [std::filesystem::file_size] answers a [uintmax_t]. *)
Definition file_size_in_range (E : Optimizer.env) : Prop :=
  forall (p : string) (n : Z), Optimizer.file_size E p = Some n -> (0 <= n < two64)%Z.

(** The entry is one the rewrite tool tries to add: its [zip_stat] works
    and the name is not a directory's. *)
Definition is_file_entry (e : zip_entry) : bool :=
  match e_stat e with
  | None => false
  | Some st =>
      negb ((0 <? String.length (st_name st))%nat
            && PathSplit.at_ (st_name st) (String.length (st_name st) - 1) "/"%char)
  end.

(** The entry is one the rewrite tool counts as decompressed: its
    [zip_stat] works, the name is not a directory's, and the compression
    method is valid and not "stored". *)
Definition counts_as_decompressed (e : zip_entry) : bool :=
  match e_stat e with
  | None => false
  | Some st =>
      negb ((0 <? String.length (st_name st))%nat
            && PathSplit.at_ (st_name st) (String.length (st_name st) - 1) "/"%char)
      && has_flag (st_valid st) ZIP_STAT_COMP_METHOD
      && negb (st_comp_method st =? ZIP_CM_STORE)%Z
  end.

(** The number of entries of an archive that satisfy [f]. *)
Definition count_entries (f : zip_entry -> bool) (za : list zip_entry) : Z :=
  Z.of_nat (length (List.filter f za)).

(** The number of entries that satisfy [f] at their position, the first
    entry being at position [i]. *)
Fixpoint count_from (f : Z -> zip_entry -> bool) (i : Z) (za : list zip_entry) : Z :=
  match za with
  | [] => 0%Z
  | e :: za' => ((if f i e then 1 else 0) + count_from f (i + 1) za')%Z
  end.

(** Entry [i] is a file entry that libzip takes from the streaming tool:
    [zip_source_function] and [zip_file_add] succeed for it. *)
Definition added (E : Optimizer.env) (i : Z) (e : zip_entry) : bool :=
  is_file_entry e && Optimizer.source_function_ok E i && Optimizer.file_add_ok E i.

(** The buffering variant reads entry [i] of [za] whole: the entry opens
    and [zip_fread] answers the declared size. *)
Definition read_whole {C : Codec} (za : zip_t) (i : Z) (e : zip_entry) : bool :=
  match e_stat e, zip_fopen_index za i with
  | Some st, Some zf => ((zip_fread zf (st_size st)).1.1 =? to_off_t (st_size st))%Z
  | _, _ => false
  end.

(** Entry [i] is a file entry that the buffering variant reads whole and
    libzip takes. *)
Definition added_buffered {C : Codec} (E : Optimizer.env) (za : zip_t) (i : Z)
           (e : zip_entry) : bool :=
  is_file_entry e && read_whole za i e
  && Optimizer.source_function_ok E i && Optimizer.source_owned_ok E i
  && Optimizer.file_add_ok E i.

(** [std::cout] ends with a summary: after the line [Optimization
    complete!] come the labelled numbers, files processed [processed],
    files decompressed [decompressed], block size [block_size], input
    size [input_size] and output size [output_size]; a percentage is on
    [std::cout] exactly when the output is larger than the input, and it
    is the increase over the input size. *)
Definition summary_shows (processed decompressed block_size input_size output_size : Z)
           (cout : list Optimizer.out_item) : Prop :=
  exists pre s,
    cout = pre ++ Optimizer.Str ("Optimization complete!" ++ Optimizer.newline) :: s
    /\ prints "Files processed: " processed s
    /\ prints "Files decompressed: " decompressed s
    /\ prints "Block size: " block_size s
    /\ prints "Input size: " input_size s
    /\ prints "Output size: " output_size s
    /\ (prints_percentage cout <-> (output_size > input_size)%Z)
    /\ (forall d b, In (Optimizer.Pct d b) cout ->
                    d = (output_size - input_size)%Z /\ b = input_size).

(** The summary of a run with the options [opts] and the positional
    arguments [positional], where [processed] counts the entries of the
    input that reach the output: the input is the first path and opens,
    the block size is the value of the last [--block-size], both file
    sizes can be read, and the summary shows these numbers. *)
Definition summary_printed (E : Optimizer.env) (opts : list Optimizer.getopt_ret)
           (positional : list string) (processed : zip_t -> Z)
           (cout : list Optimizer.out_item) : Prop :=
  exists (input_path output_path optarg : string) (za : zip_t)
         (block_size input_size output_size : Z),
    positional = [input_path; output_path]
    /\ Optimizer.zip_open_rdonly E input_path = Some za
    /\ last opts = Some (Optimizer.opt_b optarg)
    /\ Optimizer.stoull E optarg = Some block_size
    /\ Optimizer.file_size E input_path = Some input_size
    /\ Optimizer.file_size E output_path = Some output_size
    /\ summary_shows (processed za) (count_entries counts_as_decompressed za)
                     block_size input_size output_size cout.

(** The usage text of the rewrite tool, as its help shows it. *)
Definition usage_text (prog_name : string) : list Optimizer.out_item :=
  [Optimizer.Str "Usage: "; Optimizer.Str prog_name;
   Optimizer.Str (" --block-size SIZE input.zip output.zip" ++ Optimizer.newline);
   Optimizer.Str Optimizer.newline;
   Optimizer.Str ("Optimize ZIP files for high-performance access by:"
                  ++ Optimizer.newline);
   Optimizer.Str ("  - Decompressing all files (store mode)" ++ Optimizer.newline);
   Optimizer.Str ("  - Aligning file data to block boundaries" ++ Optimizer.newline);
   Optimizer.Str Optimizer.newline;
   Optimizer.Str ("Options:" ++ Optimizer.newline);
   Optimizer.Str ("  --block-size SIZE    Block size for alignment (e.g., 512, 4096)"
                  ++ Optimizer.newline);
   Optimizer.Str ("  -h, --help           Show this help message" ++ Optimizer.newline);
   Optimizer.Str Optimizer.newline;
   Optimizer.Str ("Example:" ++ Optimizer.newline);
   Optimizer.Str "  "; Optimizer.Str prog_name;
   Optimizer.Str (" --block-size 4096 input.zip output.zip" ++ Optimizer.newline);
   Optimizer.Str Optimizer.newline].

(** What a run put on [std::cout]. *)
Definition run_cout (r : Optimizer.run) : list Optimizer.out_item :=
  match r with
  | Optimizer.Exit _ cout _ _ => cout
  | Optimizer.Uncaught cout _ => cout
  | Optimizer.RunOutOfFuel => []
  end.

(** The output archive a run wrote. *)
Definition run_written (r : Optimizer.run) : option (list Optimizer.out_entry) :=
  match r with
  | Optimizer.Exit _ _ _ written => written
  | Optimizer.Uncaught _ _ => None
  | Optimizer.RunOutOfFuel => None
  end.

(** [std::stoull] in base 10, as the C++ library defines it through
    [strtoull]: white space is skipped, a sign may follow, then the
    longest run of digits is the number and what comes after it is
    ignored. It throws when there is no digit or the number does not fit
    an [unsigned long long]; a [-] negates in unsigned arithmetic. *)
Definition is_space (c : ascii) : bool :=
  (nat_of_ascii c =? 32)%nat
  || ((9 <=? nat_of_ascii c)%nat && (nat_of_ascii c <=? 13)%nat).

Definition digit_of (c : ascii) : option Z :=
  if (48 <=? nat_of_ascii c)%nat && (nat_of_ascii c <=? 57)%nat
  then Some (Z.of_nat (nat_of_ascii c - 48))
  else None.

Fixpoint skip_spaces (s : string) : string :=
  match s with
  | String c s' => if is_space c then skip_spaces s' else s
  | EmptyString => s
  end.

Fixpoint leading_digits (s : string) (acc : Z) : Z :=
  match s with
  | String c s' =>
      match digit_of c with
      | Some d => leading_digits s' (10 * acc + d)%Z
      | None => acc
      end
  | EmptyString => acc
  end.

Definition sample_stoull (s : string) : option Z :=
  let s1 := skip_spaces s in
  let '(negative, s2) :=
    match s1 with
    | String "-"%char t => (true, t)
    | String "+"%char t => (false, t)
    | _ => (false, s1)
    end in
  match s2 with
  | String c _ =>
      match digit_of c with
      | None => None
      | Some _ =>
          let v := leading_digits s2 0 in
          if (v <? two64)%Z
          then Some (if negative then ((two64 - v) mod two64)%Z else v)
          else None
      end
  | EmptyString => None
  end.

(** A sample world: [in.zip] exists and holds [za], every libzip call
    succeeds, and the files have the given sizes after the run. *)
Definition sample_env (za : zip_t) (input_size output_size : Z) : Optimizer.env :=
  Optimizer.mkEnv
    sample_stoull
    (fun p => String.eqb p "in.zip")
    (fun p => if String.eqb p "in.zip" then Some za else None)
    (fun _ => true)
    "No such file"
    true
    (fun _ => true) (fun _ => true) (fun _ => true)
    [0%Z; 50%Z; 100%Z]
    true
    (fun _ => true)
    8192%Z
    (fun p => Some (if String.eqb p "in.zip" then input_size else output_size)).

(** An input archive that is already entirely in stored form: a directory
    entry and two files. *)
Definition archive_stored : zip_t :=
  [stored_entry "d/" [];
   stored_entry "d/a.txt" (list_ascii_of_string "alpha");
   stored_entry "b.bin" (list_ascii_of_string "0123456789")].

(** An input archive with one deflated file, and a world in which its
    rewrite is larger (130 bytes) than the input (120 bytes). *)
Definition archive_deflated : zip_t :=
  [deflated_entry "a.txt" (list_ascii_of_string "aaaaaaaaaa") 4].
Definition env_increase : Optimizer.env := sample_env archive_deflated 120 130.

(** An input archive in stored form that holds directory entries only. *)
Definition archive_dirs : zip_t :=
  [stored_entry "d/" []; stored_entry "d/e/" []].

(** Every entry of the archive is in stored form. *)
Definition all_stored (za : zip_t) : Prop :=
  Forall (fun e => forall st, e_stat e = Some st -> st_comp_method st = ZIP_CM_STORE) za.

(** The name is not one of a directory entry (it does not end in [/]). *)
Definition file_name (name : string) : Prop :=
  (0 <? String.length name)%nat
  && PathSplit.at_ name (String.length name - 1) "/"%char = false.

(** A pending entry of the output archive is bound to an entry of the
    input archive [za] of the same name, and its source is not open. *)
Definition pending_ok {C : Codec} (za : zip_t) (p : Optimizer.pending) : Prop :=
  exists (k : nat) (e : zip_entry) (st : zip_stat),
    Optimizer.input_zip (Optimizer.p_source p) = za
    /\ Optimizer.index (Optimizer.p_source p) = Z.of_nat k
    /\ Optimizer.file (Optimizer.p_source p) = None
    /\ za !! k = Some e /\ e_stat e = Some st
    /\ st_name st = Optimizer.p_name p.

(** A written entry holds the payload of an entry of the input archive
    [za] of the same name. *)
Definition copied_from (za : zip_t) (o : Optimizer.out_entry) : Prop :=
  exists (k : nat) (e : zip_entry) (st : zip_stat),
    za !! k = Some e /\ e_stat e = Some st
    /\ st_name st = Optimizer.o_name o
    /\ Optimizer.o_content o = e_data e.

(** [zip_source_function] and [zip_file_add] succeed for every entry. *)
Definition adds_succeed (E : Optimizer.env) : Prop :=
  forall i : Z, Optimizer.source_function_ok E i = true
                /\ Optimizer.file_add_ok E i = true.

(** ** Predicates of the further properties *)

(** A segment is a whole component of [path]: no separator inside, and a
    separator or an end of the path on both sides. *)
Definition delimited (path : string) (seg : nat * nat) : Prop :=
  (forall k, fst seg <= k < snd seg -> PathSplit.at_ path k "/"%char = false)
  /\ (fst seg = 0 \/ PathSplit.at_ path (fst seg - 1) "/"%char = true)
  /\ (snd seg = String.length path \/ PathSplit.at_ path (snd seg) "/"%char = true).

(** Segments come in the order of the path and do not touch. *)
Definition increasing (segs : list (nat * nat)) : Prop :=
  forall i j a b, i < j -> segs !! i = Some a -> segs !! j = Some b -> snd a < fst b.

(** The invariant of the retained segments when the current one starts at
    [ss]. *)
Definition segs_inv (path : string) (ss : nat) (segs : list (nat * nat)) : Prop :=
  Forall (delimited path) segs
  /\ Forall (fun seg => snd seg < ss) segs
  /\ increasing segs.

(** The invariant of the current run of the loop at index [i]. *)
Definition run_inv (path : string) (i : nat) (st : PathSplit.locals) : Prop :=
  start_inv path st
  /\ PathSplit.seg_start st <= i
  /\ (forall k, PathSplit.seg_start st <= k < i -> PathSplit.at_ path k "/"%char = false).

(** The locals of the loop on [/p], seen from the loop on [p]. *)
Definition shift_seg (seg : nat * nat) : nat * nat := (S (fst seg), S (snd seg)).

Definition shift_locals (st : PathSplit.locals) : PathSplit.locals :=
  PathSplit.mkLocals (S (PathSplit.seg_start st))
                     (map shift_seg (PathSplit.segments_ st))
                     (PathSplit.last_was_dots st).

(** An entry that [index_zipfile] passes over: its [zip_stat] failed, the
    name or the size is not valid, the name is empty, or the normaliser
    marks the name as a directory (as for every name that ends in [/]). *)
Definition passed_over (e : zip_entry) : Prop :=
  match e_stat e with
  | None => True
  | Some st =>
      has_flag (st_valid st) ZIP_STAT_NAME = false
      \/ has_flag (st_valid st) ZIP_STAT_SIZE = false
      \/ st_name st = ""
      \/ PathSplit.is_dir (PathSplit.of_string (st_name st)) = true
  end.

(** Every record of the index points at a registered archive path, and
    never at slot 0, which holds the name of the root. *)
Definition index_ok (m : ZipEntryManagerImpl) : Prop :=
  1 <= length (zip_path_lst_ m)
  /\ forall (ds : list string) (f : string) (x : FileEntry),
      file_at ds f (root_ m) = Some x ->
      1 <= zip_path_idx_ x < length (zip_path_lst_ m).

(** The managers the mount tool can build: the fresh one, and what
    [index_zipfile] makes of a built one and an archive that opens. *)
Inductive built : ZipEntryManagerImpl -> Prop :=
| built_new : built new_manager
| built_index (m m' : ZipEntryManagerImpl) (abs_path : string) (za : zip_t)
              (s : index_stats) :
    built m -> index_zipfile m abs_path (Some za) = Some (m', s) -> built m'.

(** The attributes [zipfs_getattr] reports for a file of [size] bytes. *)
Definition file_attr (size : Z) : stat_buf := mkStatBuf (Z.lor S_IFREG 292) 1 size.

(** An archive with a directory entry, a file below it and a file whose
    metadata lacks the size. *)
Definition archive_D : zip_t :=
  [stored_entry "d/" [];
   stored_entry "d/e/f.txt" (list_ascii_of_string "file");
   mkEntry (Some (mkStat 1 "nosize" 0 0 0 0)) []].

(** An archive whose second entry has no valid compressed size. *)
Definition archive_N : zip_t :=
  [stored_entry "a" (list_ascii_of_string "AAAA");
   mkEntry (Some (mkStat 5 "b" 4 0 0 ZIP_CM_STORE)) (list_ascii_of_string "BBBB")].

(** The bytes a read put into the buffer. *)
Definition read_buf (r : read_result) : list ascii :=
  match r with
  | ReadReturn _ buf => buf
  | _ => []
  end.

(** [zip_set_file_compression] succeeds for every entry. *)
Definition marks_succeed (E : Optimizer.env) : Prop :=
  forall i : Z, Optimizer.set_compression_ok E i = true.

(** An input archive with a deflated file, a stored file and a directory
    entry. *)
Definition archive_mixed : zip_t :=
  [deflated_entry "big.txt" (list_ascii_of_string "aaaaaaaaaaaaaaaa") 5;
   stored_entry "dir/" [];
   stored_entry "dir/small.txt" (list_ascii_of_string "s")].

(** A world in which libzip refuses to add any entry. *)
Definition refusing_env (za : zip_t) : Optimizer.env :=
  Optimizer.mkEnv
    sample_stoull
    (fun p => String.eqb p "in.zip")
    (fun p => if String.eqb p "in.zip" then Some za else None)
    (fun _ => true)
    "No such file"
    true
    (fun _ => true) (fun _ => false) (fun _ => true)
    []
    true
    (fun _ => true)
    8192%Z
    (fun _ => Some 100%Z).



(** A file entry whose payload is two bytes shorter than declared, and one
    whose payload is two bytes longer. *)
Definition short_entry : zip_entry :=
  mkEntry (Some (mkStat 127 "short" 6 6 0 ZIP_CM_STORE)) (list_ascii_of_string "abcd").
Definition long_entry : zip_entry :=
  mkEntry (Some (mkStat 127 "long" 2 2 0 ZIP_CM_STORE)) (list_ascii_of_string "abcd").

(** The argument is an option for FUSE: it begins with [-]. *)
Definition is_option (arg : string) : bool := PathSplit.at_ arg 0 "-"%char.

(** A sample world of the mount tool: [/mnt] is a directory, [a.zip] and
    [b.zip] are the archives of the precedence test, and [fuse_main]
    answers 0. *)
Definition mount_env : Mount.env :=
  Mount.mkEnv
    (fun p => String.eqb p "/mnt" || String.eqb p "a.zip" || String.eqb p "b.zip")
    (fun p => String.eqb p "/mnt")
    (fun p => String.eqb p "a.zip" || String.eqb p "b.zip")
    (fun p => String.append "/cwd/" p)
    (fun p => if String.eqb p "/cwd/a.zip" then Some archive_A
              else if String.eqb p "/cwd/b.zip" then Some archive_B else None)
    (fun _ _ => 0%Z).

(** The archives of the sample world, by name. *)
Definition mount_archives (p : string) : zip_t :=
  if String.eqb p "a.zip" then archive_A else archive_B.

(** The declared size of the entry is the length of its payload, and fits
    [zip_int64_t]. *)
Definition size_honest (e : zip_entry) : bool :=
  match e_stat e with
  | None => true
  | Some st =>
      (st_size st =? Z.of_nat (length (e_data e)))%Z && (st_size st <? 2 ^ 63)%Z
  end.

(** A pending entry of the streaming tool and an entry of the buffering
    variant stand for the same output entry: the same name and method,
    and the buffer holds the payload of the input entry the source is
    bound to. *)
Definition same_entry {C : Codec} (za : zip_t) (p : Optimizer.pending)
           (o : Optimizer.out_entry) : Prop :=
  Optimizer.p_name p = Optimizer.o_name o
  /\ Optimizer.p_method p = Optimizer.o_method o
  /\ exists (k : nat) (e : zip_entry),
      za !! k = Some e
      /\ Optimizer.input_zip (Optimizer.p_source p) = za
      /\ Optimizer.index (Optimizer.p_source p) = Z.of_nat k
      /\ Optimizer.o_content o = e_data e.

(** The entry loops of the two variants are in step. *)
Definition in_step {C : Codec} (za : zip_t) (s : Optimizer.loop_state)
           (sb : Optimizer.loop_state_buffered) : Prop :=
  Forall2 (same_entry za) (Optimizer.output_zip s) (Optimizer.output_zip_b sb)
  /\ Optimizer.files_processed s = Optimizer.files_processed_b sb
  /\ Optimizer.files_decompressed s = Optimizer.files_decompressed_b sb.

(** The numbers of the progress lines in what went to [std::cout]. *)
Definition progress_numbers (items : list Optimizer.out_item) : list Z :=
  omap (fun it => match it with Optimizer.Num n => Some n | _ => None end) items.

(** No number of the list equals the one before it; [prev] stands before
    the first. *)
Fixpoint no_repeat (prev : Z) (l : list Z) : Prop :=
  match l with
  | [] => True
  | p :: l' => p <> prev /\ no_repeat p l'
  end.

(** * Facts *)

(** ** Strings *)

Lemma length_substring (s : string) : forall n m,
  n + m <= String.length s -> String.length (substring n m s) = m.
Proof.
  induction s as [|c s IH]; intros n m H; simpl in *.
  - destruct n, m; simpl in *; try reflexivity; lia.
  - destruct n as [|n].
    + destruct m as [|m]; simpl; [reflexivity|].
      f_equal. apply IH. lia.
    + apply IH. lia.
Qed.

Lemma at_substring (s : string) (n m p : nat) (c : ascii) :
  p < m -> String.get p (substring n m s) = Some c -> PathSplit.at_ s (p + n) c = true.
Proof.
  intros Hp Hget. unfold PathSplit.at_.
  rewrite <- (substring_correct1 s n m p Hp), Hget.
  destruct (ascii_dec c c); congruence.
Qed.

(** ** PathSplit *)

Section PathSplitLoop.
Variable pathptr : string.

Local Abbreviation pathlen := (String.length pathptr).

Lemma good_removelast (l : list (nat * nat)) :
  Forall (good_segment pathptr) l -> Forall (good_segment pathptr) (removelast l).
Proof.
  induction 1 as [|x l Hx Hl IH]; simpl; [constructor|].
  destruct l; [constructor|]. constructor; assumption.
Qed.

Lemma name_dot (a b : nat) :
  a < b -> b <= pathlen -> PathSplit.seg_name pathptr (a, b) = "." ->
  b - a = 1 /\ PathSplit.at_ pathptr a "."%char = true.
Proof.
  intros Hab Hb Hn. unfold PathSplit.seg_name in Hn; simpl in Hn.
  assert (Hlen : b - a = 1).
  { rewrite <- (length_substring pathptr a (b - a)) by lia. now rewrite Hn. }
  split; [assumption|].
  apply (at_substring pathptr a (b - a) 0); [lia|]. now rewrite Hn.
Qed.

Lemma name_dotdot (a b : nat) :
  a < b -> b <= pathlen -> PathSplit.seg_name pathptr (a, b) = ".." ->
  b - a = 2 /\ PathSplit.at_ pathptr a "."%char = true
  /\ PathSplit.at_ pathptr (a + 1) "."%char = true.
Proof.
  intros Hab Hb Hn. unfold PathSplit.seg_name in Hn; simpl in Hn.
  assert (Hlen : b - a = 2).
  { rewrite <- (length_substring pathptr a (b - a)) by lia. now rewrite Hn. }
  split; [assumption|]. split.
  - apply (at_substring pathptr a (b - a) 0); [lia|]. now rewrite Hn.
  - replace (a + 1) with (1 + a) by lia.
    apply (at_substring pathptr a (b - a) 1); [lia|]. now rewrite Hn.
Qed.

Lemma name_nonempty (a b : nat) :
  a < b -> b <= pathlen -> PathSplit.seg_name pathptr (a, b) <> "".
Proof.
  intros Hab Hb Hn. unfold PathSplit.seg_name in Hn; simpl in Hn.
  assert (Hlen : String.length (substring a (b - a) pathptr) = b - a)
    by (apply length_substring; lia).
  rewrite Hn in Hlen. simpl in Hlen. lia.
Qed.

Lemma body_inv (i : nat) (st : PathSplit.locals) :
  i <= pathlen -> loop_inv pathptr i st ->
  loop_inv pathptr (S i) (PathSplit.body pathptr pathlen i st).
Proof.
  intros Hi [Hs Hg]. unfold PathSplit.body.
  destruct ((i =? pathlen)%nat || PathSplit.at_ pathptr i "/"%char).
  2:{ split; [lia|assumption]. }
  destruct (i - PathSplit.seg_start st =? 0)%nat eqn:E0.
  { split; simpl; [lia|assumption]. }
  apply Nat.eqb_neq in E0.
  destruct ((i - PathSplit.seg_start st =? 1)%nat
            && PathSplit.at_ pathptr (PathSplit.seg_start st) "."%char) eqn:E1.
  { split; simpl; [lia|assumption]. }
  destruct ((i - PathSplit.seg_start st =? 2)%nat
            && PathSplit.at_ pathptr (PathSplit.seg_start st) "."%char
            && PathSplit.at_ pathptr (PathSplit.seg_start st + 1) "."%char) eqn:E2.
  { split; simpl; [lia|].
    destruct (PathSplit.segments_ st) eqn:El; [constructor|].
    rewrite <- El in *. now apply good_removelast. }
  split; simpl; [lia|].
  apply Forall_app. split; [assumption|]. constructor; [|constructor].
  assert (Hlt : PathSplit.seg_start st < i) by lia.
  unfold good_segment; simpl. repeat split; try lia.
  - now apply name_nonempty.
  - intros Hn. destruct (name_dot _ _ Hlt Hi Hn) as [Hl Ha].
    rewrite Hl, Ha in E1. discriminate.
  - intros Hn. destruct (name_dotdot _ _ Hlt Hi Hn) as [Hl [Ha Hb]].
    rewrite Hl, Ha, Hb in E2. discriminate.
Qed.

Lemma loop_keeps_inv (n : nat) : forall i st,
  i + n <= S pathlen -> loop_inv pathptr i st ->
  loop_inv pathptr (i + n) (PathSplit.loop pathptr pathlen n i st).
Proof.
  induction n as [|n IH]; intros i st Hi Hinv; simpl.
  - now rewrite Nat.add_0_r.
  - replace (i + S n) with (S i + n) by lia.
    apply IH; [lia|]. apply body_inv; [lia|assumption].
Qed.

(** The segment bounds stay inside the path, so the [size_t]
    subtraction [seg_end - seg_start] never wraps. *)
Lemma PathSplit_loop_bounds :
  loop_inv pathptr (S pathlen)
           (PathSplit.loop pathptr pathlen (S pathlen) 0 (PathSplit.mkLocals 0 [] false)).
Proof.
  apply (loop_keeps_inv (S pathlen) 0); [lia|].
  split; simpl; [lia|constructor].
Qed.
End PathSplitLoop.

(** C3: the four reference behaviours of the normaliser, as asserted by
    tests/test_pathsplit.cpp: the empty path gives no component and is not
    a directory; [..] and [a/..] give no component and are directories;
    [../b] gives the single component (3,4) and is not a directory. *)
Theorem PathSplit_reference_behaviors :
  PathSplit.of_string "" = PathSplit.mk [] false
  /\ PathSplit.of_string ".." = PathSplit.mk [] true
  /\ PathSplit.of_string "a/.." = PathSplit.mk [] true
  /\ PathSplit.of_string "../b" = PathSplit.mk [(3, 4)] false.
Proof. repeat split; reflexivity. Qed.

(** C4: for every input, every retained segment [(start, end)] has
    [start < end] and its bytes are not empty, not [.] and not [..]. *)
Theorem PathSplit_segments_good (path : string) :
  Forall (fun seg => fst seg < snd seg
                     /\ PathSplit.seg_name path seg <> ""
                     /\ PathSplit.seg_name path seg <> "."
                     /\ PathSplit.seg_name path seg <> "..")
         (PathSplit.segments (PathSplit.of_string path)).
Proof.
  unfold PathSplit.of_string, PathSplit.make; simpl.
  destruct (PathSplit_loop_bounds path) as [_ Hg].
  eapply Forall_impl; [exact Hg|].
  intros seg (H1 & _ & H2 & H3 & H4). auto.
Qed.

(** ** The shape of a normalised path *)

Section PathSplitShape.
Variable pathptr : string.

Local Abbreviation pathlen := (String.length pathptr).

Lemma loop_snoc (n : nat) : forall i st,
  PathSplit.loop pathptr pathlen (S n) i st
  = PathSplit.body pathptr pathlen (i + n) (PathSplit.loop pathptr pathlen n i st).
Proof.
  induction n as [|n IH]; intros i st.
  - simpl. now rewrite Nat.add_0_r.
  - change (PathSplit.loop pathptr pathlen (S (S n)) i st)
      with (PathSplit.loop pathptr pathlen (S n) (S i)
                           (PathSplit.body pathptr pathlen i st)).
    rewrite IH. replace (i + S n) with (S i + n) by lia. reflexivity.
Qed.

Lemma body_start_inv (i : nat) (st : PathSplit.locals) :
  i < pathlen -> start_inv pathptr st ->
  start_inv pathptr (PathSplit.body pathptr pathlen i st).
Proof.
  intros Hi Hst. unfold PathSplit.body.
  replace (i =? pathlen)%nat with false by (symmetry; apply Nat.eqb_neq; lia).
  simpl. destruct (PathSplit.at_ pathptr i "/"%char) eqn:Hat; [|assumption].
  right. simpl. now replace (i + 1 - 1) with i by lia.
Qed.

Lemma loop_start_inv (n : nat) : forall i st,
  i + n <= pathlen -> start_inv pathptr st ->
  start_inv pathptr (PathSplit.loop pathptr pathlen n i st).
Proof.
  induction n as [|n IH]; intros i st Hi Hst; simpl; [assumption|].
  apply IH; [lia|]. apply body_start_inv; [lia|assumption].
Qed.

(** A path that is not empty and not marked as a directory has a last
    component. *)
Lemma PathSplit_file_shaped_nonempty :
  pathlen <> 0 ->
  PathSplit.is_dir (PathSplit.of_string pathptr) = false ->
  PathSplit.segments (PathSplit.of_string pathptr) <> [].
Proof.
  intros Hlen Hdir. unfold PathSplit.of_string, PathSplit.make in *.
  rewrite loop_snoc in *.
  cbn [PathSplit.segments PathSplit.is_dir Nat.add] in *.
  apply orb_false_iff in Hdir. destruct Hdir as [Hslash Hdots].
  replace (0 <? pathlen)%nat with true in Hslash
    by (symmetry; apply Nat.ltb_lt; lia).
  set (st := PathSplit.loop pathptr pathlen pathlen 0 (PathSplit.mkLocals 0 [] false)) in *.
  assert (Hinv : loop_inv pathptr pathlen st).
  { apply (loop_keeps_inv pathptr pathlen 0); [lia|]. split; simpl; [lia|constructor]. }
  assert (Hst : start_inv pathptr st).
  { apply loop_start_inv; [lia|]. now left. }
  destruct Hinv as [Hle _].
  unfold PathSplit.body in *. rewrite Nat.eqb_refl in *. simpl in *.
  destruct (pathlen - PathSplit.seg_start st =? 0)%nat eqn:E0.
  { apply Nat.eqb_eq in E0. exfalso.
    assert (Heq : PathSplit.seg_start st = pathlen) by lia.
    destruct Hst as [H0|Hat]; [lia|].
    rewrite Heq in Hat. congruence. }
  destruct ((pathlen - PathSplit.seg_start st =? 1)%nat
            && PathSplit.at_ pathptr (PathSplit.seg_start st) "."%char) eqn:E1.
  { simpl in Hdots. discriminate. }
  destruct ((pathlen - PathSplit.seg_start st =? 2)%nat
            && PathSplit.at_ pathptr (PathSplit.seg_start st) "."%char
            && PathSplit.at_ pathptr (PathSplit.seg_start st + 1) "."%char) eqn:E2.
  { simpl in Hdots. discriminate. }
  simpl. intros Hnil. now apply app_nil in Hnil as [_ Hnil'].
Qed.
End PathSplitShape.

Lemma split_last_snoc (l : list string) (x : string) :
  split_last (l ++ [x]) = Some (l, x).
Proof. induction l as [|y l IH]; simpl; [reflexivity|]. now rewrite IH. Qed.

Lemma split_last_Some (l front : list string) (x : string) :
  split_last l = Some (front, x) -> l = front ++ [x].
Proof.
  revert front x. induction l as [|y l IH]; intros front x H; simpl in H; [discriminate|].
  destruct (split_last l) as [[f z]|] eqn:E.
  - injection H as <- <-. simpl. f_equal. now apply IH.
  - injection H as <- <-. destruct l as [|w l]; [reflexivity|].
    simpl in E. destruct (split_last l) as [[? ?]|]; discriminate.
Qed.

Lemma split_last_nonempty (l : list string) :
  l <> [] -> exists front x, split_last l = Some (front, x).
Proof.
  destruct l as [|y l]; [congruence|]. intros _. simpl.
  destruct (split_last l) as [[f z]|]; eauto.
Qed.

Lemma file_path_Some (path : string) :
  path <> "" -> PathSplit.is_dir (PathSplit.of_string path) = false ->
  exists ds f, file_path path = Some (ds, f).
Proof.
  intros Hne Hdir. unfold file_path.
  destruct path as [|c path]; [congruence|]. simpl (String.length _ =? 0)%nat.
  rewrite Hdir. apply split_last_nonempty. unfold PathSplit.names.
  intros Hmap. apply map_eq_nil in Hmap. revert Hmap.
  apply PathSplit_file_shaped_nonempty; [simpl; lia|assumption].
Qed.

(** ** The directory tree *)

Lemma file_at_walk (ds : list string) (f : string) : forall d,
  file_at ds f d = match walk_dirs ds d with
                   | Some c => find_file c f
                   | None => None
                   end.
Proof.
  induction ds as [|n ds IH]; intros d; simpl; [reflexivity|].
  destruct (find_dir d n); [apply IH|reflexivity].
Qed.

Lemma walk_dirs_app (ns1 ns2 : list string) : forall d,
  walk_dirs (ns1 ++ ns2) d = match walk_dirs ns1 d with
                             | Some c => walk_dirs ns2 c
                             | None => None
                             end.
Proof.
  induction ns1 as [|n ns1 IH]; intros d; simpl; [reflexivity|].
  destruct (find_dir d n); [apply IH|reflexivity].
Qed.

Lemma file_at_empty_dir (ds : list string) (f : string) :
  file_at ds f empty_dir = None.
Proof.
  destruct ds; simpl; unfold find_file, find_dir; simpl;
    rewrite lookup_empty; reflexivity.
Qed.

Local Ltac dec_done :=
  first [ reflexivity
        | repeat case_decide; simplify_eq; first [reflexivity | congruence] ].

(** What an insertion does to every file lookup: a file that was there
    stays, and the only new file is the inserted one at its own place. *)
Lemma file_at_insert_at (fe : FileEntry) (ds : list string) (f : string) :
  forall (ds' : list string) (f' : string) (d : DirectoryEntry),
  file_at ds f (insert_at ds' f' fe d).1
  = match file_at ds f d with
    | Some x => Some x
    | None => if decide ((ds, f) = (ds', f')) then Some fe else None
    end.
Proof.
  induction ds as [|n ds IH]; intros ds' f' d.
  - destruct ds' as [|n' ds']; simpl.
    + unfold find_file. destruct (files_ d !! f') as [y|] eqn:Ef'; simpl.
      * destruct (files_ d !! f) eqn:Ef; [reflexivity|].
        dec_done.
      * destruct (decide (f = f')) as [->|Hne].
        -- rewrite lookup_insert_eq, Ef'. dec_done.
        -- rewrite lookup_insert_ne by congruence.
           destruct (files_ d !! f); [reflexivity|].
           dec_done.
    + destruct (insert_at ds' f' fe _) as [c b]; simpl.
      unfold find_file; simpl. destruct (files_ d !! f); [reflexivity|].
      dec_done.
  - destruct ds' as [|n' ds']; simpl.
    + unfold find_dir.
      assert (Hd : dirs_ (if files_ d !! f' is Some _ then (d, false)
                          else (mkDir (dirs_ d) (<[f' := fe]> (files_ d)), true)).1
                   = dirs_ d) by (destruct (files_ d !! f'); reflexivity).
      rewrite Hd. destruct (dirs_ d !! n) as [c|]; [destruct (file_at ds f c)|];
        dec_done.
    + specialize (IH ds' f'
                     (match dirs_ d !! n' with Some c => c | None => empty_dir end)).
      destruct (insert_at ds' f' fe _) as [c' b]; simpl in *.
      unfold find_dir; simpl. destruct (decide (n = n')) as [->|Hne].
      * rewrite lookup_insert_eq, IH. clear IH.
        destruct (dirs_ d !! n') as [c|];
          [destruct (file_at ds f c)|rewrite file_at_empty_dir]; dec_done.
      * rewrite lookup_insert_ne by congruence.
        destruct (dirs_ d !! n) as [c|]; [destruct (file_at ds f c)|];
          dec_done.
Qed.

(** A directory that was there stays (its content may grow). *)
Lemma walk_dirs_insert_at (fe : FileEntry) (ns : list string) :
  forall (ds' : list string) (f' : string) (d : DirectoryEntry),
  is_Some (walk_dirs ns d) -> is_Some (walk_dirs ns (insert_at ds' f' fe d).1).
Proof.
  induction ns as [|n ns IH]; intros ds' f' d H; simpl; [eauto|].
  simpl in H. unfold find_dir in *.
  destruct ds' as [|n' ds']; simpl.
  - destruct (files_ d !! f'); simpl; assumption.
  - specialize (IH ds' f').
    destruct (dirs_ d !! n) as [c|] eqn:En; [|destruct H; discriminate].
    destruct (decide (n = n')) as [->|Hne].
    + rewrite En. specialize (IH c H).
      destruct (insert_at ds' f' fe c) as [c' b]; simpl in *.
      now rewrite lookup_insert_eq.
    + destruct (insert_at ds' f' fe _) as [c' b]; simpl.
      rewrite lookup_insert_ne by congruence. now rewrite En.
Qed.

(** An insertion makes every directory on its way. *)
Lemma walk_dirs_insert_at_prefix (fe : FileEntry) (pre : list string) :
  forall (suf : list string) (f' : string) (d : DirectoryEntry),
  is_Some (walk_dirs pre (insert_at (pre ++ suf) f' fe d).1).
Proof.
  induction pre as [|n pre IH]; intros suf f' d; simpl; [eauto|].
  specialize (IH suf f' (match dirs_ d !! n with Some c => c | None => empty_dir end)).
  destruct (insert_at (pre ++ suf) f' fe _) as [c' b]; simpl in *.
  unfold find_dir; simpl. now rewrite lookup_insert_eq.
Qed.

(** ** The code on segments and the tree on names *)

Lemma index_segments_insert_at (name : string) (fe : FileEntry)
      (segs : list (nat * nat)) :
  forall (d : DirectoryEntry) (ds : list string) (f : string),
  split_last (map (PathSplit.seg_name name) segs) = Some (ds, f) ->
  index_segments name segs fe d = insert_at ds f fe d.
Proof.
  induction segs as [|seg segs IH]; intros d ds f H; [discriminate|].
  simpl in H. destruct segs as [|seg' segs].
  - simpl in H. injection H as <- <-. reflexivity.
  - destruct (split_last (map (PathSplit.seg_name name) (seg' :: segs)))
      as [[front y]|] eqn:E; [|simpl in E; destruct (split_last _) as [[? ?]|]; discriminate].
    injection H as <- <-.
    change (index_segments name (seg :: seg' :: segs) fe d)
      with (let child := match dirs_ d !! PathSplit.seg_name name seg with
                         | Some c => c | None => empty_dir end in
            let '(child', inserted) := index_segments name (seg' :: segs) fe child in
            (mkDir (<[PathSplit.seg_name name seg := child']> (dirs_ d)) (files_ d),
             inserted)).
    cbv zeta. rewrite (IH _ front y eq_refl). reflexivity.
Qed.

Lemma lookup_file_loop_file_at (path : string) (segs : list (nat * nat)) :
  forall (d : DirectoryEntry) (ds : list string) (f : string),
  split_last (map (PathSplit.seg_name path) segs) = Some (ds, f) ->
  lookup_file_loop path segs d = file_at ds f d.
Proof.
  induction segs as [|seg segs IH]; intros d ds f H; [discriminate|].
  simpl in H. destruct segs as [|seg' segs].
  - simpl in H. injection H as <- <-. reflexivity.
  - destruct (split_last (map (PathSplit.seg_name path) (seg' :: segs)))
      as [[front y]|] eqn:E; [|simpl in E; destruct (split_last _) as [[? ?]|]; discriminate].
    injection H as <- <-.
    change (lookup_file_loop path (seg :: seg' :: segs) d)
      with (match find_dir d (PathSplit.seg_name path seg) with
            | None => None
            | Some c => lookup_file_loop path (seg' :: segs) c
            end).
    simpl. destruct (find_dir d _); [|reflexivity]. now apply IH.
Qed.

Lemma lookup_dir_loop_walk (path : string) (segs : list (nat * nat)) :
  forall d, lookup_dir_loop path segs d
            = walk_dirs (map (PathSplit.seg_name path) segs) d.
Proof.
  induction segs as [|seg segs IH]; intros d; simpl; [reflexivity|].
  destruct (find_dir d _); [apply IH|reflexivity].
Qed.

(** [lookup_file] is the file lookup at the place the path stands for. *)
Lemma lookup_file_file_path (m : ZipEntryManagerImpl) (path : string) :
  lookup_file m path = match file_path path with
                       | Some (ds, f) => file_at ds f (root_ m)
                       | None => None
                       end.
Proof.
  unfold lookup_file, file_path, PathSplit.names, PathSplit.of_string.
  destruct (String.length path =? 0)%nat; [reflexivity|].
  destruct (PathSplit.is_dir _); [reflexivity|].
  destruct (PathSplit.segments _) as [|seg segs] eqn:E; [reflexivity|].
  destruct (split_last (map (PathSplit.seg_name path) (seg :: segs)))
    as [[ds f]|] eqn:Es.
  - now apply lookup_file_loop_file_at.
  - simpl in Es. destruct (split_last _) as [[? ?]|]; discriminate.
Qed.

(** [lookup_dir] follows the names of the path from the root. *)
Lemma lookup_dir_walk (m : ZipEntryManagerImpl) (path : string) :
  lookup_dir m path = walk_dirs (PathSplit.names path) (root_ m).
Proof.
  unfold lookup_dir, PathSplit.names, PathSplit.of_string.
  destruct path as [|c [|c' path]]; [reflexivity| |].
  - unfold PathSplit.at_; simpl.
    destruct (ascii_dec c "/") as [->|Hne]; [reflexivity|].
    apply lookup_dir_loop_walk.
  - rewrite andb_false_r. apply lookup_dir_loop_walk.
Qed.

Lemma is_dir_trailing_slash (name : string) (len : nat) :
  (0 <? len)%nat && PathSplit.at_ name (len - 1) "/" = true ->
  PathSplit.is_dir (PathSplit.make name len) = true.
Proof.
  intros H. apply andb_true_iff in H as [H1 H2].
  unfold PathSplit.make. cbn [PathSplit.is_dir]. now rewrite H1, H2.
Qed.

(** The tree after one entry of the archive. *)
Lemma index_entry_root (zip_idx : nat) (i : Z) (e : zip_entry)
      (root : DirectoryEntry) :
  (index_entry zip_idx i e root).1
  = match entry_path e with
    | Some (st, ds, f) => (insert_at ds f (make_file_entry zip_idx i st) root).1
    | None => root
    end.
Proof.
  unfold index_entry, entry_path. destruct (e_stat e) as [st|]; [|reflexivity].
  destruct (has_flag (st_valid st) ZIP_STAT_NAME); [|reflexivity].
  destruct (has_flag (st_valid st) ZIP_STAT_SIZE); [|reflexivity].
  cbn [negb orb andb]. unfold file_path, PathSplit.names, PathSplit.of_string.
  destruct ((0 <? String.length (st_name st))%nat
            && PathSplit.at_ (st_name st) (String.length (st_name st) - 1) "/")
    eqn:Eslash.
  { rewrite (is_dir_trailing_slash _ _ Eslash).
    now destruct (String.length (st_name st) =? 0)%nat. }
  destruct (String.length (st_name st) =? 0)%nat eqn:E0.
  { apply Nat.eqb_eq in E0. rewrite E0. reflexivity. }
  destruct (PathSplit.is_dir (PathSplit.make (st_name st) _)); [reflexivity|].
  destruct (PathSplit.segments _) as [|seg segs] eqn:E; [reflexivity|].
  destruct (split_last (map (PathSplit.seg_name (st_name st)) (seg :: segs)))
    as [[ds f]|] eqn:Es.
  - rewrite (index_segments_insert_at _ _ _ _ ds f Es).
    now destruct (insert_at ds f _ root).
  - simpl in Es. destruct (split_last _) as [[? ?]|]; discriminate.
Qed.

(** ** Indexing an archive *)

Lemma index_entries_cons (zip_idx : nat) (i : Z) (e : zip_entry) (za : list zip_entry)
      (root : DirectoryEntry) (s : index_stats) :
  exists s', index_entries zip_idx i (e :: za) root s
             = index_entries zip_idx (i + 1) za (index_entry zip_idx i e root).1 s'.
Proof. simpl. destruct (index_entry zip_idx i e root) as [root' o]. eauto. Qed.

(** A file that is in the index stays, with the same record. *)
Lemma index_entries_file_kept (zip_idx : nat) (za : list zip_entry) :
  forall (i : Z) (root : DirectoryEntry) (s : index_stats)
         (ds : list string) (f : string) (x : FileEntry),
  file_at ds f root = Some x ->
  file_at ds f (index_entries zip_idx i za root s).1 = Some x.
Proof.
  induction za as [|e za IH]; intros i root s ds f x H; [exact H|].
  destruct (index_entries_cons zip_idx i e za root s) as [s' ->].
  apply IH. rewrite index_entry_root.
  destruct (entry_path e) as [[[st ds'] f']|]; [|exact H].
  now rewrite file_at_insert_at, H.
Qed.

(** A directory that is in the index stays. *)
Lemma index_entries_dir_kept (zip_idx : nat) (za : list zip_entry) :
  forall (i : Z) (root : DirectoryEntry) (s : index_stats) (ns : list string),
  is_Some (walk_dirs ns root) ->
  is_Some (walk_dirs ns (index_entries zip_idx i za root s).1).
Proof.
  induction za as [|e za IH]; intros i root s ns H; [exact H|].
  destruct (index_entries_cons zip_idx i e za root s) as [s' ->].
  apply IH. rewrite index_entry_root.
  destruct (entry_path e) as [[[st ds'] f']|]; [|exact H].
  now apply walk_dirs_insert_at.
Qed.

(** Where no file is yet, the archive's own entry goes in: the record is
    the one built from an entry of this archive with that place. *)
Lemma index_entries_inserts (zip_idx : nat) (ds : list string) (f : string)
      (za : list zip_entry) :
  forall (i : Z) (root : DirectoryEntry) (s : index_stats)
         (k0 : nat) (e0 : zip_entry) (st0 : zip_stat),
  file_at ds f root = None ->
  za !! k0 = Some e0 -> entry_path e0 = Some (st0, ds, f) ->
  exists (k : nat) (e : zip_entry) (st : zip_stat),
    za !! k = Some e /\ entry_path e = Some (st, ds, f)
    /\ file_at ds f (index_entries zip_idx i za root s).1
       = Some (make_file_entry zip_idx (i + Z.of_nat k) st).
Proof.
  induction za as [|e za IH]; intros i root s k0 e0 st0 Hnone Hk0 He0;
    [discriminate|].
  destruct (index_entries_cons zip_idx i e za root s) as [s' ->].
  destruct (entry_path e) as [[[st ds'] f']|] eqn:Ee.
  - destruct (decide ((ds, f) = (ds', f'))) as [Heq|Hne].
    + injection Heq as <- <-. exists 0, e, st. repeat split; [assumption|].
      rewrite Z.add_0_r. apply index_entries_file_kept.
      rewrite index_entry_root, Ee, file_at_insert_at, Hnone.
      now rewrite decide_True.
    + destruct k0 as [|k0]; [simpl in Hk0; congruence|].
      destruct (IH (i + 1)%Z (index_entry zip_idx i e root).1 s' k0 e0 st0)
        as (k & e' & st' & Hk & He' & Hf); [|exact Hk0|exact He0|].
      { rewrite index_entry_root, Ee, file_at_insert_at, Hnone.
        now rewrite decide_False. }
      exists (S k), e', st'. repeat split; [exact Hk|exact He'|].
      rewrite Hf. do 2 f_equal. lia.
  - destruct k0 as [|k0]; [simpl in Hk0; congruence|].
    destruct (IH (i + 1)%Z (index_entry zip_idx i e root).1 s' k0 e0 st0)
      as (k & e' & st' & Hk & He' & Hf); [|exact Hk0|exact He0|].
    { now rewrite index_entry_root, Ee. }
    exists (S k), e', st'. repeat split; [exact Hk|exact He'|].
    rewrite Hf. do 2 f_equal. lia.
Qed.

(** Every directory on the way of an indexed entry is in the index. *)
Lemma index_entries_makes_dirs (zip_idx : nat) (pre suf : list string) (f : string)
      (za : list zip_entry) :
  forall (i : Z) (root : DirectoryEntry) (s : index_stats)
         (k0 : nat) (e0 : zip_entry) (st0 : zip_stat),
  za !! k0 = Some e0 -> entry_path e0 = Some (st0, pre ++ suf, f) ->
  is_Some (walk_dirs pre (index_entries zip_idx i za root s).1).
Proof.
  induction za as [|e za IH]; intros i root s k0 e0 st0 Hk0 He0; [discriminate|].
  destruct (index_entries_cons zip_idx i e za root s) as [s' ->].
  destruct k0 as [|k0].
  - simpl in Hk0. injection Hk0 as ->. apply index_entries_dir_kept.
    rewrite index_entry_root, He0. apply walk_dirs_insert_at_prefix.
  - now apply (IH _ _ _ k0 e0 st0).
Qed.

(** [index_zipfile] on an archive that opens. *)
Lemma index_zipfile_Some (m : ZipEntryManagerImpl) (abs_path : string) (za : zip_t) :
  exists s,
    index_zipfile m abs_path (Some za)
    = Some (mkManager (zip_path_lst_ m ++ [abs_path])
                      (index_entries (length (zip_path_lst_ m)) 0 za (root_ m)
                                     (mkStats 0 0 0 0)).1,
            s).
Proof.
  unfold index_zipfile. destruct (index_entries _ _ _ _ _) as [root' s]. eauto.
Qed.

(** Two archives, [A] indexed before [B], on an index that has no file at
    the place [(ds, f)]: the lookup answers a record of [A]. *)
Lemma first_archive_wins (m : ZipEntryManagerImpl) (pathA pathB q : string)
      (A B : zip_t) (ds : list string) (f : string)
      (kA : nat) (eA : zip_entry) (stA : zip_stat) :
  lookup_file m q = None ->
  file_path q = Some (ds, f) ->
  A !! kA = Some eA -> entry_path eA = Some (stA, ds, f) ->
  exists m1 s1 m2 s2 r,
    index_zipfile m pathA (Some A) = Some (m1, s1)
    /\ index_zipfile m1 pathB (Some B) = Some (m2, s2)
    /\ lookup_file m2 q = Some r
    /\ get_zip_path m2 (zip_path_idx_ r) = Some pathA
    /\ exists k e st, A !! k = Some e /\ entry_path e = Some (st, ds, f)
                      /\ r = make_file_entry (length (zip_path_lst_ m)) (Z.of_nat k) st.
Proof.
  intros Hnone Hq HkA HeA.
  destruct (index_zipfile_Some m pathA A) as [s1 H1].
  set (m1 := mkManager _ _) in H1.
  destruct (index_zipfile_Some m1 pathB B) as [s2 H2].
  set (m2 := mkManager _ _) in H2.
  rewrite lookup_file_file_path, Hq in Hnone.
  destruct (index_entries_inserts (length (zip_path_lst_ m)) ds f A 0 (root_ m)
                                  (mkStats 0 0 0 0) kA eA stA Hnone HkA HeA)
    as (k & e & st & Hk & He & Hf).
  exists m1, s1, m2, s2, (make_file_entry (length (zip_path_lst_ m)) (Z.of_nat k) st).
  split; [exact H1|]. split; [exact H2|]. split; [|split].
  - rewrite lookup_file_file_path, Hq. subst m2; simpl.
    apply index_entries_file_kept. subst m1; simpl. exact Hf.
  - subst m2 m1; unfold get_zip_path; simpl.
    rewrite <- app_assoc. apply list_lookup_middle. reflexivity.
  - exists k, e, st. auto.
Qed.

(** C1: cross-archive precedence. On an index where the path [q] is not
    yet a file, if archives [A] and [B] both have a file entry whose path
    normalises to the components of [q], then after indexing [A] and then
    [B] the lookup of [q] answers a record of [A] (its archive path is
    [pathA] and it was built from an entry of [A]); indexing [B] first and
    then [A] makes the same lookup answer a record of [B]. *)
Theorem cross_archive_precedence (m : ZipEntryManagerImpl)
        (pathA pathB q : string) (A B : zip_t) (ds : list string) (f : string)
        (kA kB : nat) (eA eB : zip_entry) (stA stB : zip_stat) :
  lookup_file m q = None ->
  file_path q = Some (ds, f) ->
  A !! kA = Some eA -> entry_path eA = Some (stA, ds, f) ->
  B !! kB = Some eB -> entry_path eB = Some (stB, ds, f) ->
  (exists m1 s1 m2 s2 r,
      index_zipfile m pathA (Some A) = Some (m1, s1)
      /\ index_zipfile m1 pathB (Some B) = Some (m2, s2)
      /\ lookup_file m2 q = Some r
      /\ get_zip_path m2 (zip_path_idx_ r) = Some pathA
      /\ exists k e st, A !! k = Some e /\ entry_path e = Some (st, ds, f)
                        /\ r = make_file_entry (length (zip_path_lst_ m)) (Z.of_nat k) st)
  /\ (exists m1 s1 m2 s2 r,
         index_zipfile m pathB (Some B) = Some (m1, s1)
         /\ index_zipfile m1 pathA (Some A) = Some (m2, s2)
         /\ lookup_file m2 q = Some r
         /\ get_zip_path m2 (zip_path_idx_ r) = Some pathB
         /\ exists k e st, B !! k = Some e /\ entry_path e = Some (st, ds, f)
                           /\ r = make_file_entry (length (zip_path_lst_ m)) (Z.of_nat k) st).
Proof.
  intros Hnone Hq HkA HeA HkB HeB. split.
  - exact (first_archive_wins m pathA pathB q A B ds f kA eA stA Hnone Hq HkA HeA).
  - exact (first_archive_wins m pathB pathA q B A ds f kB eB stB Hnone Hq HkB HeB).
Qed.

Lemma cross_archive_precedence_witness :
  (exists m1 s1 m2 s2 r,
      index_zipfile new_manager "/A.zip" (Some archive_A) = Some (m1, s1)
      /\ index_zipfile m1 "/B.zip" (Some archive_B) = Some (m2, s2)
      /\ lookup_file m2 "x/y.txt" = Some r
      /\ get_zip_path m2 (zip_path_idx_ r) = Some "/A.zip"
      /\ exists k e st, archive_A !! k = Some e
                        /\ entry_path e = Some (st, ["x"], "y.txt")
                        /\ r = make_file_entry 1 (Z.of_nat k) st)
  /\ (exists m1 s1 m2 s2 r,
         index_zipfile new_manager "/B.zip" (Some archive_B) = Some (m1, s1)
         /\ index_zipfile m1 "/A.zip" (Some archive_A) = Some (m2, s2)
         /\ lookup_file m2 "x/y.txt" = Some r
         /\ get_zip_path m2 (zip_path_idx_ r) = Some "/B.zip"
         /\ exists k e st, archive_B !! k = Some e
                           /\ entry_path e = Some (st, ["x"], "y.txt")
                           /\ r = make_file_entry 1 (Z.of_nat k) st).
Proof.
  apply (cross_archive_precedence
           new_manager "/A.zip" "/B.zip" "x/y.txt" archive_A archive_B
           ["x"] "y.txt" 0 0
           (stored_entry "x/y.txt" ["1"%char]) (stored_entry "x/y.txt" ["2"%char])
           (mkStat 127 "x/y.txt" 1 1 0 ZIP_CM_STORE)
           (mkStat 127 "x/y.txt" 1 1 0 ZIP_CM_STORE));
    reflexivity.
Defined.

(** The precedence test of the spec, run: after [A] then [B] the record
    of [x/y.txt] points to the first archive and to [A]'s path; after [B]
    then [A] to [B]'s. *)
Example precedence_runs :
  let mAB := indexed (indexed new_manager "/A.zip" archive_A) "/B.zip" archive_B in
  let mBA := indexed (indexed new_manager "/B.zip" archive_B) "/A.zip" archive_A in
  (match lookup_file mAB "x/y.txt" with
   | Some r => get_zip_path mAB (zip_path_idx_ r)
   | None => None
   end) = Some "/A.zip"
  /\ (match lookup_file mBA "x/y.txt" with
      | Some r => get_zip_path mBA (zip_path_idx_ r)
      | None => None
      end) = Some "/B.zip".
Proof. split; vm_compute; reflexivity. Qed.

(** C5: a path that the normaliser marks as a directory is never a file,
    whatever the index holds; any other non-empty path has a last
    component, and the lookup follows all components but the last as
    directories and looks the last one up as a file name in the directory
    reached. *)
Theorem lookup_file_rejects_directories (m : ZipEntryManagerImpl) (path : string) :
  (PathSplit.is_dir (PathSplit.of_string path) = true -> lookup_file m path = None)
  /\ (PathSplit.is_dir (PathSplit.of_string path) = false -> path <> "" ->
      exists (front : list string) (last : string),
        PathSplit.names path = front ++ [last]
        /\ lookup_file m path
           = match walk_dirs front (root_ m) with
             | Some d => find_file d last
             | None => None
             end).
Proof.
  split.
  - intros Hdir. unfold lookup_file.
    destruct (String.length path =? 0)%nat; [reflexivity|].
    unfold PathSplit.of_string in Hdir. now rewrite Hdir.
  - intros Hdir Hne. destruct (file_path_Some path Hne Hdir) as (ds & f & Hp).
    exists ds, f. split.
    + apply split_last_Some. unfold file_path in Hp.
      destruct (String.length path =? 0)%nat; [discriminate|].
      now rewrite Hdir in Hp.
    + rewrite lookup_file_file_path, Hp. apply file_at_walk.
Qed.

Lemma lookup_file_rejects_directories_witness :
  lookup_file (indexed new_manager "/A.zip" archive_A) "x/" = None
  /\ exists (front : list string) (last : string),
      PathSplit.names "x/y.txt" = front ++ [last]
      /\ lookup_file (indexed new_manager "/A.zip" archive_A) "x/y.txt"
         = match walk_dirs front (root_ (indexed new_manager "/A.zip" archive_A)) with
           | Some d => find_file d last
           | None => None
           end.
Proof.
  split.
  - apply (proj1 (lookup_file_rejects_directories
                    (indexed new_manager "/A.zip" archive_A) "x/")).
    reflexivity.
  - apply (proj2 (lookup_file_rejects_directories
                    (indexed new_manager "/A.zip" archive_A) "x/y.txt")).
    + reflexivity.
    + discriminate.
Defined.

(** C10: whenever the normalised path has no component, [lookup_dir]
    answers the root, also for paths other than the special-cased empty
    path and [/]. *)
Theorem lookup_dir_no_component_is_root (m : ZipEntryManagerImpl) (path : string) :
  PathSplit.segments (PathSplit.of_string path) = [] ->
  lookup_dir m path = Some (root_ m).
Proof.
  intros H. rewrite lookup_dir_walk. unfold PathSplit.names. now rewrite H.
Qed.

Lemma lookup_dir_no_component_is_root_witness :
  PathSplit.segments (PathSplit.of_string "a/..") = []
  /\ lookup_dir (indexed new_manager "/A.zip" archive_A) "a/.."
     = Some (root_ (indexed new_manager "/A.zip" archive_A)).
Proof.
  split; [reflexivity|].
  apply (lookup_dir_no_component_is_root
           (indexed new_manager "/A.zip" archive_A) "a/..").
  reflexivity.
Defined.

(** The inputs the claim names, and a few more, have no component. *)
Example no_component_paths :
  Forall (fun p => PathSplit.segments (PathSplit.of_string p) = [])
         [""; "/"; ".."; "a/.."; "//"; "."; "./"; "../.."; "a/b/../.."; "///"].
Proof. repeat constructor. Qed.

(** [zipfs_getattr] tries the directory lookup first. *)
Lemma getattr_dir_first (m : ZipEntryManagerImpl) (path : string) :
  is_Some (lookup_dir m path) -> zipfs_getattr m path = (0%Z, dir_attr).
Proof. intros [d Hd]. unfold zipfs_getattr. now rewrite Hd. Qed.

(** C9: a name can be a directory and a file in the same parent. For a
    file-shaped path [p]: (a) if [p] is a directory of the index and an
    archive has a file entry at [p], then after indexing it [p] is still a
    directory and is a file too, and where [p] was no file before, the
    file is the archive's own (the duplicate check saw only the file map);
    (b) if [p] is a file of the index and an archive has a file entry
    below [p], then afterwards [p] is the same file and is a directory
    too. In both cases [zipfs_getattr] reports a directory. *)
Theorem dir_file_collision (m : ZipEntryManagerImpl) (abs_path : string)
        (za : zip_t) (p : string) (ds : list string) (f : string) :
  file_path p = Some (ds, f) ->
  (is_Some (lookup_dir m p) ->
   forall (k : nat) (e : zip_entry) (st : zip_stat),
     za !! k = Some e -> entry_path e = Some (st, ds, f) ->
     exists m' s,
       index_zipfile m abs_path (Some za) = Some (m', s)
       /\ is_Some (lookup_dir m' p) /\ is_Some (lookup_file m' p)
       /\ zipfs_getattr m' p = (0%Z, dir_attr)
       /\ (lookup_file m p = None ->
           exists r, lookup_file m' p = Some r
                     /\ zip_path_idx_ r = length (zip_path_lst_ m)))
  /\ (is_Some (lookup_file m p) ->
      forall (k : nat) (e : zip_entry) (st : zip_stat)
             (suf : list string) (f' : string),
        za !! k = Some e -> entry_path e = Some (st, ds ++ f :: suf, f') ->
        exists m' s,
          index_zipfile m abs_path (Some za) = Some (m', s)
          /\ is_Some (lookup_dir m' p) /\ lookup_file m' p = lookup_file m p
          /\ zipfs_getattr m' p = (0%Z, dir_attr)).
Proof.
  intros Hp.
  assert (Hnames : PathSplit.names p = ds ++ [f]).
  { apply split_last_Some. unfold file_path in Hp.
    destruct (String.length p =? 0)%nat; [discriminate|].
    now destruct (PathSplit.is_dir _). }
  destruct (index_zipfile_Some m abs_path za) as [s Hidx].
  set (m' := mkManager _ _) in Hidx.
  split.
  - intros Hdir k e st Hk He.
    assert (Hdir' : is_Some (lookup_dir m' p)).
    { rewrite lookup_dir_walk in *. subst m'; simpl.
      now apply index_entries_dir_kept. }
    assert (Hfile : lookup_file m p = None ->
                    exists r, lookup_file m' p = Some r
                              /\ zip_path_idx_ r = length (zip_path_lst_ m)).
    { intros Hnone. rewrite lookup_file_file_path, Hp in Hnone.
      destruct (index_entries_inserts (length (zip_path_lst_ m)) ds f za 0 (root_ m)
                                      (mkStats 0 0 0 0) k e st Hnone Hk He)
        as (k1 & e1 & st1 & _ & _ & Hf).
      eexists. rewrite lookup_file_file_path, Hp. subst m'; simpl.
      split; [exact Hf|reflexivity]. }
    exists m', s. split; [exact Hidx|]. split; [exact Hdir'|].
    split; [|split; [now apply getattr_dir_first|exact Hfile]].
    destruct (lookup_file m p) as [x|] eqn:Hx.
    + exists x. rewrite lookup_file_file_path, Hp in *. subst m'; simpl.
      now apply index_entries_file_kept.
    + destruct (Hfile eq_refl) as [r [Hr _]]. eauto.
  - intros [x Hx] k e st suf f' Hk He.
    assert (Hdir' : is_Some (lookup_dir m' p)).
    { rewrite lookup_dir_walk, Hnames. subst m'; simpl.
      apply (index_entries_makes_dirs _ (ds ++ [f]) suf f' za _ _ _ k e st Hk).
      now rewrite <- app_assoc. }
    exists m', s. split; [exact Hidx|]. split; [exact Hdir'|].
    split; [|now apply getattr_dir_first].
    rewrite Hx. rewrite lookup_file_file_path, Hp in *. subst m'; simpl.
    now apply index_entries_file_kept.
Qed.

Lemma dir_file_collision_witness :
  (exists m' s,
      index_zipfile (indexed new_manager "/A.zip" archive_A) "/C.zip"
                    (Some [stored_entry "x" ["3"%char]]) = Some (m', s)
      /\ is_Some (lookup_dir m' "x") /\ is_Some (lookup_file m' "x")
      /\ zipfs_getattr m' "x" = (0%Z, dir_attr)
      /\ (lookup_file (indexed new_manager "/A.zip" archive_A) "x" = None ->
          exists r, lookup_file m' "x" = Some r
                    /\ zip_path_idx_ r
                       = length (zip_path_lst_ (indexed new_manager "/A.zip" archive_A))))
  /\ (exists m' s,
         index_zipfile (indexed new_manager "/C.zip" [stored_entry "x" ["3"%char]])
                       "/A.zip" (Some archive_A) = Some (m', s)
         /\ is_Some (lookup_dir m' "x")
         /\ lookup_file m' "x"
            = lookup_file (indexed new_manager "/C.zip" [stored_entry "x" ["3"%char]]) "x"
         /\ zipfs_getattr m' "x" = (0%Z, dir_attr)).
Proof.
  split.
  - apply (proj1 (dir_file_collision
                    (indexed new_manager "/A.zip" archive_A) "/C.zip"
                    [stored_entry "x" ["3"%char]] "x" [] "x" eq_refl)
                 (ex_intro _ _ eq_refl) 0 (stored_entry "x" ["3"%char])
                 (mkStat 127 "x" 1 1 0 ZIP_CM_STORE));
      reflexivity.
  - apply (proj2 (dir_file_collision
                    (indexed new_manager "/C.zip" [stored_entry "x" ["3"%char]])
                    "/A.zip" archive_A "x" [] "x" eq_refl)
                 (ex_intro _ _ eq_refl) 0 (stored_entry "x/y.txt" ["1"%char])
                 (mkStat 127 "x/y.txt" 1 1 0 ZIP_CM_STORE) [] "y.txt");
      reflexivity.
Defined.

(** The collision, run: [x/y.txt] makes [x] a directory, a later entry
    [x] makes it a file as well; the attribute query answers a directory
    although the file of size 1 is there. *)
Example collision_runs :
  let m := indexed (indexed new_manager "/A.zip" archive_A) "/C.zip"
                   [stored_entry "x" ["3"%char]] in
  zipfs_getattr m "x" = (0%Z, dir_attr)
  /\ (size_ <$> lookup_file m "x") = Some 1%Z
  /\ (zip_path_idx_ <$> lookup_file m "x") = Some 2.
Proof. repeat split; vm_compute; reflexivity. Qed.

(** ** The read path *)

Lemma to_size_t_small (z : Z) : (0 <= z < two64)%Z -> to_size_t z = z.
Proof. intros H. unfold to_size_t. now apply Z.mod_small. Qed.

Lemma to_off_t_small (z : Z) : (0 <= z < 2 ^ 63)%Z -> to_off_t z = z.
Proof.
  intros H. unfold to_off_t, two64. rewrite Z.mod_small by lia.
  destruct (z <? 2 ^ 63)%Z eqn:E; [reflexivity|]. apply Z.ltb_ge in E. lia.
Qed.

Lemma to_int_small (z : Z) : (0 <= z <= INT_MAX)%Z -> to_int z = z.
Proof.
  unfold INT_MAX, to_int. intros H. rewrite Z.mod_small by lia.
  destruct (z <? 2 ^ 31)%Z eqn:E; [reflexivity|]. apply Z.ltb_ge in E. lia.
Qed.

Section ReadFacts.
Context {C : Codec}.

(** The discard loop ends within [Z.to_nat remaining] iterations,
    whatever the codec does. *)
Lemma discard_loop_total (fuel : nat) : forall (zf : zip_file_t) (remaining : Z),
  (remaining <= Z.of_nat fuel)%Z ->
  discard_loop fuel zf remaining <> DiscardOutOfFuel.
Proof.
  induction fuel as [|fuel IH]; intros zf remaining Hle; simpl.
  - destruct (remaining >? 0)%Z eqn:E; [|discriminate].
    rewrite Z.gtb_ltb in E. apply Z.ltb_lt in E. lia.
  - destruct (remaining >? 0)%Z eqn:E; [|discriminate].
    rewrite Z.gtb_ltb in E. apply Z.ltb_lt in E.
    destruct (zip_fread zf _) as [[result data] zf'].
    destruct (result <? 0)%Z eqn:Eneg; [discriminate|].
    destruct (result =? 0)%Z eqn:Ezero; [discriminate|].
    apply IH. apply Z.ltb_ge in Eneg. apply Z.eqb_neq in Ezero. lia.
Qed.

(** [zipfs_read] always returns. *)
Lemma zipfs_read_total (m : ZipEntryManagerImpl) (zip_open : string -> option zip_t)
      (path : string) (size offset : Z) :
  zipfs_read m zip_open path size offset <> ReadOutOfFuel.
Proof.
  unfold zipfs_read. destruct (lookup_file m path) as [file|]; [|discriminate].
  destruct (offset >=? _)%Z; [discriminate|].
  destruct (get_zip_path m _); [|discriminate].
  destruct (zip_open _); [|discriminate].
  destruct (zip_fopen_index _ _) as [zf|]; [|discriminate].
  destruct (offset >? 0)%Z eqn:Epos.
  - pose proof (discard_loop_total (Z.to_nat offset) zf offset) as Ht.
    destruct (discard_loop _ zf offset) as [zf1| |].
    + destruct (zip_fread zf1 _) as [[n buf] ?]. destruct (n <? 0)%Z; discriminate.
    + discriminate.
    + exfalso. apply Ht; [lia|reflexivity].
  - destruct (zip_fread zf _) as [[n buf] ?]. destruct (n <? 0)%Z; discriminate.
Qed.

Context {W : CodecWorks C}.

(** With a working codec the discard loop skips exactly [remaining]
    bytes. *)
Lemma discard_loop_skips (fuel : nat) : forall (zf : zip_file_t) (remaining : Z),
  (0 <= remaining <= Z.of_nat fuel)%Z ->
  (remaining <= Z.of_nat (length (rest zf)))%Z ->
  exists zf', discard_loop fuel zf remaining = Discarded zf'
              /\ rest zf' = drop (Z.to_nat remaining) (rest zf).
Proof.
  induction fuel as [|fuel IH]; intros zf remaining Hfuel Hlen; simpl.
  - replace remaining with 0%Z by lia. simpl. eauto.
  - destruct (remaining >? 0)%Z eqn:E.
    2:{ rewrite Z.gtb_ltb in E. apply Z.ltb_ge in E. replace remaining with 0%Z by lia. eauto. }
    rewrite Z.gtb_ltb in E. apply Z.ltb_lt in E.
    set (to_read := if (remaining >? 4096)%Z then 4096%Z else remaining).
    assert (Hto : (0 < to_read <= remaining)%Z).
    { subst to_read. destruct (remaining >? 4096)%Z eqn:E4; [|lia].
      rewrite Z.gtb_ltb in E4. apply Z.ltb_lt in E4. lia. }
    destruct (fread_works zf to_read) as (zf' & Hread & Hrest); [lia|].
    rewrite Hread.
    assert (Hn : Z.of_nat (length (take (Z.to_nat to_read) (rest zf))) = to_read).
    { rewrite length_take. lia. }
    rewrite Hn.
    replace (to_read <? 0)%Z with false by (symmetry; apply Z.ltb_ge; lia).
    replace (to_read =? 0)%Z with false by (symmetry; apply Z.eqb_neq; lia).
    destruct (IH zf' (remaining - to_read)%Z) as (zf'' & Hloop & Hrest'').
    + lia.
    + rewrite Hrest, length_drop. lia.
    + exists zf''. split; [exact Hloop|].
      rewrite Hrest'', Hrest, drop_drop. f_equal. lia.
Qed.

(** C2: read clipping. For a file of the index whose declared size [S]
    fits an [off_t]: a read at [offset >= S] returns 0 bytes; and, when
    the archive opens and the entry's payload is at least [S] bytes long,
    a read of [size <= INT_MAX] bytes at [0 <= offset < S] with
    [offset + size > S] returns exactly [S - offset] bytes, the bytes of
    the payload from [offset] up to [S]: what the payload holds beyond
    the declared size is not returned. *)
Theorem read_clipping (m : ZipEntryManagerImpl) (zip_open : string -> option zip_t)
        (path : string) (file : FileEntry) (size offset : Z) :
  lookup_file m path = Some file ->
  (0 <= size_ file < 2 ^ 63)%Z ->
  ((size_ file <= offset)%Z ->
   zipfs_read m zip_open path size offset = ReadReturn 0 [])
  /\ (forall (zip_path : string) (za : zip_t) (k : nat) (e : zip_entry),
         get_zip_path m (zip_path_idx_ file) = Some zip_path ->
         zip_open zip_path = Some za ->
         offset_ file = Z.of_nat k -> za !! k = Some e ->
         (size_ file <= Z.of_nat (length (e_data e)))%Z ->
         (0 <= size <= INT_MAX)%Z ->
         (0 <= offset < size_ file)%Z -> (offset + size > size_ file)%Z ->
         zipfs_read m zip_open path size offset
         = ReadReturn (size_ file - offset)
                      (take (Z.to_nat (size_ file - offset))
                            (drop (Z.to_nat offset) (e_data e)))
         /\ Z.of_nat (length (take (Z.to_nat (size_ file - offset))
                                   (drop (Z.to_nat offset) (e_data e))))
            = (size_ file - offset)%Z).
Proof.
  intros Hfile HS. split.
  - intros Hoff. unfold zipfs_read. rewrite Hfile, to_off_t_small by exact HS.
    replace (offset >=? size_ file)%Z with true; [reflexivity|].
    rewrite Z.geb_leb. symmetry. apply Z.leb_le. lia.
  - intros zip_path za k e Hpath Hopen Hk He Hlen Hsize Hoff Hsum.
    assert (Htake : Z.of_nat (length (take (Z.to_nat (size_ file - offset))
                                           (drop (Z.to_nat offset) (e_data e))))
                    = (size_ file - offset)%Z)
      by (rewrite length_take, length_drop; lia).
    split; [|exact Htake].
    unfold zipfs_read, INT_MAX in *.
    rewrite Hfile, to_off_t_small by exact HS.
    replace (offset >=? size_ file)%Z with false
      by (rewrite Z.geb_leb; symmetry; apply Z.leb_gt; lia).
    rewrite (to_size_t_small offset) by (unfold two64; lia).
    rewrite (to_size_t_small (offset + size)) by (unfold two64; lia).
    replace (offset + size >? size_ file)%Z with true
      by (rewrite Z.gtb_ltb; symmetry; apply Z.ltb_lt; lia).
    rewrite (to_size_t_small (size_ file - offset)) by (unfold two64; lia).
    rewrite Hpath, Hopen, Hk.
    destruct (fopen_works za k e He) as (zf & -> & Hrest).
    assert (Hskip : exists zf1,
               (if (offset >? 0)%Z
                then discard_loop (Z.to_nat offset) zf offset
                else Discarded zf) = Discarded zf1
               /\ rest zf1 = drop (Z.to_nat offset) (e_data e)).
    { destruct (offset >? 0)%Z eqn:Epos.
      - rewrite <- Hrest. apply discard_loop_skips; rewrite ?Hrest; lia.
      - rewrite Z.gtb_ltb in Epos. apply Z.ltb_ge in Epos. exists zf. split; [reflexivity|].
        replace offset with 0%Z by lia. now rewrite drop_0. }
    destruct Hskip as (zf1 & -> & Hrest1).
    destruct (fread_works zf1 (size_ file - offset)) as (zf2 & -> & _); [lia|].
    rewrite Hrest1, Htake.
    replace (size_ file - offset <? 0)%Z with false
      by (symmetry; apply Z.ltb_ge; lia).
    rewrite to_int_small by (unfold INT_MAX; lia). reflexivity.
Qed.
End ReadFacts.

(** The reference codec works. *)
Lemma ref_codec_works : CodecWorks ref_codec.
Proof.
  refine {| rest := (fun zf : @zip_file_t ref_codec => zf) |}.
  - intros za i e H. exists (e_data e). split; [|reflexivity].
    simpl. unfold ref_fopen_index.
    replace (Z.of_nat i <? 0)%Z with false by (symmetry; apply Z.ltb_ge; lia).
    now rewrite Nat2Z.id, H.
  - intros zf n Hn. exists (drop (Z.to_nat n) zf). split; [|reflexivity].
    simpl. unfold ref_fread.
    now replace (n <? 0)%Z with false by (symmetry; apply Z.ltb_ge; lia).
Qed.

Lemma read_clipping_witness :
  @zipfs_read ref_codec manager_L disk_L "f" 100 10 = ReadReturn 0 []
  /\ @zipfs_read ref_codec manager_L disk_L "f" 100 4
     = ReadReturn (10 - 4)
                  (take (Z.to_nat (10 - 4))
                        (drop (Z.to_nat 4) (list_ascii_of_string "0123456789AB")))
  /\ Z.of_nat (length (take (Z.to_nat (10 - 4))
                            (drop (Z.to_nat 4) (list_ascii_of_string "0123456789AB"))))
     = (10 - 4)%Z.
Proof.
  split.
  - refine (proj1 (@read_clipping ref_codec ref_codec_works manager_L disk_L "f"
                                  (mkFile 1 10 10 0 false) 100 10 _ _) _).
    + reflexivity.
    + simpl; lia.
    + simpl; lia.
  - refine (proj2 (@read_clipping ref_codec ref_codec_works manager_L disk_L "f"
                                  (mkFile 1 10 10 0 false) 100 4 _ _)
                  "/L.zip" archive_L 0
                  (mkEntry (Some (mkStat 127 "f" 10 10 0 ZIP_CM_STORE))
                           (list_ascii_of_string "0123456789AB")) _ _ _ _ _ _ _ _).
    + reflexivity.
    + simpl; lia.
    + reflexivity.
    + reflexivity.
    + reflexivity.
    + reflexivity.
    + simpl; lia.
    + unfold INT_MAX; lia.
    + simpl; lia.
    + simpl; lia.
Defined.

(** The entry that declares ten bytes and holds twelve, read on the
    reference codec: the two bytes beyond the declared size are never
    returned. *)
Example clamped_reads_run :
  @zipfs_read ref_codec manager_L disk_L "f" 100 4
  = ReadReturn 6 (list_ascii_of_string "456789")
  /\ @zipfs_read ref_codec manager_L disk_L "f" 12 0
     = ReadReturn 10 (list_ascii_of_string "0123456789")
  /\ @zipfs_read ref_codec manager_L disk_L "f" 2 10 = ReadReturn 0 [].
Proof. repeat split; vm_compute; reflexivity. Qed.

(** Reads of the ten-byte file, run on the reference codec: inside, across
    the end, at the end and past it. *)
Example reads_run :
  @zipfs_read ref_codec manager_F disk_F "f" 3 2
  = ReadReturn 3 (list_ascii_of_string "234")
  /\ @zipfs_read ref_codec manager_F disk_F "f" 4096 7
     = ReadReturn 3 (list_ascii_of_string "789")
  /\ @zipfs_read ref_codec manager_F disk_F "f" 4096 10 = ReadReturn 0 []
  /\ @zipfs_read ref_codec manager_F disk_F "f" 1 11 = ReadReturn 0 [].
Proof. repeat split; vm_compute; reflexivity. Qed.

(** ** The rewrite tool: arguments *)

(** The test [block_size & (block_size - 1)] is zero exactly on the powers
    of two. *)
Lemma land_pred_pow2 (v : Z) :
  (0 < v)%Z -> (Z.land v (v - 1)%Z = 0%Z <-> is_pow2 v).
Proof.
  intros Hv. split.
  - intros Hland. exists (Z.log2 v). split; [apply Z.log2_nonneg|].
    destruct (Z.log2_spec v Hv) as [Hlo Hhi].
    destruct (Z.eq_dec v (2 ^ Z.log2 v)%Z) as [Heq|Hne]; [exact Heq|exfalso].
    assert (Hlog : Z.log2 (v - 1)%Z = Z.log2 v).
    { apply Z.log2_unique; [apply Z.log2_nonneg|]. lia. }
    assert (Hb1 : Z.testbit v (Z.log2 v) = true) by (apply Z.bit_log2; lia).
    assert (Hb2 : Z.testbit (v - 1)%Z (Z.log2 v) = true).
    { rewrite <- Hlog. apply Z.bit_log2. pose proof (Z.log2_nonneg v).
      assert (0 < 2 ^ Z.log2 v)%Z by (apply Z.pow_pos_nonneg; lia). lia. }
    assert (Hb : Z.testbit (Z.land v (v - 1)%Z) (Z.log2 v) = true)
      by (rewrite Z.land_spec, Hb1, Hb2; reflexivity).
    rewrite Hland, Z.bits_0 in Hb. discriminate.
  - intros (k & Hk & ->).
    replace (2 ^ k - 1)%Z with (Z.ones k) by (rewrite Z.ones_equiv; lia).
    rewrite Z.land_ones by exact Hk. apply Z.mod_same.
    assert (0 < 2 ^ k)%Z by (apply Z.pow_pos_nonneg; lia). lia.
Qed.

(** The test of the option loop rejects [v] unless it is a power of two. *)
Lemma block_size_test (v : Z) :
  (0 <= v < two64)%Z ->
  ((v =? 0)%Z || negb (Z.land v (to_size_t (v - 1)%Z) =? 0)%Z = false <-> is_pow2 v).
Proof.
  intros Hv. destruct (Z.eq_dec v 0%Z) as [->|Hne].
  - simpl. split; [discriminate|]. intros (k & Hk & H0).
    assert (0 < 2 ^ k)%Z by (apply Z.pow_pos_nonneg; lia). lia.
  - replace (v =? 0)%Z with false by (symmetry; apply Z.eqb_neq; exact Hne).
    rewrite to_size_t_small by lia. simpl.
    rewrite negb_false_iff, Z.eqb_eq. apply land_pred_pow2. lia.
Qed.

Section OptionLoop.
Variable E : Optimizer.env.
Variable prog_name : string.
Hypothesis Hrange : stoull_in_range E.

(** Options that parse to powers of two are gone past; the block size
    is then the last of them, or unchanged when there is none. *)
Lemma parse_options_good (pre : list Optimizer.getopt_ret) :
  forall (rest : list Optimizer.getopt_ret) (block_size : Z),
  Forall (good_block_size E) pre ->
  exists block_size',
    Optimizer.parse_options E prog_name (pre ++ rest) block_size
    = Optimizer.parse_options E prog_name rest block_size'
    /\ (pre = [] -> block_size' = block_size)
    /\ (pre <> [] -> is_pow2 block_size').
Proof.
  induction pre as [|o pre IH]; intros rest block_size Hgood.
  - exists block_size. split; [reflexivity|]. split; [reflexivity|congruence].
  - apply Forall_cons in Hgood as [(optarg & v & -> & Hv & Hpow) Hgood].
    destruct (IH rest v Hgood) as (bs' & Hparse & Hnil & Hcons).
    exists bs'. simpl. rewrite Hv.
    rewrite (proj2 (block_size_test v (Hrange _ _ Hv)) Hpow).
    split; [exact Hparse|]. split; [discriminate|]. intros _.
    destruct pre as [|o' pre']; [rewrite Hnil by reflexivity; exact Hpow|].
    apply Hcons. discriminate.
Qed.
End OptionLoop.

Lemma pow2_nonzero (v : Z) : is_pow2 v -> v <> 0%Z.
Proof.
  intros (k & Hk & ->). assert (0 < 2 ^ k)%Z by (apply Z.pow_pos_nonneg; lia). lia.
Qed.

Section Arguments.
Context {C : Codec}.
Variable E : Optimizer.env.
Variable fuel : nat.
Variable prog_name : string.

End Arguments.

(** ** The rewrite tool: the summary *)

Lemma prints_app_r (s : string) (n : Z) (l1 l2 : list Optimizer.out_item) :
  prints s n l2 -> prints s n (l1 ++ l2).
Proof.
  intros (pre & post & ->). exists (l1 ++ pre), post. now rewrite <- app_assoc.
Qed.

Lemma prints_percentage_existsb (cout : list Optimizer.out_item) :
  prints_percentage cout <-> existsb is_pct cout = true.
Proof.
  rewrite existsb_exists. split.
  - intros (d & b & Hin). exists (Optimizer.Pct d b). split; [exact Hin|reflexivity].
  - intros ([s|n|d b] & Hin & Hp); try discriminate. exists d, b. exact Hin.
Qed.

Lemma no_pct_no_percentage (cout : list Optimizer.out_item) :
  Forall (fun it => is_pct it = false) cout -> ~ prints_percentage cout.
Proof.
  intros Hall (d & b & Hin). rewrite Forall_forall in Hall.
  apply list_elem_of_In in Hin. specialize (Hall _ Hin). discriminate.
Qed.

Local Ltac no_pct :=
  repeat (apply Forall_app; split);
  repeat (first [assumption | constructor]).

Lemma summary_counters_no_pct (processed decompressed block_size : Z) :
  Forall (fun it => is_pct it = false)
         (Optimizer.summary_counters processed decompressed block_size).
Proof. unfold Optimizer.summary_counters. no_pct. Qed.

(** What the summary shows, after output that holds no percentage. *)
Lemma summary_shows_intro (pre : list Optimizer.out_item)
      (processed decompressed block_size input_size output_size : Z) :
  Forall (fun it => is_pct it = false) pre ->
  (0 <= input_size)%Z -> (output_size < two64)%Z ->
  summary_shows processed decompressed block_size input_size output_size
    (pre ++ Optimizer.summary_counters processed decompressed block_size
         ++ Optimizer.summary_sizes input_size output_size).
Proof.
  intros Hno Hin Hout.
  exists (pre ++ [Optimizer.Str Optimizer.newline]),
    ([Optimizer.Str "Files processed: "; Optimizer.Num processed;
      Optimizer.Str Optimizer.newline;
      Optimizer.Str "Files decompressed: "; Optimizer.Num decompressed;
      Optimizer.Str Optimizer.newline;
      Optimizer.Str "Block size: "; Optimizer.Num block_size;
      Optimizer.Str (" bytes" ++ Optimizer.newline)%string]
     ++ Optimizer.summary_sizes input_size output_size).
  split; [now rewrite <- app_assoc|].
  split; [eexists [], _; reflexivity|].
  split; [eexists [_; _; _], _; reflexivity|].
  split; [eexists [_; _; _; _; _; _], _; reflexivity|].
  split; [eexists [_; _; _; _; _; _; _; _; _], _; reflexivity|].
  split; [eexists [_; _; _; _; _; _; _; _; _; _; _; _], _; reflexivity|].
  assert (Hpre : existsb is_pct pre = false).
  { apply not_true_is_false. rewrite <- prints_percentage_existsb.
    now apply no_pct_no_percentage. }
  split.
  - rewrite prints_percentage_existsb, !existsb_app, Hpre.
    unfold Optimizer.summary_sizes. rewrite existsb_app. simpl.
    destruct (_ >? _)%Z eqn:Egt; rewrite Z.gtb_ltb in Egt.
    + apply Z.ltb_lt in Egt. simpl. split; [intros _; lia|intros _; reflexivity].
    + apply Z.ltb_ge in Egt. simpl. split; [discriminate|intros; lia].
  - intros d b Hd. apply in_app_or in Hd as [Hd|Hd].
    { rewrite Forall_forall in Hno. apply list_elem_of_In in Hd.
      specialize (Hno _ Hd). discriminate. }
    apply in_app_or in Hd as [Hd|Hd].
    { pose proof (summary_counters_no_pct processed decompressed block_size) as Hc.
      rewrite Forall_forall in Hc. apply list_elem_of_In in Hd.
      specialize (Hc _ Hd). discriminate. }
    unfold Optimizer.summary_sizes in Hd. apply in_app_or in Hd as [Hd|Hd].
    { simpl in Hd. repeat (destruct Hd as [Hd|Hd]; [discriminate|]). destruct Hd. }
    destruct (_ >? _)%Z eqn:Egt; [|destruct Hd].
    rewrite Z.gtb_ltb in Egt. apply Z.ltb_lt in Egt.
    simpl in Hd. destruct Hd as [Hd|[Hd|[Hd|[]]]]; try discriminate.
    injection Hd as <- <-. split; [|reflexivity].
    apply to_size_t_small. lia.
Qed.

(** How the option loop ends when it is left: the block size is the one
    it started with, or the value of the last option. *)
Lemma parse_options_last (E : Optimizer.env) (prog_name : string)
      (opts : list Optimizer.getopt_ret) :
  forall (block_size0 block_size : Z),
  Optimizer.parse_options E prog_name opts block_size0
  = Optimizer.ParseDone block_size ->
  (opts = [] /\ block_size = block_size0)
  \/ exists optarg, last opts = Some (Optimizer.opt_b optarg)
                    /\ Optimizer.stoull E optarg = Some block_size.
Proof.
  induction opts as [|o opts IH]; intros bs0 bs H; simpl in H.
  - injection H as <-. now left.
  - right. destruct o as [optarg| |]; try discriminate.
    destruct (Optimizer.stoull E optarg) as [v|] eqn:Ev; [|discriminate].
    destruct (_ || _); [discriminate|].
    destruct (IH v bs H) as [[-> ->]|(optarg' & Hlast & Hv)].
    + exists optarg. split; [reflexivity|exact Ev].
    + exists optarg'. split; [|exact Hv].
      destruct opts as [|o' opts']; [discriminate|exact Hlast].
Qed.

Section Summary.
Context {C : Codec}.
Variable E : Optimizer.env.

Lemma process_entry_no_pct (input_zip : zip_t) (i : Z) (e : zip_entry)
      (s : Optimizer.loop_state) :
  Forall (fun it => is_pct it = false) (Optimizer.cout s) ->
  Forall (fun it => is_pct it = false)
         (Optimizer.cout (Optimizer.process_entry E input_zip i e s)).
Proof.
  intros H. unfold Optimizer.process_entry.
  destruct (e_stat e) as [st|]; [|exact H].
  destruct (_ && PathSplit.at_ _ _ _); [exact H|].
  destruct (has_flag _ _ && _);
    destruct (negb (Optimizer.source_function_ok E i));
    destruct (negb (Optimizer.file_add_ok E i));
    try destruct (Optimizer.zip_file_add _ _ _) as [out1 idx];
    try destruct (Optimizer.set_compression_ok E i);
    simpl; no_pct.
Qed.

Lemma process_entries_no_pct (input_zip : zip_t) (entries : list zip_entry) :
  forall (i : Z) (s : Optimizer.loop_state),
  Forall (fun it => is_pct it = false) (Optimizer.cout s) ->
  Forall (fun it => is_pct it = false)
         (Optimizer.cout (Optimizer.process_entries E input_zip i entries s)).
Proof.
  induction entries as [|e entries IH]; intros i s H; [exact H|].
  simpl. apply IH. now apply process_entry_no_pct.
Qed.

Lemma process_entry_buffered_no_pct (input_zip : zip_t) (i : Z) (e : zip_entry)
      (s : Optimizer.loop_state_buffered) :
  Forall (fun it => is_pct it = false) (Optimizer.cout_b s) ->
  Forall (fun it => is_pct it = false)
         (Optimizer.cout_b (Optimizer.process_entry_buffered E input_zip i e s)).
Proof.
  intros H. unfold Optimizer.process_entry_buffered.
  destruct (e_stat e) as [st|]; [|exact H].
  destruct (_ && PathSplit.at_ _ _ _); [exact H|].
  destruct (has_flag _ _ && _);
    (destruct (zip_fopen_index input_zip i) as [zf|]; [|simpl; no_pct]);
    destruct (zip_fread zf _) as [[n data] zf'];
    destruct (negb (n =? _)%Z);
    destruct (negb (Optimizer.source_function_ok E i));
    destruct (negb (Optimizer.source_owned_ok E i));
    destruct (negb (Optimizer.file_add_ok E i));
    try destruct (Optimizer.zip_file_add_buffer _ _ _) as [out1 idx];
    try destruct (Optimizer.set_compression_ok E i);
    simpl; no_pct.
Qed.

Lemma process_entries_buffered_no_pct (input_zip : zip_t) (entries : list zip_entry) :
  forall (i : Z) (s : Optimizer.loop_state_buffered),
  Forall (fun it => is_pct it = false) (Optimizer.cout_b s) ->
  Forall (fun it => is_pct it = false)
         (Optimizer.cout_b (Optimizer.process_entries_buffered E input_zip i entries s)).
Proof.
  induction entries as [|e entries IH]; intros i s H; [exact H|].
  simpl. apply IH. now apply process_entry_buffered_no_pct.
Qed.

Lemma progress_no_pct (percents : list Z) :
  forall (st : Z * list Optimizer.out_item),
  Forall (fun it => is_pct it = false) st.2 ->
  Forall (fun it => is_pct it = false)
         (fold_left (fun st p => Optimizer.write_progress_cb p st) percents st).2.
Proof.
  induction percents as [|p percents IH]; intros [last c] H; [exact H|].
  simpl. apply IH. destruct (negb (p =? last)%Z); simpl; [no_pct|exact H].
Qed.

(** What [prepare] answers: an early exit is an exit and writes nothing;
    otherwise there are two positional paths, the input opens, the block
    size is the value of the last option, and no percentage was printed
    so far. *)
Lemma prepare_cases (prog_name : string) (opts : list Optimizer.getopt_ret)
      (positional : list string) :
  match Optimizer.prepare E prog_name opts positional with
  | inl r => run_written r = None /\ is_Some (exit_code r)
  | inr (block_size, input_path, output_path, input_zip, cout0) =>
      positional = [input_path; output_path]
      /\ Forall (fun it => is_pct it = false) cout0
      /\ Optimizer.zip_open_rdonly E input_path = Some input_zip
      /\ exists optarg, last opts = Some (Optimizer.opt_b optarg)
                        /\ Optimizer.stoull E optarg = Some block_size
  end.
Proof.
  unfold Optimizer.prepare.
  destruct (Optimizer.parse_options E prog_name opts 0) as [code err|bs] eqn:Eparse;
    [simpl; eauto|].
  destruct positional as [|a [|b [|c l]]]; try (simpl; eauto).
  destruct (bs =? 0)%Z eqn:Ebs; [simpl; eauto|].
  destruct (negb (Optimizer.fs_exists E a)); [simpl; eauto|].
  destruct (Optimizer.zip_open_rdonly E a) as [za|] eqn:Eopen; [|simpl; eauto].
  destruct (negb (Optimizer.zip_open_create E b)); [simpl; eauto|].
  split; [reflexivity|]. split; [no_pct|]. split; [exact Eopen|].
  apply parse_options_last in Eparse as [[_ ->]|H]; [discriminate|exact H].
Qed.

(** A run that ends in the summary and returns. *)
Lemma finish_exit (input_path output_path : string)
      (processed decompressed block_size code : Z)
      (cout0 cerr0 cout cerr : list Optimizer.out_item)
      (entries : list Optimizer.out_entry)
      (written : option (list Optimizer.out_entry)) :
  Optimizer.finish E input_path output_path processed decompressed block_size
                   cout0 cerr0 entries
  = Optimizer.Exit code cout cerr written ->
  code = 0%Z /\ written = Some entries /\ entries <> [] /\ cerr = cerr0
  /\ exists input_size output_size,
      Optimizer.file_size E input_path = Some input_size
      /\ Optimizer.file_size E output_path = Some output_size
      /\ cout = cout0 ++ Optimizer.summary_counters processed decompressed block_size
                      ++ Optimizer.summary_sizes input_size output_size.
Proof.
  unfold Optimizer.finish, Optimizer.output_file_size.
  destruct (Optimizer.file_size E input_path) as [input_size|]; [|discriminate].
  destruct entries as [|o entries]; [discriminate|].
  destruct (Optimizer.file_size E output_path) as [output_size|]; [|discriminate].
  intros [= <- <- <- <-]. repeat split; [discriminate|].
  exists input_size, output_size. now rewrite <- app_assoc.
Qed.

(** The counters of the entry loop: an entry that libzip takes is
    processed, a file entry with a method other than "stored" is
    decompressed. *)
Lemma process_entry_counts (za : zip_t) (i : Z) (e : zip_entry)
      (s : Optimizer.loop_state) :
  let s' := Optimizer.process_entry E za i e s in
  Optimizer.files_processed s'
  = (Optimizer.files_processed s + if added E i e then 1 else 0)%Z
  /\ Optimizer.files_decompressed s'
     = (Optimizer.files_decompressed s + if counts_as_decompressed e then 1 else 0)%Z.
Proof.
  unfold Optimizer.process_entry, added, is_file_entry, counts_as_decompressed.
  destruct (e_stat e) as [st|]; [|simpl; lia].
  destruct (_ && PathSplit.at_ _ _ _); [simpl; lia|]. simpl.
  destruct (has_flag _ _ && _);
    destruct (Optimizer.source_function_ok E i);
    destruct (Optimizer.file_add_ok E i);
    try destruct (Optimizer.zip_file_add _ _ _) as [out1 idx];
    try destruct (Optimizer.set_compression_ok E i); simpl; lia.
Qed.

Lemma process_entries_counts (za : zip_t) (entries : list zip_entry) :
  forall (i : Z) (s : Optimizer.loop_state),
  let s' := Optimizer.process_entries E za i entries s in
  Optimizer.files_processed s'
  = (Optimizer.files_processed s + count_from (added E) i entries)%Z
  /\ Optimizer.files_decompressed s'
     = (Optimizer.files_decompressed s
        + count_entries counts_as_decompressed entries)%Z.
Proof.
  unfold count_entries.
  induction entries as [|e entries IH]; intros i s; simpl; [lia|].
  destruct (IH (i + 1)%Z (Optimizer.process_entry E za i e s)) as [Hp Hd].
  destruct (process_entry_counts za i e s) as [Hp1 Hd1].
  rewrite Hp, Hd, Hp1, Hd1.
  destruct (counts_as_decompressed e); simpl length; lia.
Qed.

Lemma process_entry_buffered_counts (za : zip_t) (i : Z) (e : zip_entry)
      (s : Optimizer.loop_state_buffered) :
  let s' := Optimizer.process_entry_buffered E za i e s in
  Optimizer.files_processed_b s'
  = (Optimizer.files_processed_b s + if added_buffered E za i e then 1 else 0)%Z
  /\ Optimizer.files_decompressed_b s'
     = (Optimizer.files_decompressed_b s
        + if counts_as_decompressed e then 1 else 0)%Z.
Proof.
  unfold Optimizer.process_entry_buffered, added_buffered, read_whole,
    is_file_entry, counts_as_decompressed.
  destruct (e_stat e) as [st|]; [|simpl; lia].
  destruct (_ && PathSplit.at_ _ _ _); [simpl; lia|]. simpl.
  destruct (zip_fopen_index za i) as [zf|];
    [|destruct (has_flag _ _ && _); simpl; lia].
  destruct (zip_fread zf (st_size st)) as [[n data] zf']. simpl.
  destruct (has_flag _ _ && _);
    destruct (n =? _)%Z;
    destruct (Optimizer.source_function_ok E i);
    destruct (Optimizer.source_owned_ok E i);
    destruct (Optimizer.file_add_ok E i);
    try destruct (Optimizer.zip_file_add_buffer _ _ _) as [out1 idx];
    try destruct (Optimizer.set_compression_ok E i); simpl; lia.
Qed.

Lemma process_entries_buffered_counts (za : zip_t) (entries : list zip_entry) :
  forall (i : Z) (s : Optimizer.loop_state_buffered),
  let s' := Optimizer.process_entries_buffered E za i entries s in
  Optimizer.files_processed_b s'
  = (Optimizer.files_processed_b s + count_from (added_buffered E za) i entries)%Z
  /\ Optimizer.files_decompressed_b s'
     = (Optimizer.files_decompressed_b s
        + count_entries counts_as_decompressed entries)%Z.
Proof.
  unfold count_entries.
  induction entries as [|e entries IH]; intros i s; simpl; [lia|].
  destruct (IH (i + 1)%Z (Optimizer.process_entry_buffered E za i e s)) as [Hp Hd].
  destruct (process_entry_buffered_counts za i e s) as [Hp1 Hd1].
  rewrite Hp, Hd, Hp1, Hd1.
  destruct (counts_as_decompressed e); simpl length; lia.
Qed.

(** C8, as amended: every run of the tool (of either variant) that exits
    0 after writing the output ends its output with the summary: after
    the line [Optimization complete!] it shows the number of files
    processed (the entries that reached the output), the number of files
    decompressed (the file entries with a method other than "stored"),
    the block size given last, the size of the input file and the size
    of the output file; and it prints the percentage, the increase over
    the input size, exactly when the output is larger than the input. *)
Theorem success_summary (fuel : nat) (prog_name : string)
        (opts : list Optimizer.getopt_ret) (positional : list string)
        (cout cerr : list Optimizer.out_item)
        (entries : list Optimizer.out_entry) :
  file_size_in_range E ->
  (Optimizer.main E fuel prog_name opts positional
   = Optimizer.Exit 0 cout cerr (Some entries) ->
   summary_printed E opts positional (count_from (added E) 0) cout)
  /\ (Optimizer.main_buffered E prog_name opts positional
      = Optimizer.Exit 0 cout cerr (Some entries) ->
      summary_printed E opts positional
                      (fun za => count_from (added_buffered E za) 0 za) cout).
Proof.
  intros Hrange. split.
  - unfold Optimizer.main.
    pose proof (prepare_cases prog_name opts positional) as Hprep.
    destruct (Optimizer.prepare E prog_name opts positional)
      as [r|[[[[bs input_path] output_path] za] cout0]].
    { destruct Hprep as [Hnone _]. intros ->. simpl in Hnone. discriminate. }
    destruct Hprep as (Hpos & Hno0 & Hopen & optarg & Hlast & Hbs).
    destruct (Optimizer.write_pending _ _ _) as [w|]; [|discriminate].
    match goal with
    | |- context [Optimizer.process_entries E za 0 za ?s0] =>
        destruct (process_entries_counts za za 0 s0) as [Hp Hd];
        set (s := Optimizer.process_entries E za 0 za s0) in *
    end.
    simpl in Hp, Hd.
    assert (Hs : Forall (fun it => is_pct it = false) (Optimizer.cout s)).
    { apply process_entries_no_pct. exact Hno0. }
    set (pr := if Optimizer.register_progress_ok E
               then fold_left (fun st p => Optimizer.write_progress_cb p st)
                              (Optimizer.progress_percents E)
                              ((-1)%Z, Optimizer.cout s)
               else ((-1)%Z, Optimizer.cout s)).
    assert (Hprog : Forall (fun it => is_pct it = false) pr.2).
    { subst pr. destruct (Optimizer.register_progress_ok E); [|exact Hs].
      now apply progress_no_pct. }
    destruct pr as [last_percent cout1]. simpl in Hprog.
    destruct (negb (Optimizer.write_ok E)); [discriminate|].
    intros Hrun. apply finish_exit in Hrun
      as (_ & _ & _ & _ & input_size & output_size & Hin & Hout & ->).
    exists input_path, output_path, optarg, za, bs, input_size, output_size.
    repeat (split; [assumption|]).
    rewrite Hp, Hd. apply summary_shows_intro.
    + destruct (last_percent <? 100)%Z; no_pct.
    + apply (Hrange _ _ Hin).
    + apply (Hrange _ _ Hout).
  - unfold Optimizer.main_buffered.
    pose proof (prepare_cases prog_name opts positional) as Hprep.
    destruct (Optimizer.prepare E prog_name opts positional)
      as [r|[[[[bs input_path] output_path] za] cout0]].
    { destruct Hprep as [Hnone _]. intros ->. simpl in Hnone. discriminate. }
    destruct Hprep as (Hpos & Hno0 & Hopen & optarg & Hlast & Hbs).
    match goal with
    | |- context [Optimizer.process_entries_buffered E za 0 za ?s0] =>
        destruct (process_entries_buffered_counts za za 0 s0) as [Hp Hd];
        set (s := Optimizer.process_entries_buffered E za 0 za s0) in *
    end.
    simpl in Hp, Hd.
    destruct (negb (Optimizer.write_ok E)); [discriminate|].
    intros Hrun. apply finish_exit in Hrun
      as (_ & _ & _ & _ & input_size & output_size & Hin & Hout & ->).
    exists input_path, output_path, optarg, za, bs, input_size, output_size.
    repeat (split; [assumption|]).
    rewrite Hp, Hd. apply summary_shows_intro.
    + subst s. now apply process_entries_buffered_no_pct.
    + apply (Hrange _ _ Hin).
    + apply (Hrange _ _ Hout).
Qed.
End Summary.

(** ** The rewrite tool: streaming the entries *)

Section Streaming.
Context {C : Codec} {W : CodecWorks C}.

(** With a working codec the writer's read loop delivers what the handle
    has left, given one more round than there are bytes. *)
Lemma pull_loop_works (chunk : Z) (fuel : nat) :
  forall (source : Optimizer.ZipStreamSource) (f : zip_file_t) (acc : list ascii),
  (0 < chunk)%Z ->
  Optimizer.file source = Some f ->
  length (rest f) < fuel ->
  exists source',
    Optimizer.pull_loop fuel chunk source acc = (Optimizer.Pulled (acc ++ rest f), Some source').
Proof.
  induction fuel as [|fuel IH]; intros source f acc Hchunk Hfile Hlen; [lia|].
  simpl. unfold Optimizer.zip_stream_source_cb. rewrite Hfile.
  destruct (fread_works f chunk) as (f' & Hread & Hrest); [lia|].
  rewrite Hread.
  set (n := length (take (Z.to_nat chunk) (rest f))).
  replace (Z.of_nat n <? 0)%Z with false by (symmetry; apply Z.ltb_ge; lia).
  assert (Hn : n = Nat.min (Z.to_nat chunk) (length (rest f)))
    by (subst n; apply length_take).
  destruct (Z.of_nat n =? 0)%Z eqn:Ez.
  - apply Z.eqb_eq in Ez.
    assert (Hnil : rest f = []) by (apply length_zero_iff_nil; lia).
    rewrite Hnil, app_nil_r. eauto.
  - apply Z.eqb_neq in Ez.
    destruct (IH (Optimizer.set_file source (Some f')) f'
                 (acc ++ take (Z.to_nat chunk) (rest f)) Hchunk eq_refl)
      as (source' & Hloop).
    + rewrite Hrest, length_drop. lia.
    + exists source'. rewrite Hloop, Hrest, <- app_assoc, take_drop. reflexivity.
Qed.

(** The writer gets the whole payload of the entry a source is bound
    to. *)
Lemma writer_pull_works (fuel : nat) (chunk : Z) (za : zip_t)
      (source : Optimizer.ZipStreamSource) (k : nat) (e : zip_entry) :
  (0 < chunk)%Z ->
  Optimizer.input_zip source = za -> Optimizer.index source = Z.of_nat k ->
  za !! k = Some e -> length (e_data e) < fuel ->
  Optimizer.writer_pull fuel chunk source = Optimizer.Pulled (e_data e).
Proof.
  intros Hchunk Hza Hidx Hk Hlen. unfold Optimizer.writer_pull.
  unfold Optimizer.zip_stream_source_cb at 1. rewrite Hza, Hidx.
  destruct (fopen_works za k e Hk) as (f & -> & Hrest). simpl.
  destruct (pull_loop_works chunk fuel (Optimizer.set_file source (Some f)) f []
                            Hchunk eq_refl) as (source' & ->); [rewrite Hrest; lia|].
  simpl. now rewrite Hrest.
Qed.

(** Writing pending entries that are bound to the input copies their
    payloads, in order and under their names. *)
Lemma write_pending_works (fuel : nat) (chunk : Z) (za : zip_t)
      (out : list Optimizer.pending) :
  (0 < chunk)%Z ->
  Forall (fun e => length (e_data e) < fuel) za ->
  Forall (pending_ok za) out ->
  exists entries,
    Optimizer.write_pending fuel chunk out = Optimizer.Written entries
    /\ Forall (copied_from za) entries
    /\ map Optimizer.o_name entries = map Optimizer.p_name out.
Proof.
  intros Hchunk Hfuel Hout.
  induction Hout as [|p out (k & e & st & Hza & Hidx & _ & Hk & Hst & Hname) _ IH].
  - exists []. repeat split; constructor.
  - destruct IH as (entries & Hw & Hcopied & Hnames).
    exists (Optimizer.mkOut (Optimizer.p_name p) (e_data e) (Optimizer.p_method p)
              :: entries).
    simpl. rewrite (writer_pull_works fuel chunk za _ k e Hchunk Hza Hidx Hk), Hw.
    + split; [reflexivity|]. split; [|simpl; now rewrite Hnames].
      constructor; [|exact Hcopied]. exists k, e, st. auto.
    + rewrite Forall_forall in Hfuel. apply Hfuel.
      apply list_elem_of_lookup. eauto.
Qed.
End Streaming.

Section EntryLoop.
Context {C : Codec}.
Variable E : Optimizer.env.
Variable za : zip_t.

Lemma zip_file_add_ok (name : string) (source : Optimizer.ZipStreamSource)
      (out : list Optimizer.pending) :
  pending_ok za (Optimizer.mkPending name source None) ->
  Forall (pending_ok za) out ->
  Forall (pending_ok za) (Optimizer.zip_file_add out name source).1.
Proof.
  intros Hnew Hout. induction Hout as [|p out Hp Hout IH]; simpl.
  - constructor; [exact Hnew|constructor].
  - destruct (String.eqb (Optimizer.p_name p) name).
    + constructor; assumption.
    + destruct (Optimizer.zip_file_add out name source) as [out' idx]. simpl in *.
      constructor; assumption.
Qed.

Lemma zip_file_add_names (name : string) (source : Optimizer.ZipStreamSource)
      (out : list Optimizer.pending) (x : string) :
  x ∈ map Optimizer.p_name (Optimizer.zip_file_add out name source).1
  <-> x = name \/ x ∈ map Optimizer.p_name out.
Proof.
  induction out as [|p out IH]; simpl.
  - rewrite list_elem_of_singleton. split; [auto|].
    intros [H|H]; [exact H|]. now apply not_elem_of_nil in H.
  - destruct (String.eqb (Optimizer.p_name p) name) eqn:Eq.
    + apply String.eqb_eq in Eq. simpl. rewrite !elem_of_cons, Eq. tauto.
    + destruct (Optimizer.zip_file_add out name source) as [out' idx]. simpl in *.
      rewrite !elem_of_cons, IH. tauto.
Qed.

Lemma zip_set_file_compression_ok (out : list Optimizer.pending) (idx : nat)
      (method : Z) :
  Forall (pending_ok za) out ->
  Forall (pending_ok za) (Optimizer.zip_set_file_compression out idx method).
Proof.
  intros Hout. unfold Optimizer.zip_set_file_compression.
  destruct (out !! idx) as [p|] eqn:Ep; [|exact Hout].
  apply Forall_insert; [exact Hout|].
  assert (Hp : pending_ok za p).
  { rewrite Forall_forall in Hout. apply Hout. apply list_elem_of_lookup. eauto. }
  destruct Hp as (k & e & st & Hp). exists k, e, st. exact Hp.
Qed.

Lemma zip_set_file_compression_names (out : list Optimizer.pending) (idx : nat)
      (method : Z) :
  map Optimizer.p_name (Optimizer.zip_set_file_compression out idx method)
  = map Optimizer.p_name out.
Proof.
  unfold Optimizer.zip_set_file_compression.
  destruct (out !! idx) as [p|] eqn:Ep; [|reflexivity].
  rewrite list_fmap_insert. simpl. apply list_insert_id.
  rewrite list_lookup_fmap, Ep. reflexivity.
Qed.

(** What one round of the entry loop does to the output archive: it is
    unchanged, or the entry went in under its name. *)
Lemma process_entry_output (i : Z) (e : zip_entry) (s : Optimizer.loop_state) :
  Optimizer.output_zip (Optimizer.process_entry E za i e s) = Optimizer.output_zip s
  \/ exists st,
      e_stat e = Some st
      /\ (Optimizer.output_zip (Optimizer.process_entry E za i e s)
          = (Optimizer.zip_file_add (Optimizer.output_zip s) (st_name st)
                                    (Optimizer.new_stream_source za i st)).1
          \/ exists idx method,
              Optimizer.output_zip (Optimizer.process_entry E za i e s)
              = Optimizer.zip_set_file_compression
                  (Optimizer.zip_file_add (Optimizer.output_zip s) (st_name st)
                                          (Optimizer.new_stream_source za i st)).1
                  idx method).
Proof.
  unfold Optimizer.process_entry.
  destruct (e_stat e) as [st|]; [|now left].
  destruct (_ && PathSplit.at_ _ _ _); [now left|].
  destruct (negb (Optimizer.source_function_ok E i)); [now left|].
  destruct (negb (Optimizer.file_add_ok E i)); [now left|].
  right. exists st. split; [reflexivity|].
  destruct (Optimizer.zip_file_add _ _ _) as [out1 idx] eqn:Eadd.
  destruct (Optimizer.set_compression_ok E i); simpl.
  - right. exists idx, ZIP_CM_STORE. reflexivity.
  - left. reflexivity.
Qed.

Lemma process_entry_ok (k : nat) (e : zip_entry) (s : Optimizer.loop_state) :
  za !! k = Some e ->
  Forall (pending_ok za) (Optimizer.output_zip s) ->
  Forall (pending_ok za)
         (Optimizer.output_zip (Optimizer.process_entry E za (Z.of_nat k) e s)).
Proof.
  intros Hk Hs.
  destruct (process_entry_output (Z.of_nat k) e s)
    as [->|(st & Hst & [->|(idx & method & ->)])];
    [exact Hs| |apply zip_set_file_compression_ok];
    (apply zip_file_add_ok; [|exact Hs]);
    exists k, e, st; auto 10.
Qed.

Lemma process_entries_ok (entries : list zip_entry) :
  forall (k : nat) (s : Optimizer.loop_state),
  (forall j e, entries !! j = Some e -> za !! (k + j) = Some e) ->
  Forall (pending_ok za) (Optimizer.output_zip s) ->
  Forall (pending_ok za)
         (Optimizer.output_zip (Optimizer.process_entries E za (Z.of_nat k) entries s)).
Proof.
  induction entries as [|e entries IH]; intros k s Hsub Hs; [exact Hs|].
  simpl. replace (Z.of_nat k + 1)%Z with (Z.of_nat (S k)) by lia.
  apply IH.
  - intros j e' Hj. replace (S k + j) with (k + S j) by lia. now apply Hsub.
  - apply process_entry_ok; [|exact Hs].
    rewrite <- (Nat.add_0_r k). now apply Hsub.
Qed.

(** A name that is in the output archive stays in it. *)
Lemma process_entry_names_kept (i : Z) (e : zip_entry) (s : Optimizer.loop_state)
      (x : string) :
  x ∈ map Optimizer.p_name (Optimizer.output_zip s) ->
  x ∈ map Optimizer.p_name (Optimizer.output_zip (Optimizer.process_entry E za i e s)).
Proof.
  intros Hx.
  destruct (process_entry_output i e s)
    as [->|(st & _ & [->|(idx & method & ->)])];
    [exact Hx| |rewrite zip_set_file_compression_names];
    apply zip_file_add_names; now right.
Qed.

Lemma process_entries_names_kept (entries : list zip_entry) :
  forall (i : Z) (s : Optimizer.loop_state) (x : string),
  x ∈ map Optimizer.p_name (Optimizer.output_zip s) ->
  x ∈ map Optimizer.p_name
        (Optimizer.output_zip (Optimizer.process_entries E za i entries s)).
Proof.
  induction entries as [|e entries IH]; intros i s x Hx; [exact Hx|].
  simpl. apply IH. now apply process_entry_names_kept.
Qed.

(** An entry that libzip takes goes into the output archive under its
    name. *)
Lemma process_entry_added (i : Z) (e : zip_entry) (s : Optimizer.loop_state) :
  added E i e = true ->
  exists st, e_stat e = Some st
             /\ st_name st ∈ map Optimizer.p_name
                   (Optimizer.output_zip (Optimizer.process_entry E za i e s)).
Proof.
  unfold added, is_file_entry, Optimizer.process_entry.
  destruct (e_stat e) as [st|]; [|discriminate].
  intros H. apply andb_true_iff in H as [H Hadd].
  apply andb_true_iff in H as [Hname Hsrc].
  apply negb_true_iff in Hname. rewrite Hname, Hsrc, Hadd. simpl.
  exists st. split; [reflexivity|].
  destruct (Optimizer.zip_file_add _ _ _) as [out1 idx] eqn:Eadd.
  assert (Hin : st_name st ∈ map Optimizer.p_name out1).
  { replace out1 with (Optimizer.zip_file_add (Optimizer.output_zip s) (st_name st)
                         (Optimizer.new_stream_source za i st)).1
      by now rewrite Eadd.
    apply zip_file_add_names. now left. }
  destruct (Optimizer.set_compression_ok E i); simpl;
    [rewrite zip_set_file_compression_names|]; exact Hin.
Qed.

Lemma process_entries_added (entries : list zip_entry) :
  forall (i : Z) (s : Optimizer.loop_state) (j : nat) (e : zip_entry),
  entries !! j = Some e -> added E (i + Z.of_nat j) e = true ->
  exists st, e_stat e = Some st
             /\ st_name st ∈ map Optimizer.p_name
                   (Optimizer.output_zip (Optimizer.process_entries E za i entries s)).
Proof.
  induction entries as [|e0 entries IH]; intros i s j e Hj Hadd; [discriminate|].
  simpl. destruct j as [|j].
  - simpl in Hj. injection Hj as ->. rewrite Z.add_0_r in Hadd.
    destruct (process_entry_added i e s Hadd) as (st & Hst & Hin).
    exists st. split; [exact Hst|]. now apply process_entries_names_kept.
  - apply (IH _ _ j e); [exact Hj|].
    replace (i + 1 + Z.of_nat j)%Z with (i + Z.of_nat (S j))%Z by lia. exact Hadd.
Qed.

(** Entries that are no file entries leave the output archive and the
    counters as they are. *)
Lemma process_entries_no_files (entries : list zip_entry) :
  forall (i : Z) (s : Optimizer.loop_state),
  Forall (fun e => is_file_entry e = false) entries ->
  let s' := Optimizer.process_entries E za i entries s in
  Optimizer.output_zip s' = Optimizer.output_zip s
  /\ Optimizer.files_processed s' = Optimizer.files_processed s
  /\ Optimizer.files_decompressed s' = Optimizer.files_decompressed s.
Proof.
  induction entries as [|e entries IH]; intros i s Hall; [repeat split|].
  apply Forall_cons in Hall as [He Hall]. simpl.
  destruct (IH (i + 1)%Z (Optimizer.process_entry E za i e s) Hall) as (-> & -> & ->).
  unfold Optimizer.process_entry, is_file_entry in *.
  destruct (e_stat e) as [st|]; [|repeat split].
  apply negb_false_iff in He. rewrite He. repeat split.
Qed.

End EntryLoop.
Section Idempotence.
Context {C : Codec}.
Variable E : Optimizer.env.

(** C6: the rewrite of an archive that holds no file entry (no entry at
    all, or directory entries only), in stored form or not, does not
    succeed. Given well-formed arguments, an input that opens and an
    output that libzip finalizes, no entry reaches the output archive, so
    libzip writes no output file; the run prints the first lines of the
    summary, with 0 files processed and 0 files decompressed, and then
    ends on the exception that [std::filesystem::file_size] throws: it
    does not return, and there is no exit code. *)
Theorem rewrite_without_files_aborts (fuel : nat) (prog_name optarg : string)
        (block_size : Z) (input_path output_path : string) (za : zip_t) :
  Optimizer.stoull E optarg = Some block_size ->
  (0 <= block_size < two64)%Z -> is_pow2 block_size ->
  Optimizer.fs_exists E input_path = true ->
  Optimizer.zip_open_rdonly E input_path = Some za ->
  Optimizer.zip_open_create E output_path = true ->
  Optimizer.write_ok E = true ->
  Forall (fun e => is_file_entry e = false) za ->
  exists (cout cerr pre : list Optimizer.out_item),
    Optimizer.main E fuel prog_name [Optimizer.opt_b optarg] [input_path; output_path]
    = Optimizer.Uncaught cout cerr
    /\ cout = pre ++ [Optimizer.Str Optimizer.newline;
                      Optimizer.Str ("Optimization complete!" ++ Optimizer.newline);
                      Optimizer.Str "Files processed: "; Optimizer.Num 0;
                      Optimizer.Str Optimizer.newline;
                      Optimizer.Str "Files decompressed: "; Optimizer.Num 0;
                      Optimizer.Str Optimizer.newline;
                      Optimizer.Str "Block size: "; Optimizer.Num block_size;
                      Optimizer.Str (" bytes" ++ Optimizer.newline)].
Proof.
  intros Hparse Hrange Hpow Hexists Hopen Hcreate Hwrite Hnone.
  unfold Optimizer.main, Optimizer.prepare. simpl. rewrite Hparse.
  rewrite (proj2 (block_size_test block_size Hrange) Hpow).
  replace (block_size =? 0)%Z with false
    by (symmetry; apply Z.eqb_neq, pow2_nonzero, Hpow).
  rewrite Hexists, Hopen, Hcreate. simpl.
  match goal with
  | |- context [Optimizer.process_entries E za 0 za ?s0] =>
      destruct (process_entries_no_files E za za 0 s0 Hnone) as (Hout & Hp & Hd);
      set (s := Optimizer.process_entries E za 0 za s0) in *
  end.
  simpl in Hout, Hp, Hd. rewrite Hout. simpl.
  set (pr := if Optimizer.register_progress_ok E then _ else _).
  destruct pr as [last_percent cout1]. rewrite Hwrite, Hp, Hd. simpl.
  unfold Optimizer.finish, Optimizer.output_file_size.
  destruct (Optimizer.file_size E input_path); eexists _, _, _;
    (split; [reflexivity|reflexivity]).
Qed.

(** With a working codec and enough reading rounds for the largest payload
    of the input, the tool ends, whatever its arguments: it returns, or
    the exception of [file_size] ends it. *)
Lemma main_returns {W : CodecWorks C} (fuel : nat) (prog_name : string)
      (opts : list Optimizer.getopt_ret) (positional : list string) :
  (0 < Optimizer.chunk E)%Z ->
  (forall (path : string) (za : zip_t),
      Optimizer.zip_open_rdonly E path = Some za ->
      Forall (fun e => length (e_data e) < fuel) za) ->
  Optimizer.main E fuel prog_name opts positional <> Optimizer.RunOutOfFuel.
Proof.
  intros Hchunk Hfuel. unfold Optimizer.main.
  pose proof (prepare_cases E prog_name opts positional) as Hprep.
  destruct (Optimizer.prepare E prog_name opts positional)
    as [r|[[[[bs input_path] output_path] za] cout0]].
  { destruct Hprep as [_ [code Hcode]]. intros ->. discriminate. }
  destruct Hprep as (_ & _ & Hopen & _).
  set (s := Optimizer.process_entries E za 0 za _).
  assert (Hok : Forall (pending_ok za) (Optimizer.output_zip s)).
  { apply (process_entries_ok E za za 0); [auto|constructor]. }
  destruct (write_pending_works fuel (Optimizer.chunk E) za (Optimizer.output_zip s)
                                Hchunk (Hfuel _ za Hopen) Hok)
    as (entries & -> & _).
  set (pr := if Optimizer.register_progress_ok E then _ else _).
  destruct pr as [last_percent cout1].
  destruct (negb (Optimizer.write_ok E)); [discriminate|].
  unfold Optimizer.finish.
  destruct (Optimizer.file_size E input_path); [|discriminate].
  destruct (Optimizer.output_file_size E output_path entries); discriminate.
Qed.

(** The rewrite of an archive of which at least one entry reaches the
    output: the run returns 0 after the summary, every entry of the
    output holds the payload of an input entry of the same name, and
    every entry that libzip takes is in the output under its name. *)
Lemma main_rewrites {W : CodecWorks C} (fuel : nat) (prog_name optarg : string)
      (block_size : Z) (input_path output_path : string) (za : zip_t)
      (input_size output_size : Z) (k0 : nat) (e0 : zip_entry) :
  Optimizer.stoull E optarg = Some block_size ->
  (0 <= block_size < two64)%Z -> is_pow2 block_size ->
  Optimizer.fs_exists E input_path = true ->
  Optimizer.zip_open_rdonly E input_path = Some za ->
  Optimizer.zip_open_create E output_path = true ->
  Optimizer.write_ok E = true ->
  (0 < Optimizer.chunk E)%Z ->
  Forall (fun e => length (e_data e) < fuel) za ->
  Optimizer.file_size E input_path = Some input_size ->
  Optimizer.file_size E output_path = Some output_size ->
  (0 <= input_size)%Z -> (output_size < two64)%Z ->
  za !! k0 = Some e0 -> added E (Z.of_nat k0) e0 = true ->
  exists (cout cerr : list Optimizer.out_item) (entries : list Optimizer.out_entry),
    Optimizer.main E fuel prog_name [Optimizer.opt_b optarg] [input_path; output_path]
    = Optimizer.Exit 0 cout cerr (Some entries)
    /\ summary_shows (count_from (added E) 0 za)
                     (count_entries counts_as_decompressed za)
                     block_size input_size output_size cout
    /\ Forall (copied_from za) entries
    /\ forall (k : nat) (e : zip_entry),
         za !! k = Some e -> added E (Z.of_nat k) e = true ->
         exists st o, e_stat e = Some st /\ o ∈ entries
                      /\ Optimizer.o_name o = st_name st.
Proof.
  intros Hparse Hrange Hpow Hexists Hopen Hcreate Hwrite Hchunk Hfuel
         Hin Hout Hin0 Hout64 Hk0 Hadd0.
  unfold Optimizer.main, Optimizer.prepare. simpl. rewrite Hparse.
  rewrite (proj2 (block_size_test block_size Hrange) Hpow).
  replace (block_size =? 0)%Z with false
    by (symmetry; apply Z.eqb_neq, pow2_nonzero, Hpow).
  rewrite Hexists, Hopen, Hcreate. simpl.
  match goal with
  | |- context [Optimizer.process_entries E za 0 za ?s0] =>
      destruct (process_entries_counts E za za 0 s0) as [Hp Hd];
      assert (Hno : Forall (fun it => is_pct it = false)
                           (Optimizer.cout (Optimizer.process_entries E za 0 za s0)))
        by (apply process_entries_no_pct; simpl; repeat constructor);
      assert (Hnames : forall k e, za !! k = Some e -> added E (Z.of_nat k) e = true ->
                 exists st, e_stat e = Some st
                   /\ st_name st ∈ map Optimizer.p_name
                        (Optimizer.output_zip (Optimizer.process_entries E za 0 za s0)))
        by (intros k e Hk Ha; apply (process_entries_added E za za 0 s0 k e Hk);
            exact Ha);
      set (s := Optimizer.process_entries E za 0 za s0) in *
  end.
  simpl in Hp, Hd.
  assert (Hok : Forall (pending_ok za) (Optimizer.output_zip s)).
  { apply (process_entries_ok E za za 0); [auto|constructor]. }
  destruct (write_pending_works fuel (Optimizer.chunk E) za (Optimizer.output_zip s)
                                Hchunk Hfuel Hok)
    as (entries & -> & Hcopied & Hentries).
  set (pr := if Optimizer.register_progress_ok E
             then fold_left (fun st p => Optimizer.write_progress_cb p st)
                            (Optimizer.progress_percents E)
                            ((-1)%Z, Optimizer.cout s)
             else ((-1)%Z, Optimizer.cout s)).
  assert (Hprog : Forall (fun it => is_pct it = false) pr.2).
  { subst pr. destruct (Optimizer.register_progress_ok E); [|exact Hno].
    now apply progress_no_pct. }
  destruct pr as [last_percent cout1]. simpl in Hprog. rewrite Hwrite. simpl.
  assert (Hfound : forall k e, za !! k = Some e -> added E (Z.of_nat k) e = true ->
             exists st o, e_stat e = Some st /\ o ∈ entries
                          /\ Optimizer.o_name o = st_name st).
  { intros k e Hk Ha. destruct (Hnames k e Hk Ha) as (st & Hst & Hn).
    rewrite <- Hentries in Hn. apply list_elem_of_fmap in Hn as (o & Ho & Hino).
    exists st, o. auto. }
  unfold Optimizer.finish, Optimizer.output_file_size. rewrite Hin.
  destruct entries as [|o entries].
  { destruct (Hfound k0 e0 Hk0 Hadd0) as (st & o & _ & Ho & _).
    now apply not_elem_of_nil in Ho. }
  rewrite Hout. eexists _, _, _. split; [reflexivity|].
  split; [|split; [exact Hcopied|exact Hfound]].
  rewrite Hp, Hd, Z.add_0_l, Z.add_0_l, <- app_assoc.
  apply summary_shows_intro; [|exact Hin0|exact Hout64].
  destruct (last_percent <? 100)%Z; apply Forall_app; split;
    try exact Hprog; repeat constructor.
Qed.
End Idempotence.

Lemma leading_digits_bounds (s : string) :
  forall acc : Z, (0 <= acc)%Z -> (0 <= leading_digits s acc)%Z.
Proof.
  induction s as [|c s IH]; intros acc Hacc; simpl; [exact Hacc|].
  unfold digit_of.
  destruct ((48 <=? nat_of_ascii c)%nat && (nat_of_ascii c <=? 57)%nat);
    [|exact Hacc].
  apply IH. lia.
Qed.

Lemma sample_stoull_in_range (za : zip_t) (a b : Z) :
  stoull_in_range (sample_env za a b).
Proof.
  intros s v. cbn [Optimizer.stoull sample_env]. unfold sample_stoull.
  destruct (match skip_spaces s with
            | String "-"%char t => (true, t)
            | String "+"%char t => (false, t)
            | _ => (false, skip_spaces s)
            end) as [negative s2].
  destruct s2 as [|c s2']; [discriminate|].
  destruct (digit_of c); [|discriminate].
  pose proof (leading_digits_bounds (String c s2') 0 ltac:(lia)) as Hv.
  set (v0 := leading_digits (String c s2') 0) in *.
  destruct (v0 <? two64)%Z eqn:Elt; [|discriminate].
  apply Z.ltb_lt in Elt. intros [= <-].
  destruct negative; [|lia].
  apply Z.mod_pos_bound. unfold two64. lia.
Qed.

Lemma sample_file_size_in_range (za : zip_t) (a b : Z) :
  (0 <= a < two64)%Z -> (0 <= b < two64)%Z ->
  file_size_in_range (sample_env za a b).
Proof.
  intros Ha Hb p n. simpl. destruct (String.eqb p "in.zip"); intros [= <-]; assumption.
Qed.

Lemma pow2_4096 : is_pow2 4096.
Proof. exists 12%Z. split; [lia|reflexivity]. Qed.

Lemma good_4096 (za : zip_t) (a b : Z) :
  Forall (good_block_size (sample_env za a b)) [Optimizer.opt_b "4096"].
Proof.
  constructor; [|constructor]. exists "4096", 4096%Z.
  split; [reflexivity|]. split; [reflexivity|exact pow2_4096].
Qed.

Lemma not_pow2_3000 : ~ is_pow2 3000.
Proof.
  intros Hp. apply (block_size_test 3000) in Hp; [discriminate|unfold two64; lia].
Qed.

Lemma rewrite_without_files_aborts_witness :
  exists (cout cerr pre : list Optimizer.out_item),
    @Optimizer.main ref_codec (sample_env archive_dirs 400 380) 11 "zip-optimizer"
                    [Optimizer.opt_b "4096"] ["in.zip"; "out.zip"]
    = Optimizer.Uncaught cout cerr
    /\ cout = pre ++ [Optimizer.Str Optimizer.newline;
                      Optimizer.Str ("Optimization complete!" ++ Optimizer.newline);
                      Optimizer.Str "Files processed: "; Optimizer.Num 0;
                      Optimizer.Str Optimizer.newline;
                      Optimizer.Str "Files decompressed: "; Optimizer.Num 0;
                      Optimizer.Str Optimizer.newline;
                      Optimizer.Str "Block size: "; Optimizer.Num 4096;
                      Optimizer.Str (" bytes" ++ Optimizer.newline)].
Proof.
  apply (@rewrite_without_files_aborts ref_codec (sample_env archive_dirs 400 380) 11
           "zip-optimizer" "4096" 4096 "in.zip" "out.zip" archive_dirs).
  - reflexivity.
  - unfold two64; lia.
  - exact pow2_4096.
  - reflexivity.
  - reflexivity.
  - reflexivity.
  - reflexivity.
  - repeat constructor.
Defined.

(** The archive of directory entries is entirely in stored form, and so
    is the empty archive; the rewrite of either ends on the exception. *)
Example stored_archives_that_abort :
  all_stored archive_dirs /\ all_stored []
  /\ exit_code (@Optimizer.main ref_codec (sample_env archive_dirs 400 380) 11
                                "zip-optimizer" [Optimizer.opt_b "4096"]
                                ["in.zip"; "out.zip"]) = None
  /\ exit_code (@Optimizer.main ref_codec (sample_env [] 22 0) 11
                                "zip-optimizer" [Optimizer.opt_b "4096"]
                                ["in.zip"; "out.zip"]) = None.
Proof.
  split; [repeat constructor; intros st [= <-]; reflexivity|].
  split; [constructor|]. split; vm_compute; reflexivity.
Qed.

Lemma stored_archive_all_stored : all_stored archive_stored.
Proof. repeat constructor; intros st [= <-]; reflexivity. Qed.

(** The rewrite of the stored sample archive, run on the reference codec:
    exit code 0, both files copied byte for byte and marked stored, the
    directory entry left out. *)
Example rewrite_stored_runs :
  let r := @Optimizer.main ref_codec (sample_env archive_stored 400 380) 11
                           "zip-optimizer" [Optimizer.opt_b "4096"]
                           ["in.zip"; "out.zip"] in
  exit_code r = Some 0%Z
  /\ run_written r
     = Some [Optimizer.mkOut "d/a.txt" (list_ascii_of_string "alpha") (Some ZIP_CM_STORE);
             Optimizer.mkOut "b.bin" (list_ascii_of_string "0123456789")
                             (Some ZIP_CM_STORE)].
Proof. split; vm_compute; reflexivity. Qed.

(** With too few reading rounds the model says so instead of truncating a
    payload. *)
Example rewrite_needs_fuel :
  @Optimizer.main ref_codec (sample_env archive_stored 400 380) 1 "zip-optimizer"
                  [Optimizer.opt_b "4096"] ["in.zip"; "out.zip"]
  = Optimizer.RunOutOfFuel.
Proof. vm_compute. reflexivity. Qed.


(** [std::stoull] takes the digits a value begins with: [4k] is the
    block size 4, which is a power of two, so the option loop goes past
    it; a value that begins with no digit is refused. *)
Example block_size_leading_digits :
  sample_stoull "4k" = Some 4%Z
  /\ sample_stoull " +512 bytes" = Some 512%Z
  /\ sample_stoull "k4" = None
  /\ sample_stoull "" = None
  /\ @Optimizer.main ref_codec (sample_env archive_stored 400 380) 11 "zip-optimizer"
                     [Optimizer.opt_b "4k"] ["missing.zip"; "out.zip"]
     = Optimizer.Exit 1 []
         [Optimizer.Str "Error: Input file does not exist: ";
          Optimizer.Str "missing.zip"; Optimizer.Str Optimizer.newline] None.
Proof. repeat split; vm_compute; reflexivity. Qed.

Lemma success_summary_witness :
  summary_printed env_increase [Optimizer.opt_b "4096"] ["in.zip"; "out.zip"]
    (count_from (added env_increase) 0)
    (run_cout (@Optimizer.main ref_codec env_increase 11 "zip-optimizer"
                               [Optimizer.opt_b "4096"] ["in.zip"; "out.zip"]))
  /\ summary_printed env_increase [Optimizer.opt_b "4096"] ["in.zip"; "out.zip"]
       (fun za => count_from (@added_buffered ref_codec env_increase za) 0 za)
       (run_cout (@Optimizer.main_buffered ref_codec env_increase "zip-optimizer"
                                           [Optimizer.opt_b "4096"]
                                           ["in.zip"; "out.zip"])).
Proof.
  split.
  - eapply (proj1 (@success_summary ref_codec env_increase 11 "zip-optimizer"
                     [Optimizer.opt_b "4096"] ["in.zip"; "out.zip"] _ _ _
                     (sample_file_size_in_range archive_deflated 120 130
                        ltac:(unfold two64; lia) ltac:(unfold two64; lia)))).
    vm_compute. reflexivity.
  - eapply (proj2 (@success_summary ref_codec env_increase 11 "zip-optimizer"
                     [Optimizer.opt_b "4096"] ["in.zip"; "out.zip"] _ _ _
                     (sample_file_size_in_range archive_deflated 120 130
                        ltac:(unfold two64; lia) ltac:(unfold two64; lia)))).
    vm_compute. reflexivity.
Defined.

(** The summary of that run, in full: one file processed, one
    decompressed, the block size, both sizes, and the increase of 10
    bytes over 120. *)
Example summary_runs :
  drop 26 (run_cout (@Optimizer.main ref_codec env_increase 11 "zip-optimizer"
                                     [Optimizer.opt_b "4096"] ["in.zip"; "out.zip"]))
  = [Optimizer.Str Optimizer.newline;
     Optimizer.Str ("Optimization complete!" ++ Optimizer.newline);
     Optimizer.Str "Files processed: "; Optimizer.Num 1; Optimizer.Str Optimizer.newline;
     Optimizer.Str "Files decompressed: "; Optimizer.Num 1;
     Optimizer.Str Optimizer.newline;
     Optimizer.Str "Block size: "; Optimizer.Num 4096;
     Optimizer.Str (" bytes" ++ Optimizer.newline);
     Optimizer.Str "Input size: "; Optimizer.Num 120;
     Optimizer.Str (" bytes" ++ Optimizer.newline);
     Optimizer.Str "Output size: "; Optimizer.Num 130;
     Optimizer.Str (" bytes" ++ Optimizer.newline);
     Optimizer.Str "Size increase: "; Optimizer.Pct 10 120;
     Optimizer.Str ("% (due to decompression and alignment)" ++ Optimizer.newline)].
Proof. vm_compute. reflexivity. Qed.

(** C8 as stated fails: the rewrite of the stored sample archive exits 0
    and its output (380 bytes) is not larger than its input (400 bytes);
    no percentage is printed. *)
Lemma summary_without_percentage :
  let r := @Optimizer.main ref_codec (sample_env archive_stored 400 380) 11
                           "zip-optimizer" [Optimizer.opt_b "4096"]
                           ["in.zip"; "out.zip"] in
  exit_code r = Some 0%Z /\ ~ prints_percentage (run_cout r).
Proof.
  split; [vm_compute; reflexivity|].
  rewrite prints_percentage_existsb. vm_compute. discriminate.
Qed.

(** The help request is the other run that exits 0 without any summary. *)
Example help_prints_no_summary :
  @Optimizer.main ref_codec (sample_env archive_stored 400 380) 11 "zip-optimizer"
                  [Optimizer.opt_h] []
  = Optimizer.Exit 0 [] (usage_text "zip-optimizer") None.
Proof. reflexivity. Qed.

(** * Further properties *)

(** ** PathSplit: the shape of the segments *)

Lemma lookup_removelast (l : list (nat * nat)) (i : nat) (a : nat * nat) :
  removelast l !! i = Some a -> l !! i = Some a.
Proof.
  rewrite removelast_firstn_len. intros H. now apply lookup_take_Some in H as [H _].
Qed.

Lemma Forall_removelast (P : nat * nat -> Prop) (l : list (nat * nat)) :
  Forall P l -> Forall P (removelast l).
Proof.
  induction 1 as [|x l Hx Hl IH]; simpl; [constructor|].
  destruct l; [constructor|]. constructor; assumption.
Qed.

Lemma increasing_removelast (l : list (nat * nat)) :
  increasing l -> increasing (removelast l).
Proof.
  intros Hinc i j a b Hij Ha Hb.
  apply (Hinc i j a b Hij); now apply lookup_removelast.
Qed.

Lemma increasing_snoc (l : list (nat * nat)) (x : nat * nat) :
  increasing l -> Forall (fun seg => snd seg < fst x) l -> increasing (l ++ [x]).
Proof.
  intros Hinc Hall i j a b Hij Ha Hb.
  apply lookup_snoc_Some in Hb as [[Hj Hb]|[Hj <-]].
  - apply (Hinc i j a b Hij); [|exact Hb].
    rewrite lookup_app_l in Ha by lia. exact Ha.
  - rewrite lookup_app_l in Ha by lia.
    rewrite Forall_forall in Hall. apply Hall. apply list_elem_of_lookup. eauto.
Qed.

Section PathSplitSegments.
Variable pathptr : string.

Local Abbreviation pathlen := (String.length pathptr).

Lemma body_segs_inv (i : nat) (st : PathSplit.locals) :
  i <= pathlen -> run_inv pathptr i st ->
  segs_inv pathptr (PathSplit.seg_start st) (PathSplit.segments_ st) ->
  segs_inv pathptr (PathSplit.seg_start (PathSplit.body pathptr pathlen i st))
           (PathSplit.segments_ (PathSplit.body pathptr pathlen i st)).
Proof.
  intros Hi (Hstart & Hle & Hrun) (Hdel & Hend & Hinc). unfold PathSplit.body.
  destruct ((i =? pathlen)%nat || PathSplit.at_ pathptr i "/"%char) eqn:Efound;
    [|now repeat split].
  assert (Hend' : Forall (fun seg => snd seg < i + 1) (PathSplit.segments_ st)).
  { eapply Forall_impl; [exact Hend|]. simpl. intros seg ?. lia. }
  destruct (i - PathSplit.seg_start st =? 0)%nat eqn:E0; [now repeat split|].
  apply Nat.eqb_neq in E0.
  destruct ((i - PathSplit.seg_start st =? 1)%nat && _); [now repeat split|].
  destruct ((i - PathSplit.seg_start st =? 2)%nat && _ && _); simpl.
  { destruct (PathSplit.segments_ st) eqn:El; [now repeat split|].
    rewrite <- El in *. unfold PathSplit.pop_back. split; [|split].
    - now apply Forall_removelast.
    - now apply Forall_removelast.
    - now apply increasing_removelast. }
  split; [|split].
  - apply Forall_app. split; [exact Hdel|]. constructor; [|constructor].
    split; [|split]; simpl.
    + exact Hrun.
    + exact Hstart.
    + apply orb_true_iff in Efound as [Heq|Hslash]; [left|right; exact Hslash].
      now apply Nat.eqb_eq in Heq.
  - apply Forall_app. split; [exact Hend'|]. constructor; [simpl; lia|constructor].
  - apply increasing_snoc; [exact Hinc|exact Hend].
Qed.

Lemma body_run_inv (i : nat) (st : PathSplit.locals) :
  i < pathlen -> run_inv pathptr i st ->
  run_inv pathptr (S i) (PathSplit.body pathptr pathlen i st).
Proof.
  intros Hi (Hstart & Hle & Hrun).
  split; [apply body_start_inv; assumption|].
  unfold PathSplit.body.
  replace (i =? pathlen)%nat with false by (symmetry; apply Nat.eqb_neq; lia).
  simpl. destruct (PathSplit.at_ pathptr i "/"%char) eqn:Hat.
  - simpl. split; [lia|]. intros k Hk. lia.
  - split; [lia|]. intros k Hk. destruct (decide (k = i)) as [->|Hne]; [exact Hat|].
    apply Hrun. lia.
Qed.

Lemma loop_segs_inv (n : nat) : forall i st,
  i + n <= pathlen -> run_inv pathptr i st ->
  segs_inv pathptr (PathSplit.seg_start st) (PathSplit.segments_ st) ->
  let st' := PathSplit.loop pathptr pathlen n i st in
  run_inv pathptr (i + n) st'
  /\ segs_inv pathptr (PathSplit.seg_start st') (PathSplit.segments_ st').
Proof.
  induction n as [|n IH]; intros i st Hi Hrun Hsegs; simpl.
  - now rewrite Nat.add_0_r.
  - replace (i + S n) with (S i + n) by lia. apply IH; [lia| |].
    + apply body_run_inv; [lia|exact Hrun].
    + apply body_segs_inv; [lia|exact Hrun|exact Hsegs].
Qed.

Lemma PathSplit_segs_inv :
  exists ss, segs_inv pathptr ss (PathSplit.segments (PathSplit.of_string pathptr)).
Proof.
  unfold PathSplit.of_string, PathSplit.make. rewrite loop_snoc.
  cbn [PathSplit.segments Nat.add].
  destruct (loop_segs_inv pathlen 0 (PathSplit.mkLocals 0 [] false)) as [Hrun Hsegs].
  - lia.
  - split; [now left|]. split; simpl; [lia|]. intros k Hk. lia.
  - split; [constructor|]. split; [constructor|]. intros i j a b _ Ha. discriminate.
  - eexists. apply body_segs_inv; [lia|exact Hrun|exact Hsegs].
Qed.
End PathSplitSegments.

(** X1: the segments of a normalised path lie inside the path and come in
    the order of the path without touching: each one ends at or before the
    end of the path and strictly before the next one starts. *)
Theorem PathSplit_segments_ordered (path : string) :
  let segs := PathSplit.segments (PathSplit.of_string path) in
  Forall (fun seg => snd seg <= String.length path) segs
  /\ forall i j a b, i < j -> segs !! i = Some a -> segs !! j = Some b ->
                     snd a < fst b.
Proof.
  split.
  - destruct (PathSplit_loop_bounds path) as [_ Hg].
    unfold PathSplit.of_string, PathSplit.make; simpl.
    eapply Forall_impl; [exact Hg|]. intros seg (_ & H & _). exact H.
  - destruct (PathSplit_segs_inv path) as (ss & _ & _ & Hinc). exact Hinc.
Qed.

(** X2: every segment of a normalised path is a whole component of the
    input: there is no [/] inside it, it starts at the beginning of the
    path or right after a [/], and it ends at the end of the path or right
    before a [/]. *)
Theorem PathSplit_segments_delimited (path : string) :
  Forall (fun seg =>
            (forall k, fst seg <= k < snd seg -> PathSplit.at_ path k "/"%char = false)
            /\ (fst seg = 0 \/ PathSplit.at_ path (fst seg - 1) "/"%char = true)
            /\ (snd seg = String.length path
                \/ PathSplit.at_ path (snd seg) "/"%char = true))
         (PathSplit.segments (PathSplit.of_string path)).
Proof.
  destruct (PathSplit_segs_inv path) as (ss & Hdel & _). exact Hdel.
Qed.

(** ** PathSplit: a leading separator *)

Lemma removelast_map_shift (l : list (nat * nat)) :
  removelast (map shift_seg l) = map shift_seg (removelast l).
Proof.
  induction l as [|x l IH]; simpl; [reflexivity|].
  destruct l; simpl in *; [reflexivity|]. now rewrite IH.
Qed.

Section LeadingSlash.
Variable c : ascii.
Variable p : string.

Local Abbreviation len := (String.length p).

Lemma at_shift (i : nat) (x : ascii) :
  PathSplit.at_ (String c p) (S i) x = PathSplit.at_ p i x.
Proof. reflexivity. Qed.

Lemma body_shift (i : nat) (st : PathSplit.locals) :
  PathSplit.body (String c p) (S len) (S i) (shift_locals st)
  = shift_locals (PathSplit.body p len i st).
Proof.
  unfold PathSplit.body. rewrite at_shift.
  change (S i =? S len)%nat with (i =? len)%nat.
  destruct ((i =? len)%nat || PathSplit.at_ p i "/"%char); [|reflexivity].
  cbn [shift_locals PathSplit.seg_start PathSplit.segments_ PathSplit.last_was_dots].
  change (S i - S (PathSplit.seg_start st)) with (i - PathSplit.seg_start st).
  change (S (PathSplit.seg_start st) + 1) with (S (PathSplit.seg_start st + 1)).
  rewrite !at_shift.
  destruct (i - PathSplit.seg_start st =? 0)%nat; [reflexivity|].
  destruct ((i - PathSplit.seg_start st =? 1)%nat && _); [reflexivity|].
  destruct ((i - PathSplit.seg_start st =? 2)%nat && _ && _).
  - unfold shift_locals; simpl. f_equal.
    destruct (PathSplit.segments_ st); [reflexivity|].
    unfold PathSplit.pop_back.
    change (shift_seg p0 :: map shift_seg l) with (map shift_seg (p0 :: l)).
    apply removelast_map_shift.
  - unfold shift_locals; simpl. f_equal. now rewrite map_app.
Qed.

Lemma loop_shift (n : nat) : forall i st,
  PathSplit.loop (String c p) (S len) n (S i) (shift_locals st)
  = shift_locals (PathSplit.loop p len n i st).
Proof.
  induction n as [|n IH]; intros i st; simpl; [reflexivity|].
  rewrite body_shift. apply IH.
Qed.

Lemma seg_name_shift (seg : nat * nat) :
  PathSplit.seg_name (String c p) (shift_seg seg) = PathSplit.seg_name p seg.
Proof. destruct seg as [a b]. reflexivity. Qed.
End LeadingSlash.

(** The normaliser on [/p] and on [p]. *)
Lemma of_string_leading_slash (p : string) :
  PathSplit.names (String "/" p) = PathSplit.names p
  /\ (p <> "" ->
      PathSplit.is_dir (PathSplit.of_string (String "/" p))
      = PathSplit.is_dir (PathSplit.of_string p)).
Proof.
  assert (Hloop : PathSplit.loop (String "/" p) (S (String.length p))
                                 (S (S (String.length p))) 0
                                 (PathSplit.mkLocals 0 [] false)
                  = shift_locals (PathSplit.loop p (String.length p)
                                                 (S (String.length p)) 0
                                                 (PathSplit.mkLocals 0 [] false))).
  { change (PathSplit.loop (String "/" p) (S (String.length p))
                           (S (S (String.length p))) 0 (PathSplit.mkLocals 0 [] false))
      with (PathSplit.loop (String "/" p) (S (String.length p))
                           (S (String.length p)) 1
                           (shift_locals (PathSplit.mkLocals 0 [] false))).
    apply loop_shift. }
  split.
  - unfold PathSplit.names, PathSplit.of_string, PathSplit.make.
    change (String.length (String "/" p)) with (S (String.length p)).
    rewrite Hloop. cbn [PathSplit.segments shift_locals PathSplit.segments_].
    rewrite map_map. apply map_ext. intros seg. apply seg_name_shift.
  - intros Hne. unfold PathSplit.of_string, PathSplit.make.
    change (String.length (String "/" p)) with (S (String.length p)).
    rewrite Hloop. cbn [PathSplit.is_dir shift_locals PathSplit.last_was_dots].
    f_equal. destruct p as [|c' p']; [congruence|].
    cbn [String.length]. change (0 <? S _)%nat with true. cbv iota.
    rewrite !Nat.sub_succ, !Nat.sub_0_r. reflexivity.
Qed.

(** X3: a leading [/] does not change what a path normalises to: the
    components of [/p] are the components of [p], byte for byte, and for a
    non-empty [p] both are marked as a directory or both are not. *)
Theorem PathSplit_leading_slash (p : string) :
  PathSplit.names (String "/" p) = PathSplit.names p
  /\ (p <> "" ->
      PathSplit.is_dir (PathSplit.of_string (String "/" p))
      = PathSplit.is_dir (PathSplit.of_string p)).
Proof.
  exact (of_string_leading_slash p).
Qed.

Lemma PathSplit_leading_slash_witness :
  PathSplit.names "/x/y.txt" = PathSplit.names "x/y.txt"
  /\ PathSplit.is_dir (PathSplit.of_string "/x/y.txt")
     = PathSplit.is_dir (PathSplit.of_string "x/y.txt").
Proof.
  split.
  - exact (proj1 (PathSplit_leading_slash "x/y.txt")).
  - apply (proj2 (PathSplit_leading_slash "x/y.txt")). discriminate.
Defined.

Lemma file_path_leading_slash (p : string) :
  file_path (String "/" p) = file_path p.
Proof.
  destruct (of_string_leading_slash p) as [Hnames Hdir].
  unfold file_path. rewrite Hnames.
  destruct p as [|c p']; [reflexivity|].
  rewrite Hdir by discriminate. reflexivity.
Qed.

(** X4: the index answers the same for [/p] and [p]: both lookups, and
    with them the attribute query, the directory listing, open and read.
    The paths FUSE hands over start with [/], the names of archive entries
    do not. *)
Theorem leading_slash_ignored {C : Codec} (m : ZipEntryManagerImpl) (p : string)
        (zip_open : string -> option zip_t) (accmode size offset : Z) :
  lookup_file m (String "/" p) = lookup_file m p
  /\ lookup_dir m (String "/" p) = lookup_dir m p
  /\ zipfs_getattr m (String "/" p) = zipfs_getattr m p
  /\ zipfs_readdir m (String "/" p) = zipfs_readdir m p
  /\ zipfs_open m (String "/" p) accmode = zipfs_open m p accmode
  /\ zipfs_read m zip_open (String "/" p) size offset
     = zipfs_read m zip_open p size offset.
Proof.
  assert (Hfile : lookup_file m (String "/" p) = lookup_file m p)
    by (rewrite !lookup_file_file_path, file_path_leading_slash; reflexivity).
  assert (Hdir : lookup_dir m (String "/" p) = lookup_dir m p).
  { rewrite !lookup_dir_walk. now rewrite (proj1 (of_string_leading_slash p)). }
  unfold zipfs_getattr, zipfs_readdir, zipfs_open, zipfs_read.
  rewrite Hfile, Hdir. repeat split; reflexivity.
Qed.

(** ** The merged index: what indexing an archive does *)

Lemma indexed_root (m : ZipEntryManagerImpl) (abs_path : string) (za : zip_t) :
  root_ (indexed m abs_path za)
  = (index_entries (length (zip_path_lst_ m)) 0 za (root_ m) (mkStats 0 0 0 0)).1.
Proof.
  unfold indexed. destruct (index_zipfile_Some m abs_path za) as [s ->]. reflexivity.
Qed.

Lemma indexed_paths (m : ZipEntryManagerImpl) (abs_path : string) (za : zip_t) :
  zip_path_lst_ (indexed m abs_path za) = zip_path_lst_ m ++ [abs_path].
Proof.
  unfold indexed. destruct (index_zipfile_Some m abs_path za) as [s ->]. reflexivity.
Qed.

Lemma indexed_eq (m m' : ZipEntryManagerImpl) (abs_path : string) (za : zip_t)
      (s : index_stats) :
  index_zipfile m abs_path (Some za) = Some (m', s) -> m' = indexed m abs_path za.
Proof. intros H. unfold indexed. now rewrite H. Qed.

Lemma entry_path_file_path (e : zip_entry) (st : zip_stat) (ds : list string)
      (f : string) :
  entry_path e = Some (st, ds, f) ->
  e_stat e = Some st /\ file_path (st_name st) = Some (ds, f).
Proof.
  unfold entry_path. destruct (e_stat e) as [st'|]; [|discriminate].
  destruct (_ && _); [|discriminate].
  destruct (file_path (st_name st')) as [[ds' f']|] eqn:Ep; [|discriminate].
  intros [= <- <- <-]. split; [reflexivity|exact Ep].
Qed.

(** The file at a place after indexing: the record that was there, or
    else the record of the archive's first entry of that place. *)
Lemma index_entries_lookup (zip_idx : nat) (ds : list string) (f : string)
      (za : list zip_entry) :
  forall (i : Z) (root : DirectoryEntry) (s : index_stats),
  (exists x, file_at ds f root = Some x
             /\ file_at ds f (index_entries zip_idx i za root s).1 = Some x)
  \/ (file_at ds f root = None
      /\ Forall (fun e => forall st, entry_path e <> Some (st, ds, f)) za
      /\ file_at ds f (index_entries zip_idx i za root s).1 = None)
  \/ (file_at ds f root = None
      /\ exists k e st,
          za !! k = Some e /\ entry_path e = Some (st, ds, f)
          /\ (forall j e' st', j < k -> za !! j = Some e' ->
                               entry_path e' <> Some (st', ds, f))
          /\ file_at ds f (index_entries zip_idx i za root s).1
             = Some (make_file_entry zip_idx (i + Z.of_nat k) st)).
Proof.
  induction za as [|e za IH]; intros i root s.
  - destruct (file_at ds f root) as [x|] eqn:E; [left; eauto|].
    right; left. repeat split; [constructor|exact E].
  - destruct (file_at ds f root) as [x|] eqn:E.
    { left. exists x. split; [reflexivity|]. now apply index_entries_file_kept. }
    right. destruct (index_entries_cons zip_idx i e za root s) as [s' ->].
    destruct (entry_path e) as [[[st ds'] f']|] eqn:Ee.
    + destruct (decide ((ds, f) = (ds', f'))) as [Heq|Hne].
      * injection Heq as <- <-. right. split; [reflexivity|].
        exists 0, e, st. repeat split; [exact Ee|intros; lia|].
        rewrite Z.add_0_r. apply index_entries_file_kept.
        rewrite index_entry_root, Ee, file_at_insert_at, E. now rewrite decide_True.
      * assert (E1 : file_at ds f (index_entry zip_idx i e root).1 = None).
        { rewrite index_entry_root, Ee, file_at_insert_at, E. now rewrite decide_False. }
        destruct (IH (i + 1)%Z (index_entry zip_idx i e root).1 s')
          as [(x & Hx & _)|[(_ & Hall & Hnone)|(_ & k & e' & st' & Hk & He' & Hfirst & Hf)]].
        -- congruence.
        -- left. repeat split; [|exact Hnone]. constructor; [|exact Hall].
           intros st0 H0. rewrite Ee in H0. congruence.
        -- right. split; [reflexivity|]. exists (S k), e', st'.
           repeat split; [exact Hk|exact He'| |].
           ++ intros j e0 st0 Hj Hl. destruct j as [|j].
              ** simpl in Hl. injection Hl as <-. rewrite Ee. congruence.
              ** apply (Hfirst j); [lia|exact Hl].
           ++ rewrite Hf. do 2 f_equal. lia.
    + assert (E1 : file_at ds f (index_entry zip_idx i e root).1 = None)
        by (rewrite index_entry_root, Ee; exact E).
      destruct (IH (i + 1)%Z (index_entry zip_idx i e root).1 s')
        as [(x & Hx & _)|[(_ & Hall & Hnone)|(_ & k & e' & st' & Hk & He' & Hfirst & Hf)]].
      * congruence.
      * left. repeat split; [|exact Hnone]. constructor; [|exact Hall].
        intros st0 H0. rewrite Ee in H0. discriminate.
      * right. split; [reflexivity|]. exists (S k), e', st'.
        repeat split; [exact Hk|exact He'| |].
        -- intros j e0 st0 Hj Hl. destruct j as [|j].
           ++ simpl in Hl. injection Hl as <-. rewrite Ee. discriminate.
           ++ apply (Hfirst j); [lia|exact Hl].
        -- rewrite Hf. do 2 f_equal. lia.
Qed.

(** X5: what a lookup finds after indexing an archive. A record that was
    in the index is found unchanged. Where the index had no file, the
    lookup finds nothing if no entry of the archive normalises to the
    path, and otherwise finds the record built from the first such entry:
    its archive is the new one, its size the declared size, and its
    locator the entry's position when the entry's compressed size is
    valid, and 0 otherwise. *)
Theorem lookup_after_indexing (m : ZipEntryManagerImpl) (abs_path : string)
        (za : zip_t) (q : string) (ds : list string) (f : string) :
  file_path q = Some (ds, f) ->
  (forall r, lookup_file m q = Some r ->
             lookup_file (indexed m abs_path za) q = Some r)
  /\ (lookup_file m q = None ->
      (forall k e st, za !! k = Some e -> entry_path e <> Some (st, ds, f)) ->
      lookup_file (indexed m abs_path za) q = None)
  /\ (lookup_file m q = None ->
      forall k e st,
        za !! k = Some e -> entry_path e = Some (st, ds, f) ->
        (forall j e' st', j < k -> za !! j = Some e' ->
                          entry_path e' <> Some (st', ds, f)) ->
        lookup_file (indexed m abs_path za) q
        = Some (make_file_entry (length (zip_path_lst_ m)) (Z.of_nat k) st)
        /\ get_zip_path (indexed m abs_path za) (length (zip_path_lst_ m))
           = Some abs_path
        /\ exists r,
            lookup_file (indexed m abs_path za) q = Some r
            /\ zip_path_idx_ r = length (zip_path_lst_ m)
            /\ size_ r = st_size st
            /\ offset_ r = (if has_flag (st_valid st) ZIP_STAT_COMP_SIZE
                            then Z.of_nat k else 0%Z)).
Proof.
  intros Hq. rewrite !lookup_file_file_path, Hq, indexed_root.
  pose proof (index_entries_lookup (length (zip_path_lst_ m)) ds f za 0 (root_ m)
                                   (mkStats 0 0 0 0)) as Hcases.
  split; [|split].
  - intros r Hr. now apply index_entries_file_kept.
  - intros Hnone Hno.
    destruct Hcases as [(x & Hx & _)|[(_ & _ & H)|(_ & k & e & st & Hk & He & _)]];
      [congruence|exact H|].
    exfalso. exact (Hno k e st Hk He).
  - intros Hnone k e st Hk He Hfirst.
    destruct Hcases as [(x & Hx & _)|[(_ & Hall & _)|(_ & k' & e' & st' & Hk' & He' & Hfirst' & Hf)]].
    + congruence.
    + exfalso. rewrite Forall_forall in Hall.
      apply (Hall e (proj2 (list_elem_of_lookup za e) (ex_intro _ k Hk)) st He).
    + assert (Hkk : k' = k).
      { destruct (Nat.lt_trichotomy k' k) as [Hlt|[Heq|Hgt]]; [|exact Heq|].
        - exfalso. exact (Hfirst k' e' st' Hlt Hk' He').
        - exfalso. exact (Hfirst' k e st Hgt Hk He). }
      subst k'.
      assert (Hee : Some e' = Some e)
        by (transitivity (za !! k); [symmetry; exact Hk'|exact Hk]).
      injection Hee as ->. rewrite He in He'. injection He' as <-.
      split; [exact Hf|]. split.
      * unfold get_zip_path. rewrite indexed_paths. now apply list_lookup_middle.
      * eexists. split; [exact Hf|]. repeat split.
Qed.

Lemma lookup_after_indexing_witness :
  (forall r, lookup_file manager_F "x/y.txt" = Some r ->
             lookup_file (indexed manager_F "/A.zip" archive_A) "x/y.txt" = Some r)
  /\ lookup_file (indexed manager_F "/A.zip" archive_A) "f"
     = lookup_file manager_F "f"
  /\ lookup_file (indexed manager_F "/A.zip" archive_A) "nothing" = None
  /\ lookup_file (indexed manager_F "/A.zip" archive_A) "x/y.txt"
     = Some (make_file_entry 2 (Z.of_nat 0) (mkStat 127 "x/y.txt" 1 1 0 ZIP_CM_STORE)).
Proof.
  split; [|split; [|split]].
  - exact (proj1 (lookup_after_indexing manager_F "/A.zip" archive_A "x/y.txt"
                                        ["x"] "y.txt" eq_refl)).
  - exact (proj1 (lookup_after_indexing manager_F "/A.zip" archive_A "f" [] "f" eq_refl)
                 (mkFile 1 10 10 0 false) eq_refl).
  - apply (proj1 (proj2 (lookup_after_indexing manager_F "/A.zip" archive_A "nothing"
                                               [] "nothing" eq_refl)));
      [reflexivity|].
    intros [|k] e st Hk; [|destruct k; discriminate]. injection Hk as <-. discriminate.
  - apply (proj2 (proj2 (lookup_after_indexing manager_F "/A.zip" archive_A "x/y.txt"
                                               ["x"] "y.txt" eq_refl))
                 eq_refl 0 (stored_entry "x/y.txt" ["1"%char])
                 (mkStat 127 "x/y.txt" 1 1 0 ZIP_CM_STORE) eq_refl eq_refl).
    intros j e' st' Hj. lia.
Defined.

(** The locator, run: the entry [b] has no valid compressed size, so its
    record points at entry 0, and a read of [b] returns the bytes of
    [a]. *)
Example locator_without_comp_size :
  let m := indexed new_manager "/N.zip" archive_N in
  lookup_file m "b" = Some (mkFile 1 4 0 0 false)
  /\ @zipfs_read ref_codec m (fun _ => Some archive_N) "b" 4 0
     = ReadReturn 4 (list_ascii_of_string "AAAA").
Proof. split; vm_compute; reflexivity. Qed.

Lemma passed_over_no_path (e : zip_entry) : passed_over e -> entry_path e = None.
Proof.
  unfold passed_over, entry_path, file_path. destruct (e_stat e) as [st|]; [|reflexivity].
  intros [H|[H|[H|H]]]; rewrite ?H, ?andb_false_r; try reflexivity.
  - destruct (_ && _); reflexivity.
  - destruct (_ && _); [|reflexivity]. now destruct (String.length _ =? 0)%nat.
Qed.

Lemma index_entries_passed_over (zip_idx : nat) (za : list zip_entry) :
  forall (i : Z) (root : DirectoryEntry) (s : index_stats),
  Forall passed_over za -> (index_entries zip_idx i za root s).1 = root.
Proof.
  induction za as [|e za IH]; intros i root s Hall; [reflexivity|].
  apply Forall_cons in Hall as [He Hall].
  destruct (index_entries_cons zip_idx i e za root s) as [s' ->].
  rewrite IH by exact Hall. rewrite index_entry_root.
  now rewrite (passed_over_no_path e He).
Qed.

Lemma trailing_slash_passed_over (name : string) (data : list ascii) (st : zip_stat) :
  st_name st = name ->
  (0 <? String.length name)%nat
  && PathSplit.at_ name (String.length name - 1) "/"%char = true ->
  passed_over (mkEntry (Some st) data).
Proof.
  intros <- H. unfold passed_over; simpl. right; right; right.
  now apply is_dir_trailing_slash.
Qed.

(** X6: entries that are passed over leave no trace. An archive all of
    whose entries are directory entries (names that end in [/], or that
    the normaliser marks as directories), have an empty name, lack the
    name or size metadata, or whose [zip_stat] fails, leaves the tree as
    it was: an empty directory of an archive is not a directory of the
    index. Only the archive path is registered. *)
Theorem passed_over_entries_leave_tree (m : ZipEntryManagerImpl) (abs_path : string)
        (za : zip_t) :
  Forall passed_over za ->
  root_ (indexed m abs_path za) = root_ m
  /\ zip_path_lst_ (indexed m abs_path za) = zip_path_lst_ m ++ [abs_path]
  /\ forall q, lookup_dir (indexed m abs_path za) q = lookup_dir m q
               /\ lookup_file (indexed m abs_path za) q = lookup_file m q.
Proof.
  intros Hall.
  assert (Hroot : root_ (indexed m abs_path za) = root_ m)
    by (rewrite indexed_root; now apply index_entries_passed_over).
  split; [exact Hroot|]. split; [apply indexed_paths|].
  intros q. unfold lookup_dir, lookup_file. now rewrite Hroot.
Qed.

Lemma passed_over_entries_leave_tree_witness :
  let za := [stored_entry "empty/" []; stored_entry "a/b/" []; mkEntry None []] in
  root_ (indexed manager_F "/E.zip" za) = root_ manager_F
  /\ zip_path_lst_ (indexed manager_F "/E.zip" za) = zip_path_lst_ manager_F ++ ["/E.zip"]
  /\ forall q, lookup_dir (indexed manager_F "/E.zip" za) q = lookup_dir manager_F q
               /\ lookup_file (indexed manager_F "/E.zip" za) q = lookup_file manager_F q.
Proof.
  apply (passed_over_entries_leave_tree manager_F "/E.zip").
  constructor; [right; right; right; reflexivity|].
  constructor; [right; right; right; reflexivity|].
  constructor; [exact I|constructor].
Defined.

(** A record of the tree after indexing was there before or carries the
    new archive's slot. *)
Lemma index_entries_origin (zip_idx : nat) (ds : list string) (f : string)
      (za : list zip_entry) (i : Z) (root : DirectoryEntry) (s : index_stats)
      (x : FileEntry) :
  file_at ds f (index_entries zip_idx i za root s).1 = Some x ->
  file_at ds f root = Some x \/ zip_path_idx_ x = zip_idx.
Proof.
  intros Hx.
  destruct (index_entries_lookup zip_idx ds f za i root s)
    as [(x0 & Hx0 & Hk)|[(_ & _ & Hnone)|(_ & k & e & st & _ & _ & _ & Hf)]].
  - left. congruence.
  - congruence.
  - right. rewrite Hf in Hx. injection Hx as <-. reflexivity.
Qed.

Lemma indexed_index_ok (m : ZipEntryManagerImpl) (abs_path : string) (za : zip_t) :
  index_ok m -> index_ok (indexed m abs_path za).
Proof.
  intros [Hlen Hok]. unfold index_ok. rewrite indexed_paths, length_app, indexed_root.
  simpl. split; [lia|]. intros ds f x Hx.
  apply index_entries_origin in Hx as [Hx| ->]; [|lia].
  specialize (Hok ds f x Hx). lia.
Qed.

Lemma built_index_ok (m : ZipEntryManagerImpl) : built m -> index_ok m.
Proof.
  induction 1 as [|m m' abs_path za s _ IH Hidx].
  - split; [simpl; lia|]. intros ds f x Hx. simpl in Hx.
    rewrite file_at_empty_dir in Hx. discriminate.
  - rewrite (indexed_eq _ _ _ _ _ Hidx). now apply indexed_index_ok.
Qed.

(** X7: in every index the mount tool can build (the fresh manager, then
    any number of archives indexed), each record found by [lookup_file]
    points at a registered archive path, never at slot 0 (which holds the
    empty name of the root); so [get_zip_path] in [zipfs_read] stays in
    range, whatever the codec does. *)
Theorem built_records_in_range {C : Codec} (m : ZipEntryManagerImpl) :
  built m ->
  (forall (q : string) (r : FileEntry),
      lookup_file m q = Some r ->
      1 <= zip_path_idx_ r /\ is_Some (get_zip_path m (zip_path_idx_ r)))
  /\ forall (zip_open : string -> option zip_t) (q : string) (size offset : Z),
      zipfs_read m zip_open q size offset <> ReadUndefined.
Proof.
  intros Hb. destruct (built_index_ok m Hb) as [_ Hok].
  assert (Hrange : forall q r, lookup_file m q = Some r ->
                               1 <= zip_path_idx_ r
                               /\ is_Some (get_zip_path m (zip_path_idx_ r))).
  { intros q r Hr. rewrite lookup_file_file_path in Hr.
    destruct (file_path q) as [[ds f]|]; [|discriminate].
    destruct (Hok ds f r Hr) as [H1 H2]. split; [exact H1|].
    apply lookup_lt_is_Some. exact H2. }
  split; [exact Hrange|].
  intros zip_open q size offset. unfold zipfs_read.
  destruct (lookup_file m q) as [file|] eqn:Hfile; [|discriminate].
  destruct (offset >=? _)%Z; [discriminate|].
  destruct (Hrange q file Hfile) as [_ [p Hp]]. rewrite Hp.
  destruct (zip_open p); [|discriminate].
  destruct (zip_fopen_index _ _) as [zf|]; [|discriminate].
  destruct (if (offset >? 0)%Z then _ else _) as [zf1| |]; try discriminate.
  destruct (zip_fread zf1 _) as [[n buf] ?]. destruct (n <? 0)%Z; discriminate.
Qed.

Lemma built_records_in_range_witness :
  (forall (q : string) (r : FileEntry),
      lookup_file (indexed manager_F "/A.zip" archive_A) q = Some r ->
      1 <= zip_path_idx_ r
      /\ is_Some (get_zip_path (indexed manager_F "/A.zip" archive_A) (zip_path_idx_ r)))
  /\ forall (zip_open : string -> option zip_t) (q : string) (size offset : Z),
      @zipfs_read ref_codec (indexed manager_F "/A.zip" archive_A) zip_open q size offset
      <> ReadUndefined.
Proof.
  apply (@built_records_in_range ref_codec).
  apply (built_index manager_F _ "/A.zip" archive_A (mkStats 1 0 0 0));
    [|reflexivity].
  apply (built_index new_manager _ "/F.zip" archive_F (mkStats 1 0 0 0));
    [exact built_new|reflexivity].
Defined.

(** ** The directory listing *)

Lemma keys_of_map {A : Type} (mp : gmap string A) (n : string) :
  n ∈ map fst (map_to_list mp) <-> is_Some (mp !! n).
Proof.
  split.
  - intros Hin. apply list_elem_of_fmap in Hin as ([k v] & -> & Hkv).
    apply elem_of_map_to_list in Hkv. simpl. eauto.
  - intros [v Hv]. apply list_elem_of_fmap. exists (n, v).
    split; [reflexivity|]. now apply elem_of_map_to_list.
Qed.

(** X8: the directory listing. On a path that is not a directory of the
    index the listing fails with [-ENOENT] and names nothing. Otherwise it
    is [.], [..], then the names of the sub-directories, then the names of
    the files; no name comes twice within a group, and a name is in a group
    exactly when the directory has a child of that kind under it. *)
Theorem readdir_lists_children (m : ZipEntryManagerImpl) (path : string) :
  (lookup_dir m path = None -> zipfs_readdir m path = ((- ENOENT)%Z, []))
  /\ forall d, lookup_dir m path = Some d ->
     exists dnames fnames,
       zipfs_readdir m path = (0%Z, "." :: ".." :: dnames ++ fnames)
       /\ NoDup dnames /\ NoDup fnames
       /\ (forall n, n ∈ dnames <-> is_Some (find_dir d n))
       /\ (forall n, n ∈ fnames <-> is_Some (find_file d n)).
Proof.
  unfold zipfs_readdir. split; [now intros ->|].
  intros d ->. exists (map fst (map_to_list (dirs_ d))), (map fst (map_to_list (files_ d))).
  split; [reflexivity|].
  split; [apply NoDup_fst_map_to_list|]. split; [apply NoDup_fst_map_to_list|].
  split; intros n; apply keys_of_map.
Qed.

Lemma readdir_lists_children_witness :
  zipfs_readdir manager_F "missing" = ((- ENOENT)%Z, [])
  /\ exists dnames fnames,
      zipfs_readdir manager_F "/" = (0%Z, "." :: ".." :: dnames ++ fnames)
      /\ NoDup dnames /\ NoDup fnames
      /\ (forall n, n ∈ dnames <-> is_Some (find_dir (root_ manager_F) n))
      /\ (forall n, n ∈ fnames <-> is_Some (find_file (root_ manager_F) n)).
Proof.
  split.
  - apply (proj1 (readdir_lists_children manager_F "missing")). reflexivity.
  - apply (proj2 (readdir_lists_children manager_F "/") (root_ manager_F)). reflexivity.
Defined.

Lemma walk_dirs_snoc (pre : list string) (n : string) (root c : DirectoryEntry) :
  walk_dirs (pre ++ [n]) root = Some c ->
  exists d, walk_dirs pre root = Some d /\ find_dir d n = Some c.
Proof.
  rewrite walk_dirs_app. destruct (walk_dirs pre root) as [d|]; [|discriminate].
  simpl. destruct (find_dir d n) as [c'|] eqn:E; [|discriminate].
  intros [= <-]. eauto.
Qed.

(** X9: the directories on the way to an indexed file are made on the
    fly, and the listings show the way. After indexing an archive that has
    a file entry at [ds/f]: every path whose components are a front part of
    [ds] is a directory of the index; its listing names the next component
    of [ds]; and the listing of a path whose components are [ds] names
    [f]. *)
Theorem indexed_file_is_listed (m : ZipEntryManagerImpl) (abs_path : string)
        (za : zip_t) (k : nat) (e : zip_entry) (st : zip_stat)
        (ds : list string) (f : string) :
  za !! k = Some e -> entry_path e = Some (st, ds, f) ->
  let m' := indexed m abs_path za in
  (forall q suf, ds = PathSplit.names q ++ suf -> is_Some (lookup_dir m' q))
  /\ (forall q n suf, ds = PathSplit.names q ++ n :: suf ->
                      (zipfs_readdir m' q).1 = 0%Z /\ n ∈ (zipfs_readdir m' q).2)
  /\ (forall q, ds = PathSplit.names q ->
                (zipfs_readdir m' q).1 = 0%Z /\ f ∈ (zipfs_readdir m' q).2).
Proof.
  intros Hk He m'.
  assert (Hdirs : forall pre suf, ds = pre ++ suf -> is_Some (walk_dirs pre (root_ m'))).
  { intros pre suf ->. subst m'. rewrite indexed_root.
    exact (index_entries_makes_dirs _ pre suf f za _ _ _ k e st Hk He). }
  assert (Hfile : is_Some (file_at ds f (root_ m'))).
  { subst m'. rewrite indexed_root.
    destruct (index_entries_lookup (length (zip_path_lst_ m)) ds f za 0 (root_ m)
                                   (mkStats 0 0 0 0))
      as [(x & _ & Hx)|[(_ & Hall & _)|(_ & k' & e' & st' & _ & _ & _ & Hf)]]; eauto.
    exfalso. rewrite Forall_forall in Hall.
    exact (Hall e (proj2 (list_elem_of_lookup za e) (ex_intro _ k Hk)) st He). }
  split; [|split].
  - intros q suf Hds. rewrite lookup_dir_walk. now apply (Hdirs _ suf).
  - intros q n suf Hds.
    destruct (Hdirs (PathSplit.names q ++ [n]) suf) as [c Hc];
      [now rewrite <- app_assoc|].
    apply walk_dirs_snoc in Hc as (d & Hd & Hn).
    unfold zipfs_readdir. rewrite lookup_dir_walk, Hd. simpl. split; [reflexivity|].
    do 2 apply list_elem_of_further. apply elem_of_app. left.
    apply keys_of_map. unfold find_dir in Hn. eauto.
  - intros q Hds. destruct Hfile as [x Hx]. rewrite file_at_walk in Hx.
    unfold zipfs_readdir. rewrite lookup_dir_walk, <- Hds.
    destruct (walk_dirs ds (root_ m')) as [d|]; [|discriminate]. simpl.
    split; [reflexivity|].
    do 2 apply list_elem_of_further. apply elem_of_app. right.
    apply keys_of_map. unfold find_file in Hx. eauto.
Qed.

Lemma indexed_file_is_listed_witness :
  let m' := indexed manager_F "/D.zip" archive_D in
  (forall q suf, ["d"; "e"] = PathSplit.names q ++ suf -> is_Some (lookup_dir m' q))
  /\ (forall q n suf, ["d"; "e"] = PathSplit.names q ++ n :: suf ->
                      (zipfs_readdir m' q).1 = 0%Z /\ n ∈ (zipfs_readdir m' q).2)
  /\ (forall q, ["d"; "e"] = PathSplit.names q ->
                (zipfs_readdir m' q).1 = 0%Z /\ "f.txt" ∈ (zipfs_readdir m' q).2).
Proof.
  apply (indexed_file_is_listed manager_F "/D.zip" archive_D 1
           (stored_entry "d/e/f.txt" (list_ascii_of_string "file"))
           (mkStat 127 "d/e/f.txt" 4 4 0 ZIP_CM_STORE) ["d"; "e"] "f.txt");
    reflexivity.
Defined.

(** The listing of the sample index, run: the root shows the directory
    [d] and the file [f]; [/d/e/] shows [f.txt]; [d/e/f.txt] is no
    directory. *)
Example readdir_runs :
  let m' := indexed manager_F "/D.zip" archive_D in
  zipfs_readdir m' "/" = (0%Z, ["."; ".."; "d"; "f"])
  /\ zipfs_readdir m' "/d/e/" = (0%Z, ["."; ".."; "f.txt"])
  /\ zipfs_readdir m' "/d/e/f.txt" = ((- ENOENT)%Z, [])
  /\ lookup_file m' "nosize" = None.
Proof. repeat split; vm_compute; reflexivity. Qed.

(** X10: the attributes of an indexed file. If the path [q] was no file of
    the index, and [k] is the first entry of the archive that normalises to
    [q], then after indexing, unless [q] is also a directory, the attribute
    query answers a regular file, read-only for all, link count 1, with the
    declared uncompressed size of that entry converted to [off_t]: the
    declared size itself when it is below 2^63. *)
Theorem getattr_of_indexed_file (m : ZipEntryManagerImpl) (abs_path : string)
        (za : zip_t) (q : string) (ds : list string) (f : string)
        (k : nat) (e : zip_entry) (st : zip_stat) :
  file_path q = Some (ds, f) -> lookup_file m q = None ->
  za !! k = Some e -> entry_path e = Some (st, ds, f) ->
  (forall j e' st', j < k -> za !! j = Some e' -> entry_path e' <> Some (st', ds, f)) ->
  lookup_dir (indexed m abs_path za) q = None ->
  zipfs_getattr (indexed m abs_path za) q = (0%Z, file_attr (to_off_t (st_size st)))
  /\ ((0 <= st_size st < 2 ^ 63)%Z ->
      zipfs_getattr (indexed m abs_path za) q = (0%Z, file_attr (st_size st))).
Proof.
  intros Hq Hnone Hk He Hfirst Hnodir.
  assert (Hattr : zipfs_getattr (indexed m abs_path za) q
                  = (0%Z, file_attr (to_off_t (st_size st))));
    [|split; [exact Hattr|intros Hsize; now rewrite Hattr, to_off_t_small]].
  unfold zipfs_getattr. rewrite Hnodir.
  rewrite lookup_file_file_path, Hq in *. rewrite indexed_root.
  destruct (index_entries_lookup (length (zip_path_lst_ m)) ds f za 0 (root_ m)
                                 (mkStats 0 0 0 0))
    as [(x & Hx & _)|[(_ & Hall & _)|(_ & k' & e' & st' & Hk' & He' & Hfirst' & ->)]].
  - congruence.
  - exfalso. rewrite Forall_forall in Hall.
    exact (Hall e (proj2 (list_elem_of_lookup za e) (ex_intro _ k Hk)) st He).
  - assert (Hkk : k' = k).
    { destruct (Nat.lt_trichotomy k' k) as [Hlt|[Heq|Hgt]]; [|exact Heq|].
      - exfalso. exact (Hfirst k' e' st' Hlt Hk' He').
      - exfalso. exact (Hfirst' k e st Hgt Hk He). }
    subst k'.
    assert (Hee : Some e' = Some e)
      by (transitivity (za !! k); [symmetry; exact Hk'|exact Hk]).
    injection Hee as ->. rewrite He in He'. injection He' as <-. reflexivity.
Qed.

Lemma getattr_of_indexed_file_witness :
  zipfs_getattr (indexed manager_F "/D.zip" archive_D) "/d/e/f.txt"
  = (0%Z, file_attr 4).
Proof.
  refine (proj2 (getattr_of_indexed_file manager_F "/D.zip" archive_D "/d/e/f.txt"
                   ["d"; "e"] "f.txt" 1
                   (stored_entry "d/e/f.txt" (list_ascii_of_string "file"))
                   (mkStat 127 "d/e/f.txt" 4 4 0 ZIP_CM_STORE) _ _ _ _ _ _) _);
    try reflexivity.
  - intros [|j] e' st' Hj Hl; [|lia]. injection Hl as <-. discriminate.
  - simpl. lia.
Defined.

(** A declared size of 2^63 or more: the attribute query answers a
    negative size. *)
Example getattr_of_huge_file :
  zipfs_getattr (indexed new_manager "/H.zip"
                   [mkEntry (Some (mkStat 127 "h" (2 ^ 63) 0 0 ZIP_CM_STORE)) []]) "h"
  = (0%Z, file_attr (- 2 ^ 63)).
Proof. vm_compute. reflexivity. Qed.

(** ** The read path: slices *)

Section ReadSlices.
Context {C : Codec} {W : CodecWorks C}.

(** With a working codec, a read gives the requested slice of the
    payload. *)
Lemma zipfs_read_slice (m : ZipEntryManagerImpl) (zip_open : string -> option zip_t)
      (path : string) (file : FileEntry) (zip_path : string) (za : zip_t)
      (k : nat) (e : zip_entry) (size offset : Z) :
  lookup_file m path = Some file ->
  (0 <= size_ file < 2 ^ 63)%Z ->
  get_zip_path m (zip_path_idx_ file) = Some zip_path ->
  zip_open zip_path = Some za ->
  offset_ file = Z.of_nat k -> za !! k = Some e ->
  Z.of_nat (length (e_data e)) = size_ file ->
  (0 <= size <= INT_MAX)%Z -> (0 <= offset < 2 ^ 63)%Z ->
  let slice := take (Z.to_nat size) (drop (Z.to_nat offset) (e_data e)) in
  zipfs_read m zip_open path size offset = ReadReturn (Z.of_nat (length slice)) slice.
Proof.
  intros Hfile HS Hpath Hopen Hk He Hlen Hsize Hoff slice.
  unfold zipfs_read, INT_MAX in *. rewrite Hfile, to_off_t_small by exact HS.
  destruct (offset >=? size_ file)%Z eqn:Ege; rewrite Z.geb_leb in Ege.
  { apply Z.leb_le in Ege. subst slice. rewrite drop_ge by lia. now rewrite take_nil. }
  apply Z.leb_gt in Ege.
  rewrite (to_size_t_small offset) by (unfold two64; lia).
  rewrite (to_size_t_small (offset + size)) by (unfold two64; lia).
  rewrite Hpath, Hopen, Hk.
  destruct (fopen_works za k e He) as (zf & -> & Hrest).
  assert (Hskip : exists zf1,
             (if (offset >? 0)%Z
              then discard_loop (Z.to_nat offset) zf offset
              else Discarded zf) = Discarded zf1
             /\ rest zf1 = drop (Z.to_nat offset) (e_data e)).
  { destruct (offset >? 0)%Z eqn:Epos.
    - rewrite <- Hrest. apply discard_loop_skips; rewrite ?Hrest; lia.
    - rewrite Z.gtb_ltb in Epos. apply Z.ltb_ge in Epos. exists zf.
      split; [reflexivity|]. replace offset with 0%Z by lia. now rewrite drop_0. }
  destruct Hskip as (zf1 & -> & Hrest1).
  assert (Hdrop : Z.of_nat (length (drop (Z.to_nat offset) (e_data e)))
                  = (size_ file - offset)%Z) by (rewrite length_drop; lia).
  set (size' := if (offset + size >? size_ file)%Z
                then to_size_t (size_ file - offset) else size).
  assert (Hslice : (0 <= size')%Z
                   /\ take (Z.to_nat size') (drop (Z.to_nat offset) (e_data e)) = slice).
  { subst size' slice. destruct (offset + size >? size_ file)%Z eqn:Egt;
      rewrite Z.gtb_ltb in Egt; [|split; [lia|reflexivity]].
    apply Z.ltb_lt in Egt. rewrite to_size_t_small by (unfold two64; lia).
    split; [lia|]. rewrite !take_ge by lia. reflexivity. }
  destruct Hslice as [Hpos Hslice].
  destruct (fread_works zf1 size' Hpos) as (zf2 & -> & _).
  rewrite Hrest1, Hslice.
  replace (Z.of_nat (length slice) <? 0)%Z with false by (symmetry; apply Z.ltb_ge; lia).
  rewrite to_int_small; [reflexivity|].
  unfold INT_MAX. subst slice. rewrite length_take. lia.
Qed.

(** X11: a read returns the requested slice. For a file of the index
    whose archive opens and whose payload has the declared size [S] (that
    fits an [off_t]), a read of [size <= INT_MAX] bytes at [offset >= 0]
    returns the bytes of the payload from [offset] on, at most [size] of
    them, and their number, which is the smaller of [size] and what is
    left of the payload; in particular a read that lies inside the file
    returns exactly [size] bytes. *)
Theorem read_returns_slice (m : ZipEntryManagerImpl)
        (zip_open : string -> option zip_t)
        (path : string) (file : FileEntry) (zip_path : string) (za : zip_t)
        (k : nat) (e : zip_entry) (size offset : Z) :
  lookup_file m path = Some file ->
  (0 <= size_ file < 2 ^ 63)%Z ->
  get_zip_path m (zip_path_idx_ file) = Some zip_path ->
  zip_open zip_path = Some za ->
  offset_ file = Z.of_nat k -> za !! k = Some e ->
  Z.of_nat (length (e_data e)) = size_ file ->
  (0 <= size <= INT_MAX)%Z -> (0 <= offset < 2 ^ 63)%Z ->
  exists n,
    zipfs_read m zip_open path size offset
    = ReadReturn n (take (Z.to_nat size) (drop (Z.to_nat offset) (e_data e)))
    /\ n = Z.min size (Z.max 0 (size_ file - offset))
    /\ n = Z.of_nat (length (take (Z.to_nat size) (drop (Z.to_nat offset) (e_data e))))
    /\ ((offset + size <= size_ file)%Z -> n = size).
Proof.
  intros Hfile HS Hpath Hopen Hk He Hlen Hsize Hoff.
  eexists. split; [|split; [|split; [reflexivity|]]].
  - exact (zipfs_read_slice m zip_open path file zip_path za k e size offset
                            Hfile HS Hpath Hopen Hk He Hlen Hsize Hoff).
  - rewrite length_take, length_drop. lia.
  - intros Hin. rewrite length_take, length_drop. lia.
Qed.

(** X12: reads compose. Under the same conditions, the bytes of a read of
    [a] bytes at [offset] followed by the bytes of a read of [b] bytes at
    [offset + a] are the bytes of one read of [a + b] bytes at [offset]:
    reading a file piece by piece gives what reading it at once gives. *)
Theorem reads_compose (m : ZipEntryManagerImpl) (zip_open : string -> option zip_t)
        (path : string) (file : FileEntry) (zip_path : string) (za : zip_t)
        (k : nat) (e : zip_entry) (a b offset : Z) :
  lookup_file m path = Some file ->
  (0 <= size_ file < 2 ^ 63)%Z ->
  get_zip_path m (zip_path_idx_ file) = Some zip_path ->
  zip_open zip_path = Some za ->
  offset_ file = Z.of_nat k -> za !! k = Some e ->
  Z.of_nat (length (e_data e)) = size_ file ->
  (0 <= a)%Z -> (0 <= b)%Z -> (a + b <= INT_MAX)%Z ->
  (0 <= offset)%Z -> (offset + a < 2 ^ 63)%Z ->
  read_buf (zipfs_read m zip_open path a offset)
  ++ read_buf (zipfs_read m zip_open path b (offset + a))
  = read_buf (zipfs_read m zip_open path (a + b) offset).
Proof.
  intros Hfile HS Hpath Hopen Hk He Hlen Ha Hb Hab Hoff Hoffa.
  rewrite !(zipfs_read_slice m zip_open path file zip_path za k e)
    by (assumption || lia).
  simpl. rewrite (Z2Nat.inj_add a b), (Z2Nat.inj_add offset a) by lia.
  rewrite <- take_take_drop, drop_drop. reflexivity.
Qed.
End ReadSlices.

Lemma read_returns_slice_witness :
  exists n,
    @zipfs_read ref_codec manager_F disk_F "f" 3 2
    = ReadReturn n (take (Z.to_nat 3) (drop (Z.to_nat 2) ten_bytes))
    /\ n = Z.min 3 (Z.max 0 (10 - 2))
    /\ n = Z.of_nat (length (take (Z.to_nat 3) (drop (Z.to_nat 2) ten_bytes)))
    /\ ((2 + 3 <= 10)%Z -> n = 3%Z).
Proof.
  apply (@read_returns_slice ref_codec ref_codec_works manager_F disk_F "f"
                             (mkFile 1 10 10 0 false) "/F.zip" archive_F 0
                             (stored_entry "f" ten_bytes) 3 2);
    try reflexivity; unfold INT_MAX; simpl; lia.
Defined.

Lemma reads_compose_witness :
  read_buf (@zipfs_read ref_codec manager_F disk_F "f" 3 2)
  ++ read_buf (@zipfs_read ref_codec manager_F disk_F "f" 4 (2 + 3))
  = read_buf (@zipfs_read ref_codec manager_F disk_F "f" (3 + 4) 2).
Proof.
  apply (@reads_compose ref_codec ref_codec_works manager_F disk_F "f"
                        (mkFile 1 10 10 0 false) "/F.zip" archive_F 0
                        (stored_entry "f" ten_bytes) 3 4 2);
    try reflexivity; unfold INT_MAX; simpl; lia.
Defined.

(** ** The stream source *)

Section SourceProtocol.
Context {C : Codec} {W : CodecWorks C}.

(** X13: a source can be pulled again. For a source bound to entry [k] of
    the input, in whatever state: [OPEN] succeeds, a [READ] of [len]
    bytes delivers the first [len] bytes of the payload (or all of it),
    [CLOSE] returns 0, a [READ] after the [CLOSE] fails with -1 and
    records [ZIP_ER_INVAL], and a writer that then opens the source again
    gets the whole payload from its first byte. *)
Theorem source_reopen_restarts (fuel : nat) (chunk len : Z) (za : zip_t)
        (source : Optimizer.ZipStreamSource) (k : nat) (e : zip_entry) :
  (0 < chunk)%Z -> (0 <= len)%Z ->
  Optimizer.input_zip source = za -> Optimizer.index source = Z.of_nat k ->
  za !! k = Some e -> length (e_data e) < fuel ->
  exists s1 s2 s3 s4,
    Optimizer.zip_stream_source_cb source 0 Optimizer.ZIP_SOURCE_OPEN
    = (0%Z, Optimizer.NoData, Some s1)
    /\ Optimizer.zip_stream_source_cb s1 len Optimizer.ZIP_SOURCE_READ
       = (Z.of_nat (length (take (Z.to_nat len) (e_data e))),
          Optimizer.Bytes (take (Z.to_nat len) (e_data e)), Some s2)
    /\ Optimizer.zip_stream_source_cb s2 0 Optimizer.ZIP_SOURCE_CLOSE
       = (0%Z, Optimizer.NoData, Some s3)
    /\ Optimizer.zip_stream_source_cb s3 len Optimizer.ZIP_SOURCE_READ
       = ((-1)%Z, Optimizer.NoData, Some s4)
    /\ Optimizer.error s4 = Optimizer.ZIP_ER_INVAL
    /\ Optimizer.writer_pull fuel chunk s4 = Optimizer.Pulled (e_data e).
Proof.
  intros Hchunk Hlen Hza Hidx Hk Hfuel.
  destruct (fopen_works za k e Hk) as (f & Hopen & Hrest).
  destruct (fread_works f len Hlen) as (f' & Hread & _).
  set (s1 := Optimizer.set_file source (Some f)).
  set (s2 := Optimizer.set_file s1 (Some f')).
  set (s3 := Optimizer.set_file s2 None).
  set (s4 := Optimizer.set_error s3 Optimizer.ZIP_ER_INVAL).
  exists s1, s2, s3, s4.
  split; [unfold Optimizer.zip_stream_source_cb; now rewrite Hza, Hidx, Hopen|].
  split.
  { unfold Optimizer.zip_stream_source_cb. subst s1. simpl.
    rewrite Hread, Hrest.
    replace (Z.of_nat (length (take (Z.to_nat len) (e_data e))) <? 0)%Z with false
      by (symmetry; apply Z.ltb_ge; lia).
    reflexivity. }
  split; [reflexivity|]. split; [reflexivity|]. split; [reflexivity|].
  apply (writer_pull_works fuel chunk za _ k e Hchunk); simpl; assumption.
Qed.
End SourceProtocol.

Lemma source_reopen_restarts_witness :
  exists s1 s2 s3 s4,
    @Optimizer.zip_stream_source_cb ref_codec
      (Optimizer.new_stream_source archive_F 0 (mkStat 127 "f" 10 10 0 ZIP_CM_STORE))
      0 Optimizer.ZIP_SOURCE_OPEN
    = (0%Z, Optimizer.NoData, Some s1)
    /\ Optimizer.zip_stream_source_cb s1 4 Optimizer.ZIP_SOURCE_READ
       = (Z.of_nat (length (take (Z.to_nat 4) ten_bytes)),
          Optimizer.Bytes (take (Z.to_nat 4) ten_bytes), Some s2)
    /\ Optimizer.zip_stream_source_cb s2 0 Optimizer.ZIP_SOURCE_CLOSE
       = (0%Z, Optimizer.NoData, Some s3)
    /\ Optimizer.zip_stream_source_cb s3 4 Optimizer.ZIP_SOURCE_READ
       = ((-1)%Z, Optimizer.NoData, Some s4)
    /\ Optimizer.error s4 = Optimizer.ZIP_ER_INVAL
    /\ Optimizer.writer_pull 11 8192 s4 = Optimizer.Pulled ten_bytes.
Proof.
  apply (@source_reopen_restarts ref_codec ref_codec_works 11 8192 4 archive_F
           (Optimizer.new_stream_source archive_F 0 (mkStat 127 "f" 10 10 0 ZIP_CM_STORE))
           0 (stored_entry "f" ten_bytes));
    try reflexivity; simpl; lia.
Defined.

(** X14: what a source tells about its entry. [ZIP_SOURCE_STAT] on the
    source made for an entry works before any [OPEN] and whatever the
    codec; with a buffer too small for a [zip_stat_t] it fails with -1
    and [ZIP_ER_INVAL]; otherwise it reports the size as valid exactly
    when the input marks it valid, and then the declared size, the same
    for the modification time, and no other field as valid, so a field
    the input does not have is not made up. *)
Theorem source_stat_reports_valid_fields {C : Codec} (za : zip_t) (i len : Z)
        (st : zip_stat) :
  let source := Optimizer.new_stream_source za i st in
  ((len < Optimizer.sizeof_zip_stat_t)%Z ->
   exists s', Optimizer.zip_stream_source_cb source len Optimizer.ZIP_SOURCE_STAT
              = ((-1)%Z, Optimizer.NoData, Some s')
              /\ Optimizer.error s' = Optimizer.ZIP_ER_INVAL)
  /\ ((Optimizer.sizeof_zip_stat_t <= len)%Z ->
      exists size mtime valid,
        Optimizer.zip_stream_source_cb source len Optimizer.ZIP_SOURCE_STAT
        = (Optimizer.sizeof_zip_stat_t, Optimizer.StatData size mtime valid, Some source)
        /\ has_flag valid ZIP_STAT_SIZE = has_flag (st_valid st) ZIP_STAT_SIZE
        /\ has_flag valid ZIP_STAT_MTIME = has_flag (st_valid st) ZIP_STAT_MTIME
        /\ Z.land valid (Z.lnot (Z.lor ZIP_STAT_SIZE ZIP_STAT_MTIME)) = 0%Z
        /\ (has_flag (st_valid st) ZIP_STAT_SIZE = true -> size = st_size st)
        /\ (has_flag (st_valid st) ZIP_STAT_MTIME = true -> mtime = st_mtime st)).
Proof.
  intros source. split.
  - intros Hlen. unfold Optimizer.zip_stream_source_cb.
    replace (len <? Optimizer.sizeof_zip_stat_t)%Z with true
      by (symmetry; apply Z.ltb_lt; exact Hlen).
    eexists. split; reflexivity.
  - intros Hlen. unfold Optimizer.zip_stream_source_cb.
    replace (len <? Optimizer.sizeof_zip_stat_t)%Z with false
      by (symmetry; apply Z.ltb_ge; exact Hlen).
    eexists _, _, _. split; [reflexivity|]. subst source. simpl.
    destruct (has_flag (st_valid st) ZIP_STAT_SIZE),
             (has_flag (st_valid st) ZIP_STAT_MTIME);
      repeat split; intros; try reflexivity; discriminate.
Qed.

Lemma source_stat_reports_valid_fields_witness :
  let source := @Optimizer.new_stream_source ref_codec archive_F 0
                  (mkStat 4 "f" 10 10 99 ZIP_CM_STORE) in
  (exists s', Optimizer.zip_stream_source_cb source 8 Optimizer.ZIP_SOURCE_STAT
              = ((-1)%Z, Optimizer.NoData, Some s')
              /\ Optimizer.error s' = Optimizer.ZIP_ER_INVAL)
  /\ exists size mtime valid,
      Optimizer.zip_stream_source_cb source 64 Optimizer.ZIP_SOURCE_STAT
      = (Optimizer.sizeof_zip_stat_t, Optimizer.StatData size mtime valid, Some source)
      /\ has_flag valid ZIP_STAT_SIZE = has_flag 4 ZIP_STAT_SIZE
      /\ has_flag valid ZIP_STAT_MTIME = has_flag 4 ZIP_STAT_MTIME
      /\ Z.land valid (Z.lnot (Z.lor ZIP_STAT_SIZE ZIP_STAT_MTIME)) = 0%Z
      /\ (has_flag 4 ZIP_STAT_SIZE = true -> size = 10%Z)
      /\ (has_flag 4 ZIP_STAT_MTIME = true -> mtime = 99%Z).
Proof.
  intros source. split.
  - apply (proj1 (@source_stat_reports_valid_fields ref_codec archive_F 0 8
                    (mkStat 4 "f" 10 10 99 ZIP_CM_STORE))).
    unfold Optimizer.sizeof_zip_stat_t. lia.
  - apply (proj2 (@source_stat_reports_valid_fields ref_codec archive_F 0 64
                    (mkStat 4 "f" 10 10 99 ZIP_CM_STORE))).
    unfold Optimizer.sizeof_zip_stat_t. lia.
Defined.

(** ** The rewrite tool: the output archive *)

Section OutputArchive.
Context {C : Codec}.
Variable E : Optimizer.env.
Variable za : zip_t.

(** One round of the entry loop: nothing is added, or the entry is a file
    entry and goes in under its name, marked stored when libzip takes the
    mark. *)
Lemma process_entry_cases (i : Z) (e : zip_entry) (s : Optimizer.loop_state) :
  (Optimizer.output_zip (Optimizer.process_entry E za i e s) = Optimizer.output_zip s
   /\ Optimizer.files_processed (Optimizer.process_entry E za i e s)
      = Optimizer.files_processed s)
  \/ exists st,
      e_stat e = Some st /\ file_name (st_name st)
      /\ Optimizer.files_processed (Optimizer.process_entry E za i e s)
         = (Optimizer.files_processed s + 1)%Z
      /\ Optimizer.output_zip (Optimizer.process_entry E za i e s)
         = let add := Optimizer.zip_file_add (Optimizer.output_zip s) (st_name st)
                        (Optimizer.new_stream_source za i st) in
           if Optimizer.set_compression_ok E i
           then Optimizer.zip_set_file_compression add.1 add.2 ZIP_CM_STORE
           else add.1.
Proof.
  unfold Optimizer.process_entry.
  destruct (e_stat e) as [st|]; [|now left].
  destruct (_ && PathSplit.at_ _ _ _) eqn:Ename; [now left|].
  destruct (negb (Optimizer.source_function_ok E i)); [now left|].
  destruct (negb (Optimizer.file_add_ok E i)); [now left|].
  right. exists st. split; [reflexivity|]. split; [exact Ename|].
  destruct (Optimizer.zip_file_add _ _ _) as [out1 idx].
  destruct (Optimizer.set_compression_ok E i); simpl; split; reflexivity.
Qed.

Lemma zip_file_add_NoDup (name : string) (source : Optimizer.ZipStreamSource)
      (out : list Optimizer.pending) :
  NoDup (map Optimizer.p_name out) ->
  NoDup (map Optimizer.p_name (Optimizer.zip_file_add out name source).1).
Proof.
  induction out as [|p out IH]; intros Hnd; simpl.
  - apply NoDup_singleton.
  - apply NoDup_cons in Hnd as [Hnotin Hnd].
    destruct (String.eqb (Optimizer.p_name p) name) eqn:Eq.
    + apply String.eqb_eq in Eq. simpl. rewrite <- Eq. now apply NoDup_cons.
    + apply String.eqb_neq in Eq. specialize (IH Hnd).
      pose proof (zip_file_add_names name source out (Optimizer.p_name p)) as Hn.
      destruct (Optimizer.zip_file_add out name source) as [out' idx]. simpl in *.
      apply NoDup_cons. split; [|exact IH].
      intros Hin. apply Hn in Hin as [Heq|Hin]; [congruence|contradiction].
Qed.

Lemma zip_file_add_marked (name : string) (source : Optimizer.ZipStreamSource)
      (method : Z) (out : list Optimizer.pending) :
  Forall (fun p => Optimizer.p_method p = Some method) out ->
  let add := Optimizer.zip_file_add out name source in
  Forall (fun p => Optimizer.p_method p = Some method)
         (Optimizer.zip_set_file_compression add.1 add.2 method).
Proof.
  induction 1 as [|p out Hp Hout IH]; simpl.
  - repeat constructor.
  - destruct (String.eqb (Optimizer.p_name p) name).
    + constructor; [reflexivity|exact Hout].
    + destruct (Optimizer.zip_file_add out name source) as [out' idx]. simpl in *.
      unfold Optimizer.zip_set_file_compression in *. simpl.
      destruct (out' !! idx) as [p'|]; simpl; constructor; assumption.
Qed.

(** The output archive under construction: its names are distinct and
    none is a directory's; its entries are all marked stored when libzip
    takes every mark. *)
Lemma process_entries_output (entries : list zip_entry) :
  forall (i : Z) (s : Optimizer.loop_state),
  NoDup (map Optimizer.p_name (Optimizer.output_zip s)) ->
  Forall file_name (map Optimizer.p_name (Optimizer.output_zip s)) ->
  let s' := Optimizer.process_entries E za i entries s in
  NoDup (map Optimizer.p_name (Optimizer.output_zip s'))
  /\ Forall file_name (map Optimizer.p_name (Optimizer.output_zip s'))
  /\ (marks_succeed E ->
      Forall (fun p => Optimizer.p_method p = Some ZIP_CM_STORE) (Optimizer.output_zip s) ->
      Forall (fun p => Optimizer.p_method p = Some ZIP_CM_STORE) (Optimizer.output_zip s')).
Proof.
  induction entries as [|e entries IH]; intros i s Hnd Hfn; [now repeat split|].
  simpl.
  destruct (process_entry_cases i e s) as [[Hout _]|(st & Hst & Hname & _ & Hout)].
  { rewrite <- Hout in Hnd, Hfn.
    destruct (IH (i + 1)%Z _ Hnd Hfn) as (H1 & H2 & H3).
    split; [exact H1|]. split; [exact H2|]. intros Hm Hs. apply H3; [exact Hm|].
    now rewrite Hout. }
  assert (Hnames : forall x,
             x ∈ map Optimizer.p_name
                     (Optimizer.output_zip (Optimizer.process_entry E za i e s)) ->
             x = st_name st \/ x ∈ map Optimizer.p_name (Optimizer.output_zip s)).
  { intros x. rewrite Hout. cbv zeta.
    destruct (Optimizer.set_compression_ok E i);
      rewrite ?zip_set_file_compression_names; apply zip_file_add_names. }
  assert (Hnd' : NoDup (map Optimizer.p_name
                            (Optimizer.output_zip (Optimizer.process_entry E za i e s)))).
  { rewrite Hout. cbv zeta.
    destruct (Optimizer.set_compression_ok E i);
      rewrite ?zip_set_file_compression_names; now apply zip_file_add_NoDup. }
  assert (Hfn' : Forall file_name
                        (map Optimizer.p_name
                             (Optimizer.output_zip (Optimizer.process_entry E za i e s)))).
  { apply Forall_forall. intros x Hx. apply Hnames in Hx as [->|Hx]; [exact Hname|].
    rewrite Forall_forall in Hfn. now apply Hfn. }
  destruct (IH (i + 1)%Z _ Hnd' Hfn') as (H1 & H2 & H3).
  split; [exact H1|]. split; [exact H2|]. intros Hm Hs. apply H3; [exact Hm|].
  rewrite Hout. cbv zeta. rewrite (Hm i). now apply zip_file_add_marked.
Qed.

(** The writer keeps the order, the names and the marks of what it
    writes; it drops the entries whose source fails. *)
Lemma write_pending_keeps (fuel : nat) (chunk : Z) (out : list Optimizer.pending) :
  forall entries,
  Optimizer.write_pending fuel chunk out = Optimizer.Written entries ->
  sublist (map Optimizer.o_name entries) (map Optimizer.p_name out)
  /\ forall method,
      Forall (fun p => Optimizer.p_method p = Some method) out ->
      Forall (fun o => Optimizer.o_method o = Some method) entries.
Proof.
  induction out as [|p out IH]; intros entries Hw; simpl in Hw.
  - injection Hw as <-. split; [constructor|]. intros; constructor.
  - destruct (Optimizer.writer_pull fuel chunk (Optimizer.p_source p)) as [content| |];
      [|apply IH in Hw as [Hsub Hm]|discriminate].
    + destruct (Optimizer.write_pending fuel chunk out) as [l|]; [|discriminate].
      injection Hw as <-. destruct (IH l eq_refl) as [Hsub Hm].
      split; [simpl; now apply sublist_skip|].
      intros method Hall. apply Forall_cons in Hall as [Hp Hall].
      constructor; [exact Hp|now apply Hm].
    + split; [simpl; now apply sublist_cons|].
      intros method Hall. apply Forall_cons in Hall as [_ Hall]. now apply Hm.
Qed.

(** A run that wrote an output archive went through the entry loop and
    the writer. *)
Lemma main_written (fuel : nat) (prog_name : string)
      (opts : list Optimizer.getopt_ret) (positional : list string)
      (code : Z) (cout cerr : list Optimizer.out_item)
      (entries : list Optimizer.out_entry) :
  Optimizer.main E fuel prog_name opts positional
  = Optimizer.Exit code cout cerr (Some entries) ->
  code = 0%Z
  /\ exists input_zip cout0 cerr0,
      Optimizer.write_pending fuel (Optimizer.chunk E)
        (Optimizer.output_zip
           (Optimizer.process_entries E input_zip 0 input_zip
                                      (Optimizer.mkLoop [] 0 0 cout0 cerr0)))
      = Optimizer.Written entries.
Proof.
  unfold Optimizer.main.
  pose proof (prepare_cases E prog_name opts positional) as Hprep.
  destruct (Optimizer.prepare E prog_name opts positional)
    as [r|[[[[bs input_path] output_path] input_zip] cout0]].
  { destruct Hprep as [Hnone _]. intros ->. simpl in Hnone. discriminate. }
  destruct (Optimizer.write_pending _ _ _) as [w|] eqn:Ew; [|discriminate].
  set (pr := if Optimizer.register_progress_ok E then _ else _).
  destruct pr as [last_percent cout1].
  destruct (negb (Optimizer.write_ok E)); [discriminate|].
  intros Hrun. apply finish_exit in Hrun as (-> & Hw & _).
  injection Hw as <-. split; [reflexivity|]. eauto.
Qed.
End OutputArchive.

(** X15: the shape of every archive the streaming tool writes, whatever
    the input, the codec and libzip's answers: the entry names are
    distinct (an input name that comes twice is overwritten, not added
    twice), none of them is the name of a directory entry, the exit code
    is 0, and when [zip_set_file_compression] succeeds on every entry,
    every written entry is marked stored. *)
Theorem written_archive_shape {C : Codec} (E : Optimizer.env) (fuel : nat)
        (prog_name : string) (opts : list Optimizer.getopt_ret)
        (positional : list string) (code : Z) (cout cerr : list Optimizer.out_item)
        (entries : list Optimizer.out_entry) :
  Optimizer.main E fuel prog_name opts positional
  = Optimizer.Exit code cout cerr (Some entries) ->
  code = 0%Z
  /\ NoDup (map Optimizer.o_name entries)
  /\ Forall (fun o => file_name (Optimizer.o_name o)) entries
  /\ (marks_succeed E ->
      Forall (fun o => Optimizer.o_method o = Some ZIP_CM_STORE) entries).
Proof.
  intros Hrun. apply main_written in Hrun as (-> & za & cout0 & cerr0 & Hw).
  split; [reflexivity|].
  destruct (process_entries_output E za za 0 (Optimizer.mkLoop [] 0 0 cout0 cerr0))
    as (Hnd & Hfn & Hmark); [constructor|constructor|].
  destruct (write_pending_keeps _ _ _ _ Hw) as [Hsub Hm].
  split; [exact (sublist_NoDup _ _ Hnd Hsub)|]. split.
  - apply Forall_forall. intros o Ho. rewrite Forall_forall in Hfn. apply Hfn.
    apply (elem_of_sublist (map Optimizer.o_name entries)); [|exact Hsub].
    apply list_elem_of_fmap. eauto.
  - intros Hmarks. apply Hm. apply Hmark; [exact Hmarks|constructor].
Qed.

Lemma written_archive_shape_witness :
  let written :=
    [Optimizer.mkOut "big.txt" (list_ascii_of_string "aaaaaaaaaaaaaaaa") (Some ZIP_CM_STORE);
     Optimizer.mkOut "dir/small.txt" (list_ascii_of_string "s") (Some ZIP_CM_STORE)] in
  0%Z = 0%Z
  /\ NoDup (map Optimizer.o_name written)
  /\ Forall (fun o => file_name (Optimizer.o_name o)) written
  /\ (marks_succeed (sample_env archive_mixed 90 120) ->
      Forall (fun o => Optimizer.o_method o = Some ZIP_CM_STORE) written).
Proof.
  intros written.
  eapply (@written_archive_shape ref_codec (sample_env archive_mixed 90 120) 17
            "zip-optimizer" [Optimizer.opt_b "4096"] ["in.zip"; "out.zip"]).
  vm_compute. reflexivity.
Defined.

(** ** The rewrite tool: the counters *)

(** The entries libzip takes are file entries, and all of them when
    libzip takes every entry. *)
Lemma count_added_bounds (E : Optimizer.env) (za : list zip_entry) :
  forall i : Z,
  (0 <= count_from (added E) i za <= count_entries is_file_entry za)%Z
  /\ (adds_succeed E ->
      count_from (added E) i za = count_entries is_file_entry za).
Proof.
  unfold count_entries.
  induction za as [|e za IH]; intros i; simpl; [split; [lia|reflexivity]|].
  destruct (IH (i + 1)%Z) as [Hb Hall].
  split.
  - destruct (added E i e) eqn:Ea; destruct (is_file_entry e) eqn:Ef;
      simpl length; try lia.
    unfold added in Ea. rewrite Ef in Ea. discriminate.
  - intros Hok. rewrite (Hall Hok).
    assert (Ha : added E i e = is_file_entry e).
    { unfold added. destruct (Hok i) as [-> ->]. now rewrite !andb_true_r. }
    rewrite Ha. destruct (is_file_entry e); simpl length; lia.
Qed.

Lemma all_stored_none_decompressed (za : list zip_entry) :
  all_stored za -> count_entries counts_as_decompressed za = 0%Z.
Proof.
  unfold count_entries. intros Hall.
  induction Hall as [|e za He _ IH]; [reflexivity|]. simpl.
  replace (counts_as_decompressed e) with false; [exact IH|].
  unfold counts_as_decompressed. destruct (e_stat e) as [st|]; [|reflexivity].
  rewrite (He st eq_refl), Z.eqb_refl. now rewrite andb_false_r.
Qed.

Section AnyArchive.
Context {C : Codec} {W : CodecWorks C}.
Variable E : Optimizer.env.

(** X16: the rewrite of any archive. Given well-formed arguments, an
    input archive [za] that opens and of which at least one entry reaches
    the output, a codec and an output file that work, file sizes that can
    be read, and enough reading rounds, the run exits 0 and every entry of
    the output holds, byte for byte, the decompressed payload of an input
    entry of the same name, compressed or not. After the line
    [Optimization complete!] the summary shows the block size and both
    file sizes; "files decompressed" is the number of file entries whose
    method is valid and not "stored", whether or not libzip took them;
    "files processed" is the number of file entries libzip took, which is
    at most the number of file entries, and equal to it when libzip takes
    every entry. *)
Theorem rewrite_any_archive (fuel : nat) (prog_name optarg : string)
        (block_size : Z) (input_path output_path : string) (za : zip_t)
        (input_size output_size : Z) (k0 : nat) (e0 : zip_entry) :
  Optimizer.stoull E optarg = Some block_size ->
  (0 <= block_size < two64)%Z -> is_pow2 block_size ->
  Optimizer.fs_exists E input_path = true ->
  Optimizer.zip_open_rdonly E input_path = Some za ->
  Optimizer.zip_open_create E output_path = true ->
  Optimizer.write_ok E = true ->
  (0 < Optimizer.chunk E)%Z ->
  Forall (fun e => length (e_data e) < fuel) za ->
  file_size_in_range E ->
  Optimizer.file_size E input_path = Some input_size ->
  Optimizer.file_size E output_path = Some output_size ->
  za !! k0 = Some e0 -> added E (Z.of_nat k0) e0 = true ->
  exists (cout cerr : list Optimizer.out_item) (entries : list Optimizer.out_entry),
    Optimizer.main E fuel prog_name [Optimizer.opt_b optarg] [input_path; output_path]
    = Optimizer.Exit 0 cout cerr (Some entries)
    /\ summary_shows (count_from (added E) 0 za)
                     (count_entries counts_as_decompressed za)
                     block_size input_size output_size cout
    /\ (0 <= count_from (added E) 0 za <= count_entries is_file_entry za)%Z
    /\ (adds_succeed E ->
        count_from (added E) 0 za = count_entries is_file_entry za)
    /\ Forall (copied_from za) entries.
Proof.
  intros Hparse Hrange Hpow Hexists Hopen Hcreate Hwrite Hchunk Hfuel
         Hsizes Hin Hout Hk0 Hadd0.
  destruct (main_rewrites E fuel prog_name optarg block_size input_path output_path
                          za input_size output_size k0 e0)
    as (cout & cerr & entries & Hrun & Hsum & Hcopied & _);
    try assumption;
    [apply (Hsizes _ _ Hin)|apply (Hsizes _ _ Hout)|].
  destruct (count_added_bounds E za 0) as [Hb Hall].
  exists cout, cerr, entries. auto.
Qed.

(** X25: the rewrite of an archive that is entirely in stored form.
    Under the same conditions, if every entry of the input is in stored
    form, the run exits 0, the summary shows 0 files decompressed, every
    entry of the output holds, byte for byte, the payload of an input
    entry of the same name, and every file entry that libzip takes is in
    the output under its name. *)
Theorem stored_archive_rewrite (fuel : nat) (prog_name optarg : string)
        (block_size : Z) (input_path output_path : string) (za : zip_t)
        (input_size output_size : Z) (k0 : nat) (e0 : zip_entry) :
  Optimizer.stoull E optarg = Some block_size ->
  (0 <= block_size < two64)%Z -> is_pow2 block_size ->
  Optimizer.fs_exists E input_path = true ->
  Optimizer.zip_open_rdonly E input_path = Some za ->
  Optimizer.zip_open_create E output_path = true ->
  Optimizer.write_ok E = true ->
  (0 < Optimizer.chunk E)%Z ->
  Forall (fun e => length (e_data e) < fuel) za ->
  file_size_in_range E ->
  Optimizer.file_size E input_path = Some input_size ->
  Optimizer.file_size E output_path = Some output_size ->
  za !! k0 = Some e0 -> added E (Z.of_nat k0) e0 = true ->
  all_stored za ->
  exists (cout cerr : list Optimizer.out_item) (entries : list Optimizer.out_entry),
    Optimizer.main E fuel prog_name [Optimizer.opt_b optarg] [input_path; output_path]
    = Optimizer.Exit 0 cout cerr (Some entries)
    /\ summary_shows (count_from (added E) 0 za) 0
                     block_size input_size output_size cout
    /\ Forall (copied_from za) entries
    /\ forall (k : nat) (e : zip_entry),
         za !! k = Some e -> added E (Z.of_nat k) e = true ->
         exists st o, e_stat e = Some st /\ o ∈ entries
                      /\ Optimizer.o_name o = st_name st.
Proof.
  intros Hparse Hrange Hpow Hexists Hopen Hcreate Hwrite Hchunk Hfuel
         Hsizes Hin Hout Hk0 Hadd0 Hstored.
  destruct (main_rewrites E fuel prog_name optarg block_size input_path output_path
                          za input_size output_size k0 e0)
    as (cout & cerr & entries & Hrun & Hsum & Hcopied & Hfound);
    try assumption;
    [apply (Hsizes _ _ Hin)|apply (Hsizes _ _ Hout)|].
  rewrite (all_stored_none_decompressed za Hstored) in Hsum.
  exists cout, cerr, entries. auto.
Qed.
End AnyArchive.

Lemma rewrite_any_archive_witness :
  exists (cout cerr : list Optimizer.out_item) (entries : list Optimizer.out_entry),
    @Optimizer.main ref_codec (sample_env archive_mixed 90 120) 17 "zip-optimizer"
                    [Optimizer.opt_b "4096"] ["in.zip"; "out.zip"]
    = Optimizer.Exit 0 cout cerr (Some entries)
    /\ summary_shows (count_from (added (sample_env archive_mixed 90 120)) 0
                                 archive_mixed)
                     (count_entries counts_as_decompressed archive_mixed)
                     4096 90 120 cout
    /\ (0 <= count_from (added (sample_env archive_mixed 90 120)) 0 archive_mixed
         <= count_entries is_file_entry archive_mixed)%Z
    /\ (adds_succeed (sample_env archive_mixed 90 120) ->
        count_from (added (sample_env archive_mixed 90 120)) 0 archive_mixed
        = count_entries is_file_entry archive_mixed)
    /\ Forall (copied_from archive_mixed) entries.
Proof.
  apply (@rewrite_any_archive ref_codec ref_codec_works
           (sample_env archive_mixed 90 120) 17 "zip-optimizer"
           "4096" 4096 "in.zip" "out.zip" archive_mixed 90 120 0
           (deflated_entry "big.txt" (list_ascii_of_string "aaaaaaaaaaaaaaaa") 5)).
  - reflexivity.
  - unfold two64; lia.
  - exact pow2_4096.
  - reflexivity.
  - reflexivity.
  - reflexivity.
  - reflexivity.
  - simpl; lia.
  - repeat constructor; simpl; lia.
  - apply sample_file_size_in_range; unfold two64; lia.
  - reflexivity.
  - reflexivity.
  - reflexivity.
  - reflexivity.
Defined.

Lemma stored_archive_rewrite_witness :
  exists (cout cerr : list Optimizer.out_item) (entries : list Optimizer.out_entry),
    @Optimizer.main ref_codec (sample_env archive_stored 400 380) 11 "zip-optimizer"
                    [Optimizer.opt_b "4096"] ["in.zip"; "out.zip"]
    = Optimizer.Exit 0 cout cerr (Some entries)
    /\ summary_shows (count_from (added (sample_env archive_stored 400 380)) 0
                                 archive_stored) 0
                     4096 400 380 cout
    /\ Forall (copied_from archive_stored) entries
    /\ forall (k : nat) (e : zip_entry),
         archive_stored !! k = Some e ->
         added (sample_env archive_stored 400 380) (Z.of_nat k) e = true ->
         exists st o, e_stat e = Some st /\ o ∈ entries
                      /\ Optimizer.o_name o = st_name st.
Proof.
  apply (@stored_archive_rewrite ref_codec ref_codec_works
           (sample_env archive_stored 400 380) 11 "zip-optimizer"
           "4096" 4096 "in.zip" "out.zip" archive_stored 400 380 1
           (stored_entry "d/a.txt" (list_ascii_of_string "alpha"))).
  - reflexivity.
  - unfold two64; lia.
  - exact pow2_4096.
  - reflexivity.
  - reflexivity.
  - reflexivity.
  - reflexivity.
  - simpl; lia.
  - repeat constructor; simpl; lia.
  - apply sample_file_size_in_range; unfold two64; lia.
  - reflexivity.
  - reflexivity.
  - reflexivity.
  - reflexivity.
  - exact stored_archive_all_stored.
Defined.

(** The counters, run: when libzip refuses every entry, the compressed
    file is still counted as decompressed although nothing was
    processed; no entry reaches the output, and the run ends on the
    exception after these lines. *)
Example decompressed_counts_refused_entries :
  let r := @Optimizer.main ref_codec (refusing_env archive_mixed) 17
                           "zip-optimizer" [Optimizer.opt_b "4096"]
                           ["in.zip"; "out.zip"] in
  exit_code r = None
  /\ drop 21 (run_cout r) = Optimizer.summary_counters 0 1 4096.
Proof. split; vm_compute; reflexivity. Qed.

(** ** The buffering variant: declared size against payload *)

Lemma zip_file_add_buffer_at (name : string) (data : list ascii)
      (out : list Optimizer.out_entry) :
  let add := Optimizer.zip_file_add_buffer out name data in
  add.1 !! add.2 = Some (Optimizer.mkOut name data None).
Proof.
  induction out as [|p out IH]; simpl; [reflexivity|].
  destruct (String.eqb (Optimizer.o_name p) name); [reflexivity|].
  destruct (Optimizer.zip_file_add_buffer out name data) as [out' idx]. exact IH.
Qed.

Section BufferedEntry.
Context {C : Codec} {W : CodecWorks C}.
Variable E : Optimizer.env.

(** X17: the buffering variant trusts the declared size. For a file entry
    whose declared size fits an [off_t], with a working codec: if the
    payload is shorter than declared, the entry is left out of the output
    and not counted as processed; if the payload is at least as long as
    declared and libzip takes the entry, the output gets an entry of that
    name holding the first declared-size bytes of the payload, so a longer
    payload is cut at the declared size. *)
Theorem buffered_entry_trusts_declared_size (za : zip_t) (k : nat) (e : zip_entry)
        (st : zip_stat) (s : Optimizer.loop_state_buffered) :
  za !! k = Some e -> e_stat e = Some st -> file_name (st_name st) ->
  (0 <= st_size st < 2 ^ 63)%Z ->
  let s' := Optimizer.process_entry_buffered E za (Z.of_nat k) e s in
  ((Z.of_nat (length (e_data e)) < st_size st)%Z ->
   Optimizer.output_zip_b s' = Optimizer.output_zip_b s
   /\ Optimizer.files_processed_b s' = Optimizer.files_processed_b s)
  /\ ((st_size st <= Z.of_nat (length (e_data e)))%Z ->
      Optimizer.source_function_ok E (Z.of_nat k) = true ->
      Optimizer.source_owned_ok E (Z.of_nat k) = true ->
      Optimizer.file_add_ok E (Z.of_nat k) = true ->
      Optimizer.files_processed_b s' = (Optimizer.files_processed_b s + 1)%Z
      /\ exists o, o ∈ Optimizer.output_zip_b s'
                   /\ Optimizer.o_name o = st_name st
                   /\ Optimizer.o_content o
                      = take (Z.to_nat (st_size st)) (e_data e)).
Proof.
  intros Hk Hst Hname Hsize s'. subst s'.
  unfold Optimizer.process_entry_buffered. rewrite Hst.
  unfold file_name in Hname. rewrite Hname.
  destruct (fopen_works za k e Hk) as (zf & -> & Hrest).
  destruct (fread_works zf (st_size st)) as (zf' & -> & _); [lia|].
  rewrite Hrest, to_off_t_small by exact Hsize. rewrite length_take.
  split.
  - intros Hshort.
    replace (Z.of_nat (Z.to_nat (st_size st) `min` length (e_data e)) =? st_size st)%Z
      with false by (symmetry; apply Z.eqb_neq; lia).
    split; reflexivity.
  - intros Hlong -> -> ->.
    replace (Z.of_nat (Z.to_nat (st_size st) `min` length (e_data e)) =? st_size st)%Z
      with true by (symmetry; apply Z.eqb_eq; lia).
    simpl.
    pose proof (zip_file_add_buffer_at (st_name st)
                  (take (Z.to_nat (st_size st)) (e_data e)) (Optimizer.output_zip_b s))
      as Hat.
    destruct (Optimizer.zip_file_add_buffer _ _ _) as [out1 idx]. simpl in Hat.
    destruct (Optimizer.set_compression_ok E (Z.of_nat k));
      cbv beta iota zeta;
      cbn [Optimizer.output_zip_b Optimizer.files_processed_b].
    + split; [reflexivity|].
      exists (Optimizer.mkOut (st_name st) (take (Z.to_nat (st_size st)) (e_data e))
                              (Some ZIP_CM_STORE)).
      split; [|split; reflexivity].
      unfold Optimizer.zip_set_file_compression_buffer. rewrite Hat.
      cbn [Optimizer.o_name Optimizer.o_content].
      apply list_elem_of_lookup. exists idx. apply list_lookup_insert_eq.
      now apply lookup_lt_Some in Hat.
    + split; [reflexivity|].
      exists (Optimizer.mkOut (st_name st) (take (Z.to_nat (st_size st)) (e_data e)) None).
      split; [|split; reflexivity].
      apply list_elem_of_lookup. eauto.
Qed.
End BufferedEntry.

Lemma buffered_entry_trusts_declared_size_witness :
  let E := sample_env [short_entry; long_entry] 90 120 in
  let s := Optimizer.mkLoopB [] 0 0 [] [] in
  (Optimizer.output_zip_b
     (@Optimizer.process_entry_buffered ref_codec E [short_entry; long_entry]
                                        (Z.of_nat 0) short_entry s)
   = Optimizer.output_zip_b s
   /\ Optimizer.files_processed_b
        (@Optimizer.process_entry_buffered ref_codec E [short_entry; long_entry]
                                           (Z.of_nat 0) short_entry s)
      = Optimizer.files_processed_b s)
  /\ (Optimizer.files_processed_b
        (@Optimizer.process_entry_buffered ref_codec E [short_entry; long_entry]
                                           (Z.of_nat 1) long_entry s)
      = (Optimizer.files_processed_b s + 1)%Z
      /\ exists o,
          o ∈ Optimizer.output_zip_b
                (@Optimizer.process_entry_buffered ref_codec E [short_entry; long_entry]
                                                   (Z.of_nat 1) long_entry s)
          /\ Optimizer.o_name o = "long"
          /\ Optimizer.o_content o = take (Z.to_nat 2) (list_ascii_of_string "abcd")).
Proof.
  intros E s. split.
  - apply (proj1 (@buffered_entry_trusts_declared_size ref_codec ref_codec_works E
                    [short_entry; long_entry] 0 short_entry
                    (mkStat 127 "short" 6 6 0 ZIP_CM_STORE) s
                    eq_refl eq_refl eq_refl ltac:(simpl; lia))).
    simpl; lia.
  - apply (proj2 (@buffered_entry_trusts_declared_size ref_codec ref_codec_works E
                    [short_entry; long_entry] 1 long_entry
                    (mkStat 127 "long" 2 2 0 ZIP_CM_STORE) s
                    eq_refl eq_refl eq_refl ltac:(simpl; lia)));
      try reflexivity. simpl; lia.
Defined.

(** ** The mount tool *)

Lemma scan_files (files : list string) :
  forall (rest zip_files fuse_args : list string),
  Forall (fun a => is_option a = false) files ->
  Mount.scan (files ++ rest) true zip_files fuse_args
  = Mount.scan rest true (zip_files ++ files) fuse_args.
Proof.
  induction files as [|a files IH]; intros rest zip_files fuse_args Hall; simpl.
  - now rewrite app_nil_r.
  - apply Forall_cons in Hall as [Ha Hall]. unfold is_option in Ha. rewrite Ha.
    rewrite IH by exact Hall. now rewrite <- app_assoc.
Qed.

Lemma scan_options (options : list string) :
  forall (rest : list string) (parsing_files : bool) (zip_files fuse_args : list string),
  Forall (fun a => is_option a = true) options -> options <> [] ->
  Mount.scan (options ++ rest) parsing_files zip_files fuse_args
  = Mount.scan rest false zip_files (fuse_args ++ options).
Proof.
  induction options as [|a options IH]; intros rest pf zip_files fuse_args Hall Hne;
    [congruence|].
  apply Forall_cons in Hall as [Ha Hall]. unfold is_option in Ha. simpl. rewrite Ha.
  destruct options as [|b options].
  - reflexivity.
  - rewrite IH by (assumption || discriminate). now rewrite <- app_assoc.
Qed.

Lemma index_all_built (E : Mount.env) (zip_files : list string) :
  forall m m', built m -> Mount.index_all E zip_files m = inr m' -> built m'.
Proof.
  induction zip_files as [|f files IH]; intros m m' Hb H; simpl in H.
  - now injection H as <-.
  - destruct (negb (Mount.fs_exists E f)); [discriminate|].
    destruct (negb (Mount.is_regular_file E f)); [discriminate|].
    destruct (Mount.zip_open E (Mount.absolute E f)) as [za|] eqn:Eopen;
      [|discriminate].
    destruct (index_zipfile m _ (Some za)) as [[m1 s]|] eqn:Eidx; [|discriminate].
    apply (IH m1 m'); [|exact H]. exact (built_index m m1 _ za s Hb Eidx).
Qed.

Lemma index_all_indexed (E : Mount.env) (arch : string -> zip_t)
      (zip_files : list string) :
  forall m,
  Forall (fun f => Mount.fs_exists E f = true /\ Mount.is_regular_file E f = true
                   /\ Mount.zip_open E (Mount.absolute E f) = Some (arch f))
         zip_files ->
  Mount.index_all E zip_files m
  = inr (fold_left (fun m f => indexed m (Mount.absolute E f) (arch f)) zip_files m).
Proof.
  induction zip_files as [|f files IH]; intros m Hall; [reflexivity|].
  apply Forall_cons in Hall as [(H1 & H2 & H3) Hall].
  cbn [Mount.index_all fold_left]. rewrite H1, H2, H3. cbn [negb].
  destruct (index_zipfile_Some m (Mount.absolute E f) (arch f)) as [s Hs].
  rewrite Hs, <- (indexed_eq _ _ _ _ _ Hs). now apply IH.
Qed.

(** X18: a good invocation. With the arguments [files.. mount_point
    options..], where no file and not the mount point begins with [-] and
    every option does, at least one file, a mount point that is an
    existing directory, and files that exist, are regular and open as
    archives: the archives are indexed in the order given, starting from
    the fresh index and under their absolute paths, and [fuse_main] gets
    the program name, the options, the mount point and the two appended
    arguments [-o ro,default_permissions]; the tool returns what
    [fuse_main] returns. *)
Theorem mount_good_invocation (E : Mount.env) (arch : string -> zip_t)
        (prog_name : string) (files : list string) (mount_point : string)
        (options : list string) :
  files <> [] ->
  Forall (fun a => is_option a = false) (files ++ [mount_point]) ->
  Forall (fun a => is_option a = true) options ->
  Mount.fs_exists E mount_point = true -> Mount.is_directory E mount_point = true ->
  Forall (fun f => Mount.fs_exists E f = true /\ Mount.is_regular_file E f = true
                   /\ Mount.zip_open E (Mount.absolute E f) = Some (arch f))
         files ->
  let m := fold_left (fun m f => indexed m (Mount.absolute E f) (arch f))
                     files new_manager in
  let fuse_args :=
    prog_name :: options ++ [mount_point; "-o"; "ro,default_permissions"] in
  Mount.main E (prog_name :: files ++ [mount_point] ++ options)
  = (Mount.fuse_main E fuse_args m, Mount.Mounted fuse_args m).
Proof.
  intros Hne Hfiles Hopts Hex Hdir Harch m fuse_args. unfold Mount.main.
  assert (Hlen : (length (prog_name :: files ++ [mount_point] ++ options) <? 3)%nat
                 = false).
  { apply Nat.ltb_ge. destruct files; [congruence|].
    simpl. rewrite length_app. simpl. lia. }
  rewrite Hlen.
  assert (Hscan : Mount.scan (files ++ [mount_point] ++ options) true [] [prog_name]
                  = inr (files ++ [mount_point], prog_name :: options)).
  { rewrite app_assoc, scan_files by exact Hfiles. simpl.
    destruct options as [|o options]; [reflexivity|].
    rewrite <- (app_nil_r (o :: options)).
    rewrite scan_options by (assumption || discriminate).
    simpl. now rewrite !app_nil_r. }
  rewrite Hscan.
  assert (Hlen2 : (length (files ++ [mount_point]) <? 2)%nat = false).
  { apply Nat.ltb_ge. destruct files; [congruence|].
    simpl. rewrite length_app. simpl. lia. }
  rewrite Hlen2, last_last, removelast_last, Hex, Hdir. simpl negb. cbv iota.
  rewrite (index_all_indexed E arch files new_manager Harch). reflexivity.
Qed.

Lemma mount_good_invocation_witness :
  let m := fold_left (fun m f => indexed m (Mount.absolute mount_env f) (mount_archives f))
                     ["a.zip"; "b.zip"] new_manager in
  let fuse_args := "szfs" :: ["-f"; "-d"] ++ ["/mnt"; "-o"; "ro,default_permissions"] in
  Mount.main mount_env ("szfs" :: ["a.zip"; "b.zip"] ++ ["/mnt"] ++ ["-f"; "-d"])
  = (Mount.fuse_main mount_env fuse_args m, Mount.Mounted fuse_args m).
Proof.
  apply (mount_good_invocation mount_env mount_archives "szfs" ["a.zip"; "b.zip"]
                               "/mnt" ["-f"; "-d"]).
  - discriminate.
  - repeat constructor.
  - repeat constructor.
  - reflexivity.
  - reflexivity.
  - repeat constructor.
Defined.

(** X19: no argument may follow an option unless it is an option itself.
    If the first option is followed, after any further options, by an
    argument that does not begin with [-], the tool exits 1 on that
    argument and indexes nothing, whatever the files are; so an option
    value given as a word of its own, as in [-o ro], ends the run. *)
Theorem mount_rejects_word_after_option (E : Mount.env) (prog_name : string)
        (files : list string) (option word : string) (options rest : list string) :
  Forall (fun a => is_option a = false) files ->
  is_option option = true ->
  Forall (fun a => is_option a = true) options ->
  is_option word = false ->
  Mount.main E (prog_name :: files ++ option :: options ++ word :: rest)
  = (1%Z, Mount.UnexpectedArgument word).
Proof.
  intros Hfiles Hopt Hopts Hword. unfold Mount.main.
  assert (Hlen : (length (prog_name :: files ++ option :: options ++ word :: rest) <? 3)%nat
                 = false).
  { apply Nat.ltb_ge. simpl. rewrite length_app. simpl. rewrite length_app. simpl. lia. }
  rewrite Hlen, scan_files by exact Hfiles.
  change (option :: options ++ word :: rest)
    with ((option :: options) ++ word :: rest).
  rewrite scan_options by (try discriminate; now constructor).
  simpl. unfold is_option in Hword. now rewrite Hword.
Qed.

Lemma mount_rejects_word_after_option_witness :
  Mount.main mount_env ("szfs" :: ["a.zip"; "b.zip"; "/mnt"] ++ "-o" :: [] ++ "ro" :: [])
  = (1%Z, Mount.UnexpectedArgument "ro").
Proof.
  apply (mount_rejects_word_after_option mount_env "szfs" ["a.zip"; "b.zip"; "/mnt"]
                                         "-o" "ro" [] []).
  - repeat constructor.
  - reflexivity.
  - constructor.
  - reflexivity.
Defined.

(** X20: what the mount tool hands to FUSE. Every run either exits 1 or
    ends in [fuse_main] and returns its answer; [fuse_main] is only ever
    given an index built from the fresh one by indexing archives, and
    arguments that begin with the program name and end with a mount point
    that exists and is a directory, followed by [-o
    ro,default_permissions]; between them stand only arguments that begin
    with [-]. *)
Theorem mount_hands_over_read_only (E : Mount.env) (argv : list string) :
  (exists o, Mount.main E argv = (1%Z, o)
             /\ forall fuse_args m, o <> Mount.Mounted fuse_args m)
  \/ exists prog_name options mount_point m,
      let fuse_args :=
        prog_name :: options ++ [mount_point; "-o"; "ro,default_permissions"] in
      Mount.main E argv = (Mount.fuse_main E fuse_args m, Mount.Mounted fuse_args m)
      /\ hd_error argv = Some prog_name
      /\ built m
      /\ Mount.fs_exists E mount_point = true
      /\ Mount.is_directory E mount_point = true
      /\ Forall (fun a => is_option a = true) options.
Proof.
  unfold Mount.main.
  destruct (length argv <? 3)%nat; [left; eexists; split; [reflexivity|discriminate]|].
  destruct argv as [|prog_name args];
    [left; eexists; split; [reflexivity|discriminate]|].
  assert (Hscan : forall args pf zf fa zip_files fuse_args,
             Mount.scan args pf zf fa = inr (zip_files, fuse_args) ->
             exists options, fuse_args = fa ++ options
                             /\ Forall (fun a => is_option a = true) options).
  { clear. induction args as [|a args IH]; intros pf zf fa zip_files fuse_args H;
      simpl in H.
    - injection H as <- <-. exists []. split; [now rewrite app_nil_r|constructor].
    - destruct (PathSplit.at_ a 0 "-") eqn:Ea.
      + apply IH in H as (options & -> & Hall). exists (a :: options).
        split; [now rewrite <- app_assoc|]. constructor; assumption.
      + destruct pf; [|discriminate]. now apply IH in H. }
  destruct (Mount.scan args true [] [prog_name]) as [arg|[zip_files fuse_args]] eqn:Es;
    [left; eexists; split; [reflexivity|discriminate]|].
  apply Hscan in Es as (options & -> & Hopts).
  destruct (length zip_files <? 2)%nat;
    [left; eexists; split; [reflexivity|discriminate]|].
  destruct (negb (Mount.fs_exists E _)) eqn:Eex;
    [left; eexists; split; [reflexivity|discriminate]|].
  destruct (negb (Mount.is_directory E _)) eqn:Edir;
    [left; eexists; split; [reflexivity|discriminate]|].
  destruct (Mount.index_all E _ new_manager) as [o|m] eqn:Eidx.
  - left. exists o. split; [reflexivity|].
    assert (Hno : forall files m0 o0, Mount.index_all E files m0 = inl o0 ->
                                      forall fuse_args m1, o0 <> Mount.Mounted fuse_args m1).
    { clear. induction files as [|f files IH]; intros m0 o0 H; simpl in H;
        [discriminate|].
      destruct (negb (Mount.fs_exists E f)); [injection H as <-; discriminate|].
      destruct (negb (Mount.is_regular_file E f)); [injection H as <-; discriminate|].
      destruct (index_zipfile m0 _ _) as [[m1 s]|];
        [exact (IH _ _ H)|injection H as <-; discriminate]. }
    exact (Hno _ _ _ Eidx).
  - right. exists prog_name, options, (List.last zip_files ""), m.
    apply negb_false_iff in Eex, Edir.
    split; [reflexivity|]. split; [reflexivity|].
    split; [exact (index_all_built E _ _ _ built_new Eidx)|]. auto.
Qed.

Lemma mount_hands_over_read_only_witness :
  exists prog_name options mount_point m,
    let fuse_args :=
      prog_name :: options ++ [mount_point; "-o"; "ro,default_permissions"] in
    Mount.main mount_env ["szfs"; "a.zip"; "/mnt"; "-f"]
    = (Mount.fuse_main mount_env fuse_args m, Mount.Mounted fuse_args m)
    /\ hd_error ["szfs"; "a.zip"; "/mnt"; "-f"] = Some prog_name
    /\ built m
    /\ Mount.fs_exists mount_env mount_point = true
    /\ Mount.is_directory mount_env mount_point = true
    /\ Forall (fun a => is_option a = true) options.
Proof.
  destruct (mount_hands_over_read_only mount_env ["szfs"; "a.zip"; "/mnt"; "-f"])
    as [(o & H & Hno)|H].
  - exfalso. vm_compute in H. discriminate H.
  - exact H.
Defined.

(** ** The counters of [index_zipfile] *)

Lemma index_segments_step (name : string) (fe : FileEntry) (seg seg' : nat * nat)
      (rest : list (nat * nat)) (d : DirectoryEntry) :
  index_segments name (seg :: seg' :: rest) fe d
  = (mkDir (<[PathSplit.seg_name name seg :=
               (index_segments name (seg' :: rest) fe
                  (match dirs_ d !! PathSplit.seg_name name seg with
                   | Some d0 => d0 | None => empty_dir end)).1]>
             (dirs_ d))
           (files_ d),
     (index_segments name (seg' :: rest) fe
        (match dirs_ d !! PathSplit.seg_name name seg with
                   | Some d0 => d0 | None => empty_dir end)).2).
Proof.
  change (index_segments name (seg :: seg' :: rest) fe d)
    with (let child := match dirs_ d !! PathSplit.seg_name name seg with
                       | Some d0 => d0
                       | None => empty_dir
                       end in
          let '(child', inserted) := index_segments name (seg' :: rest) fe child in
          (mkDir (<[PathSplit.seg_name name seg := child']> (dirs_ d)) (files_ d),
           inserted)).
  cbv zeta. destruct (dirs_ d !! PathSplit.seg_name name seg) as [c|].
  - now destruct (index_segments name (seg' :: rest) fe c).
  - now destruct (index_segments name (seg' :: rest) fe empty_dir).
Qed.

Lemma index_segments_empty_inserts (name : string) (fe : FileEntry)
      (segs : list (nat * nat)) :
  segs <> [] -> (index_segments name segs fe empty_dir).2 = true.
Proof.
  induction segs as [|seg rest IH]; intros Hne; [congruence|].
  destruct rest as [|seg' rest].
  - reflexivity.
  - rewrite index_segments_step.
    change (dirs_ empty_dir !! PathSplit.seg_name name seg)
      with (@lookup _ _ (gmap string DirectoryEntry) _ (PathSplit.seg_name name seg) ∅).
    rewrite lookup_empty. simpl. apply IH. discriminate.
Qed.

Lemma index_segments_not_inserted (name : string) (fe : FileEntry)
      (segs : list (nat * nat)) :
  forall d d', index_segments name segs fe d = (d', false) -> d' = d.
Proof.
  induction segs as [|seg rest IH]; intros d d' H.
  - simpl in H. congruence.
  - destruct rest as [|seg' rest].
    + simpl in H. destruct (files_ d !! PathSplit.seg_name name seg); congruence.
    + rewrite index_segments_step in H.
      pose proof (f_equal fst H) as Hd. pose proof (f_equal snd H) as Hins.
      cbn [fst snd] in Hd, Hins. clear H. subst d'.
      destruct (dirs_ d !! PathSplit.seg_name name seg) as [c|] eqn:Ed.
      * destruct (index_segments name (seg' :: rest) fe c) as [child' ins] eqn:E.
        simpl in Hins. subst ins. apply IH in E. subst child'. simpl.
        rewrite insert_id by exact Ed. now destruct d.
      * rewrite index_segments_empty_inserts in Hins; discriminate.
Qed.

Lemma index_entry_not_indexed (zip_idx : nat) (i : Z) (e : zip_entry)
      (root root' : DirectoryEntry) (o : entry_outcome) :
  index_entry zip_idx i e root = (root', o) ->
  (forall c, o <> Indexed c) -> root' = root.
Proof.
  unfold index_entry. intros H Hno.
  destruct (e_stat e) as [st|]; [|congruence].
  destruct (_ || _); [congruence|].
  destruct (_ && _); [congruence|].
  destruct (PathSplit.is_dir _); [congruence|].
  destruct (PathSplit.segments _) as [|seg segs] eqn:Es; [congruence|].
  destruct (index_segments _ _ _ _) as [r ins] eqn:E.
  destruct ins.
  - injection H as _ <-. now contradiction (Hno (need_decompression_ (make_file_entry zip_idx i st))).
  - injection H as <- _. now apply index_segments_not_inserted in E.
Qed.

Lemma index_entries_stats (zip_idx : nat) (za : list zip_entry) :
  forall (i : Z) (root : DirectoryEntry) (s : index_stats),
  let r := index_entries zip_idx i za root s in
  (indexed_files r.2 + skipped_dirs r.2 + skipped_duplicates r.2
   <= indexed_files s + skipped_dirs s + skipped_duplicates s + length za)%nat
  /\ (compressed_files r.2 + indexed_files s
      <= indexed_files r.2 + compressed_files s)%nat
  /\ (compressed_files s <= compressed_files r.2)%nat
  /\ (indexed_files s <= indexed_files r.2)%nat
  /\ (indexed_files r.2 = indexed_files s -> r.1 = root).
Proof.
  induction za as [|e za IH]; intros i root s; cbn zeta.
  - simpl. repeat split; lia.
  - cbn [index_entries].
    destruct (index_entry zip_idx i e root) as [root' o] eqn:Ee.
    specialize (IH (i + 1)%Z root' (count_outcome o s)). cbn zeta in IH.
    destruct IH as (H1 & H2 & H3 & H4 & H5).
    assert (Hroot : (forall c, o <> Indexed c) -> root' = root)
      by exact (index_entry_not_indexed _ _ _ _ _ _ Ee).
    destruct o as [| | | | |c].
    6: { destruct c; cbn [count_outcome indexed_files skipped_dirs
           skipped_duplicates compressed_files length] in *;
           (repeat split; [lia..|]); intros Heq; lia. }
    all: cbn [count_outcome indexed_files skipped_dirs
           skipped_duplicates compressed_files length] in *;
      (repeat split; [lia..|]);
      intros Heq; rewrite H5 by exact Heq; apply Hroot; discriminate.
Qed.

(** X21: the counters of an indexing run. When an archive opens,
    [index_zipfile] succeeds, and of its counters: files indexed,
    directory entries skipped and duplicates skipped together are at most
    the number of entries of the archive; the compressed files are among
    the indexed ones; and when no file was indexed the tree is exactly as
    it was before, so skipped and refused entries create no directory. *)
Theorem index_counters (m : ZipEntryManagerImpl) (abs_path : string) (za : zip_t) :
  exists m' s,
    index_zipfile m abs_path (Some za) = Some (m', s)
    /\ zip_path_lst_ m' = zip_path_lst_ m ++ [abs_path]
    /\ (indexed_files s + skipped_dirs s + skipped_duplicates s <= length za)%nat
    /\ (compressed_files s <= indexed_files s)%nat
    /\ (indexed_files s = 0%nat -> root_ m' = root_ m).
Proof.
  unfold index_zipfile.
  pose proof (index_entries_stats (length (zip_path_lst_ m)) za 0 (root_ m)
                                  (mkStats 0 0 0 0)) as H.
  cbn zeta in H.
  destruct (index_entries _ _ _ _ _) as [root' s].
  cbn [fst snd indexed_files skipped_dirs skipped_duplicates compressed_files] in H.
  destruct H as (H1 & H2 & _ & _ & H5).
  exists (mkManager (zip_path_lst_ m ++ [abs_path]) root'), s.
  split; [reflexivity|]. split; [reflexivity|].
  split; [simpl in H1; lia|]. split; [lia|].
  intros H0. simpl. apply H5. exact H0.
Qed.

Lemma index_counters_witness :
  exists m' s,
    index_zipfile new_manager "/a.zip" (Some [stored_entry "d/" []]) = Some (m', s)
    /\ root_ m' = root_ new_manager.
Proof.
  destruct (index_counters new_manager "/a.zip" [stored_entry "d/" []])
    as (m' & s & H & _ & _ & _ & Hroot).
  exists m', s. split; [exact H|]. apply Hroot.
  vm_compute in H. now injection H as _ <-.
Defined.

(** ** The streaming tool and its buffering variant *)

Section Variants.
Context {C : Codec} {W : CodecWorks C}.
Variable E : Optimizer.env.
Variable za : zip_t.

Lemma zip_file_add_in_step (name : string) (source : Optimizer.ZipStreamSource)
      (data : list ascii) (out : list Optimizer.pending)
      (outb : list Optimizer.out_entry) :
  same_entry za (Optimizer.mkPending name source None) (Optimizer.mkOut name data None) ->
  Forall2 (same_entry za) out outb ->
  Forall2 (same_entry za) (Optimizer.zip_file_add out name source).1
          (Optimizer.zip_file_add_buffer outb name data).1
  /\ (Optimizer.zip_file_add out name source).2
     = (Optimizer.zip_file_add_buffer outb name data).2.
Proof.
  intros Hnew Hout. induction Hout as [|p o out outb Hpo Hout IH]; simpl.
  - split; [constructor; [exact Hnew|constructor]|reflexivity].
  - destruct Hpo as (Hn & Hpo). rewrite <- Hn.
    destruct (String.eqb (Optimizer.p_name p) name).
    + split; [constructor; assumption|reflexivity].
    + destruct (Optimizer.zip_file_add out name source) as [out' idx].
      destruct (Optimizer.zip_file_add_buffer outb name data) as [outb' idxb].
      simpl in *. destruct IH as [IH ->].
      split; [constructor; [split; assumption|exact IH]|reflexivity].
Qed.

Lemma zip_set_file_compression_in_step (out : list Optimizer.pending)
      (outb : list Optimizer.out_entry) (idx : nat) (method : Z) :
  Forall2 (same_entry za) out outb ->
  Forall2 (same_entry za) (Optimizer.zip_set_file_compression out idx method)
          (Optimizer.zip_set_file_compression_buffer outb idx method).
Proof.
  intros Hout. unfold Optimizer.zip_set_file_compression,
    Optimizer.zip_set_file_compression_buffer.
  destruct (out !! idx) as [p|] eqn:Ep.
  - destruct (Forall2_lookup_l _ _ _ _ _ Hout Ep) as (o & Eo & Hpo). rewrite Eo.
    apply Forall2_insert; [exact Hout|].
    destruct Hpo as (Hn & _ & Hsrc). split; [exact Hn|]. split; [reflexivity|exact Hsrc].
  - destruct (outb !! idx) as [o|] eqn:Eo; [|exact Hout].
    destruct (Forall2_lookup_r _ _ _ _ _ Hout Eo) as (p & Ep' & _). congruence.
Qed.

Lemma process_entry_in_step (k : nat) (e : zip_entry) (s : Optimizer.loop_state)
      (sb : Optimizer.loop_state_buffered) :
  (forall i, Optimizer.source_owned_ok E i = true) ->
  za !! k = Some e -> size_honest e = true ->
  in_step za s sb ->
  in_step za (Optimizer.process_entry E za (Z.of_nat k) e s)
          (Optimizer.process_entry_buffered E za (Z.of_nat k) e sb).
Proof.
  intros Howned Hk Hsize (Hout & Hp & Hd).
  unfold Optimizer.process_entry, Optimizer.process_entry_buffered.
  unfold size_honest in Hsize.
  destruct (e_stat e) as [st|] eqn:Hst; [|split; [exact Hout|split; assumption]].
  apply andb_true_iff in Hsize as [Hlen Hsmall].
  apply Z.eqb_eq in Hlen. apply Z.ltb_lt in Hsmall.
  destruct (_ && PathSplit.at_ _ _ _); [split; [exact Hout|split; assumption]|].
  destruct (fopen_works za k e Hk) as (zf & -> & Hrest).
  destruct (fread_works zf (st_size st)) as (zf' & -> & _); [lia|].
  rewrite Hrest, Hlen, Nat2Z.id, firstn_all, <- Hlen, to_off_t_small by lia.
  rewrite Z.eqb_refl, Howned. cbn [negb].
  set (dec := if _ && _ then (_ + 1)%Z else _).
  set (decb := if _ && _ then (_ + 1)%Z else _).
  assert (Hdec : dec = decb) by (subst dec decb; now rewrite Hd).
  destruct (negb (Optimizer.source_function_ok E (Z.of_nat k)));
    [split; [exact Hout|split; assumption]|].
  destruct (negb (Optimizer.file_add_ok E (Z.of_nat k)));
    [split; [exact Hout|split; assumption]|].
  assert (Hnew : same_entry za
                   (Optimizer.mkPending (st_name st)
                      (Optimizer.new_stream_source za (Z.of_nat k) st) None)
                   (Optimizer.mkOut (st_name st) (e_data e) None)).
  { split; [reflexivity|]. split; [reflexivity|]. exists k, e. auto. }
  destruct (zip_file_add_in_step _ _ _ _ _ Hnew Hout) as [Hadd Hidx].
  destruct (Optimizer.zip_file_add _ _ _) as [out1 idx].
  destruct (Optimizer.zip_file_add_buffer _ _ _) as [outb1 idxb].
  simpl in Hadd, Hidx. subst idxb.
  destruct (Optimizer.set_compression_ok E (Z.of_nat k)).
  - split; [now apply zip_set_file_compression_in_step|]. simpl. split; [lia|exact Hdec].
  - split; [exact Hadd|]. simpl. split; [lia|exact Hdec].
Qed.

Lemma process_entries_in_step (entries : list zip_entry) :
  forall (k : nat) (s : Optimizer.loop_state) (sb : Optimizer.loop_state_buffered),
  (forall i, Optimizer.source_owned_ok E i = true) ->
  (forall j e, entries !! j = Some e -> za !! (k + j) = Some e) ->
  Forall (fun e => size_honest e = true) entries ->
  in_step za s sb ->
  in_step za (Optimizer.process_entries E za (Z.of_nat k) entries s)
          (Optimizer.process_entries_buffered E za (Z.of_nat k) entries sb).
Proof.
  induction entries as [|e entries IH]; intros k s sb Howned Hsub Hsizes Hs;
    [exact Hs|].
  apply Forall_cons in Hsizes as [Hsize Hsizes].
  simpl. replace (Z.of_nat k + 1)%Z with (Z.of_nat (S k)) by lia.
  apply IH; [exact Howned| |exact Hsizes|].
  - intros j e' Hj. replace (S k + j) with (k + S j) by lia. now apply Hsub.
  - apply process_entry_in_step; try assumption.
    rewrite <- (Nat.add_0_r k). now apply Hsub.
Qed.

Lemma write_pending_in_step (fuel : nat) (chunk : Z) (out : list Optimizer.pending)
      (outb : list Optimizer.out_entry) :
  (0 < chunk)%Z ->
  Forall (fun e => length (e_data e) < fuel) za ->
  Forall2 (same_entry za) out outb ->
  Optimizer.write_pending fuel chunk out = Optimizer.Written outb.
Proof.
  intros Hchunk Hfuel Hout.
  induction Hout as [|p o out outb (Hn & Hm & k & e & Hk & Hza & Hidx & Hc) _ IH];
    [reflexivity|].
  simpl.
  rewrite (writer_pull_works fuel chunk za (Optimizer.p_source p) k e Hchunk Hza Hidx Hk).
  - rewrite IH. destruct o as [n c m]. simpl in *. now subst.
  - rewrite Forall_forall in Hfuel. apply Hfuel. apply list_elem_of_lookup. eauto.
Qed.
End Variants.

Lemma prepare_opened (E : Optimizer.env) (prog_name : string)
      (opts : list Optimizer.getopt_ret) (positional : list string)
      (block_size : Z) (input_path output_path : string) (input_zip : zip_t)
      (cout0 : list Optimizer.out_item) :
  Optimizer.prepare E prog_name opts positional
  = inr (block_size, input_path, output_path, input_zip, cout0) ->
  Optimizer.zip_open_rdonly E input_path = Some input_zip.
Proof.
  unfold Optimizer.prepare.
  destruct (Optimizer.parse_options E prog_name opts 0) as [code err|bs];
    [discriminate|].
  destruct positional as [|a [|b [|c l]]]; try discriminate.
  destruct (bs =? 0)%Z; [discriminate|].
  destruct (negb (Optimizer.fs_exists E a)); [discriminate|].
  destruct (Optimizer.zip_open_rdonly E a) as [iz|] eqn:Eopen; [|discriminate].
  destruct (negb (Optimizer.zip_open_create E b)); [discriminate|].
  now intros [= _ <- _ <- _].
Qed.

(** X22: the streaming tool and the buffering variant write the same
    archive. When the codec works, the writer reads in chunks of a
    positive size for enough rounds, creating a source never fails in
    either tool ([zip_source_function] in the one, [zip_source_buffer] in
    the other) and every entry of an archive that opens declares the size
    its payload has, the two tools end with the same exit code and the
    same output archive: the same entries in the same order, with the same
    names, contents and methods, whatever the arguments and the answers of
    [zip_file_add], [zip_set_file_compression] and [zip_close]. *)
Theorem variants_write_same_archive {C : Codec} {W : CodecWorks C}
        (E : Optimizer.env) (fuel : nat) (prog_name : string)
        (opts : list Optimizer.getopt_ret) (positional : list string) :
  (0 < Optimizer.chunk E)%Z ->
  (forall i, Optimizer.source_function_ok E i = true
             /\ Optimizer.source_owned_ok E i = true) ->
  (forall p za, Optimizer.zip_open_rdonly E p = Some za ->
                Forall (fun e => size_honest e = true) za
                /\ Forall (fun e => length (e_data e) < fuel) za) ->
  exit_code (Optimizer.main E fuel prog_name opts positional)
  = exit_code (Optimizer.main_buffered E prog_name opts positional)
  /\ run_written (Optimizer.main E fuel prog_name opts positional)
     = run_written (Optimizer.main_buffered E prog_name opts positional).
Proof.
  intros Hchunk Hsources Hopen.
  assert (Howned : forall i, Optimizer.source_owned_ok E i = true)
    by (intros i; apply Hsources).
  unfold Optimizer.main, Optimizer.main_buffered.
  destruct (Optimizer.prepare E prog_name opts positional)
    as [r|[[[[bs input_path] output_path] input_zip] cout0]] eqn:Eprep;
    [split; reflexivity|].
  apply prepare_opened in Eprep. destruct (Hopen _ _ Eprep) as [Hsizes Hfuel].
  set (cerr0 := if Optimizer.register_progress_ok E then [] else _).
  assert (Hstep : in_step input_zip
                    (Optimizer.process_entries E input_zip 0 input_zip
                       (Optimizer.mkLoop [] 0 0 cout0 cerr0))
                    (Optimizer.process_entries_buffered E input_zip 0 input_zip
                       (Optimizer.mkLoopB [] 0 0 cout0 []))).
  { apply (process_entries_in_step E input_zip input_zip 0); try assumption.
    - intros j e Hj. exact Hj.
    - split; [constructor|split; reflexivity]. }
  destruct Hstep as (Hout & _ & _).
  rewrite (write_pending_in_step input_zip fuel _ _ _ Hchunk Hfuel Hout).
  set (pr := if Optimizer.register_progress_ok E then _ else _).
  destruct pr as [last_percent cout1].
  destruct (negb (Optimizer.write_ok E)); [split; reflexivity|].
  unfold Optimizer.finish.
  destruct (Optimizer.file_size E input_path); [|split; reflexivity].
  destruct (Optimizer.output_file_size E output_path _); split; reflexivity.
Qed.

Lemma variants_write_same_archive_witness :
  exit_code (@Optimizer.main ref_codec (sample_env archive_mixed 100 200) 20 "opt"
               [Optimizer.opt_b "4096"] ["in.zip"; "out.zip"])
  = exit_code (@Optimizer.main_buffered ref_codec (sample_env archive_mixed 100 200) "opt"
                 [Optimizer.opt_b "4096"] ["in.zip"; "out.zip"])
  /\ run_written (@Optimizer.main ref_codec (sample_env archive_mixed 100 200) 20 "opt"
                    [Optimizer.opt_b "4096"] ["in.zip"; "out.zip"])
     = run_written (@Optimizer.main_buffered ref_codec (sample_env archive_mixed 100 200)
                      "opt" [Optimizer.opt_b "4096"] ["in.zip"; "out.zip"]).
Proof.
  apply (@variants_write_same_archive ref_codec ref_codec_works
           (sample_env archive_mixed 100 200) 20 "opt"
           [Optimizer.opt_b "4096"] ["in.zip"; "out.zip"]).
  - simpl. lia.
  - intros i. split; reflexivity.
  - intros p za. simpl. destruct (String.eqb p "in.zip"); [|discriminate].
    intros [= <-]. split; repeat constructor; simpl; lia.
Defined.

(** ** The progress callback and the FUSE operations together *)

Lemma last_cons_default {A : Type} (l : list A) :
  forall x d : A, List.last (x :: l) d = List.last l x.
Proof.
  induction l as [|y l IH]; intros x d; [reflexivity|].
  change (List.last (x :: y :: l) d) with (List.last (y :: l) d).
  now rewrite !IH.
Qed.

(** X23: the progress callback prints a line only when the percentage
    changes. After any sequence of calls the state holds the last
    percentage reported; what was on [std::cout] before is kept, no two
    consecutive lines added show the same number, the first differs from
    the percentage the state started with, the numbers shown are reported
    percentages in the order reported, and every reported percentage other
    than the starting one is shown. *)
Theorem progress_lines_change (percents : list Z) :
  forall (last_percent : Z) (cout : list Optimizer.out_item),
  exists lines,
    fold_left (fun st p => Optimizer.write_progress_cb p st) percents (last_percent, cout)
    = (List.last percents last_percent, cout ++ lines)
    /\ no_repeat last_percent (progress_numbers lines)
    /\ sublist (progress_numbers lines) percents
    /\ forall p, p ∈ percents -> p = last_percent \/ p ∈ progress_numbers lines.
Proof.
  induction percents as [|p percents IH]; intros last_percent cout.
  - exists []. rewrite app_nil_r. repeat split; [constructor|].
    intros p Hp. now apply not_elem_of_nil in Hp.
  - cbn [fold_left]. unfold Optimizer.write_progress_cb at 2.
    destruct (Z.eqb p last_percent) eqn:Ep; cbn [negb].
    + apply Z.eqb_eq in Ep. subst p.
      destruct (IH last_percent cout) as (lines & Hfold & Hno & Hsub & Hall).
      exists lines. split.
      { rewrite Hfold. f_equal. now rewrite last_cons_default. }
      split; [exact Hno|]. split; [now apply sublist_cons|].
      intros q Hq. apply elem_of_cons in Hq as [->|Hq]; [now left|now apply Hall].
    + apply Z.eqb_neq in Ep.
      destruct (IH p (cout ++ [Optimizer.Str "Writing output: "; Optimizer.Num p;
                               Optimizer.Str ("%" ++ Optimizer.cr)%string]))
        as (lines & Hfold & Hno & Hsub & Hall).
      exists ([Optimizer.Str "Writing output: "; Optimizer.Num p;
               Optimizer.Str ("%" ++ Optimizer.cr)%string] ++ lines).
      split.
      { rewrite Hfold, <- app_assoc. f_equal. now rewrite last_cons_default. }
      cbn [progress_numbers omap app]. fold (progress_numbers lines).
      split; [split; assumption|]. split; [now apply sublist_skip|].
      intros q Hq. apply elem_of_cons in Hq as [->|Hq].
      * right. apply elem_of_cons. now left.
      * destruct (Hall q Hq) as [->|Hin]; right; apply elem_of_cons; auto.
Qed.

(** X24: the operations agree on what is missing. [getattr] answers
    [-ENOENT] for a path exactly when [open] and [readdir] both do, and
    then [read] answers [-ENOENT] too and puts nothing into the buffer; a
    path that [open] accepts was opened read-only and [getattr] answers 0
    for it. *)
Theorem operations_agree_on_missing {C : Codec} (m : ZipEntryManagerImpl)
        (zip_open : string -> option zip_t) (path : string)
        (accmode size offset : Z) :
  ((zipfs_getattr m path).1 = (- ENOENT)%Z
   <-> zipfs_open m path accmode = (- ENOENT)%Z
       /\ (zipfs_readdir m path).1 = (- ENOENT)%Z)
  /\ (zipfs_open m path accmode = (- ENOENT)%Z ->
      zipfs_read m zip_open path size offset = ReadReturn (- ENOENT)%Z [])
  /\ (zipfs_open m path accmode = 0%Z ->
      accmode = 0%Z /\ (zipfs_getattr m path).1 = 0%Z).
Proof.
  unfold zipfs_getattr, zipfs_open, zipfs_readdir, zipfs_read, ENOENT, EACCES.
  destruct (lookup_dir m path) as [d|]; destruct (lookup_file m path) as [f|];
    destruct (accmode =? 0)%Z eqn:Ea; cbn [fst];
    try apply Z.eqb_eq in Ea;
    (split; [split; [intros H|intros [H1 H2]]|split; [intros H|intros H; split]]);
    try discriminate; try reflexivity; try assumption; auto.
Qed.

Lemma operations_agree_on_missing_witness :
  zipfs_open manager_F "missing" 0 = (- ENOENT)%Z
  /\ (zipfs_readdir manager_F "missing").1 = (- ENOENT)%Z
  /\ @zipfs_read ref_codec manager_F disk_F "missing" 10 0 = ReadReturn (- ENOENT)%Z [].
Proof.
  destruct (@operations_agree_on_missing ref_codec manager_F disk_F "missing" 0 10 0)
    as (Hmissing & Hread & _).
  destruct (proj1 Hmissing eq_refl) as [Hopen Hdir].
  split; [exact Hopen|]. split; [exact Hdir|]. exact (Hread Hopen).
Defined.
